(** * Evolutionary search of CINN's auto-scheduler

    A shallow embedding of
    [cinn/auto_schedule/search_strategy/evolutionary_search.cc]
    and the properties of its search round: crossover, evolution,
    warm starts from the database and the epsilon-greedy pick; and the
    two arithmetic helpers of the reduce-split pass. *)

From Stdlib Require Import ZArith Lia Bool List SpecFloat.
From stdpp Require Import base decidable option list strings gmap sets.

Open Scope Z_scope.

(** ** Outcomes of a call

    A C++ call of the search either returns, or dies on a failed glog
    [CHECK] (the process aborts), or has no defined behaviour (a vector
    indexed out of its bounds, a float without integer value converted
    to [int], a dangling reference), or keeps looping.  The last case is
    what a model with fuel reports when the fuel is used up. *)

Inductive outcome (A : Type) : Type :=
| Ok (a : A)
| CheckFailed
| Undefined
| OutOfFuel.

Arguments Ok {A} a.
Arguments CheckFailed {A}.
Arguments Undefined {A}.
Arguments OutOfFuel {A}.

Definition returns {A} (o : outcome A) : Prop := ∃ a, o = Ok a.

Definition obind {A B} (o : outcome A) (k : A → outcome B) : outcome B :=
  match o with
  | Ok a => k a
  | CheckFailed => CheckFailed
  | Undefined => Undefined
  | OutOfFuel => OutOfFuel
  end.

(** ** Loops

    A [while] loop is a step function iterated with fuel: [step] gives
    the state after one more iteration, or [None] when the loop is left
    (its condition is false, or its body executes [break]). *)

Fixpoint while_loop {S : Type} (step : S → option S) (fuel : nat) (st : S)
  : outcome S :=
  match step st with
  | None => Ok st
  | Some st' =>
      match fuel with
      | O => OutOfFuel
      | Datatypes.S fuel' => while_loop step fuel' st'
      end
  end.

(** ** C++ integer conversions *)

(** [size_t] is 64 bits wide: an [int] compared with a [size_t] is first
    converted, modulo [2^64]. *)
Definition to_size_t (z : Z) : Z := z mod 2 ^ 64.

(** [a < b] with [a] a [size_t] and [b] an [int]. *)
Definition size_lt_int (a : nat) (b : Z) : bool := Z.of_nat a <? to_size_t b.

(** [a < b] with [a] an [int] index and [b] a [size_t].  The indices of
    the search start at zero and only grow, and a vector has fewer than
    [2^64] elements, so the conversion leaves [a] as it is. *)
Definition int_lt_size (a : Z) (b : nat) : bool := a <? Z.of_nat b.

(** ** Single precision arithmetic

    [eps_greedy] is a [float]; [num * eps_greedy] converts [num] to
    binary32, multiplies with rounding to nearest even, and the
    initialisation of the [int] truncates towards zero. *)

Definition prec32 : Z := 24.
Definition emax32 : Z := 128.

Definition float32 := spec_float.

Definition int_to_float (n : Z) : float32 :=
  binary_normalize prec32 emax32 n 0 false.

Definition fmul32 (x y : float32) : float32 := SFmul prec32 emax32 x y.

(** An [int] is 32 bits wide. *)
Definition in_int_range (z : Z) : bool := (- 2 ^ 31 <=? z) && (z <? 2 ^ 31).

(** Conversion of a float to [int]: the fractional part is discarded.
    Infinities, NaN and the values whose integer part an [int] does not
    hold have no integer value (undefined behaviour). *)
Definition float_to_int (x : float32) : option Z :=
  match x with
  | S754_zero _ => Some 0
  | S754_finite s m e =>
      let a := if 0 <=? e then Z.pos m * 2 ^ e else Z.pos m / 2 ^ (- e) in
      let z := if s then - a else a in
      if in_int_range z then Some z else None
  | S754_infinity _ | S754_nan => None
  end.

(** The greatest integer below the value [(-1)^s * m * 2^e] of a float. *)
Definition float_floor (x : float32) : option Z :=
  match x with
  | S754_zero _ => Some 0
  | S754_finite s m e =>
      let v := if s then Z.neg m else Z.pos m in
      Some (if 0 <=? e then v * 2 ^ e else v / 2 ^ (- e))
  | S754_infinity _ | S754_nan => None
  end.

(** The greatest integer below the product of the integer [n] by the
    value [(-1)^s * m * 2^e] of a float, computed without rounding. *)
Definition exact_floor (n : Z) (x : float32) : option Z :=
  match x with
  | S754_zero _ => Some 0
  | S754_finite s m e =>
      let v := if s then Z.neg m else Z.pos m in
      Some (if 0 <=? e then n * v * 2 ^ e else (n * v) / 2 ^ (- e))
  | S754_infinity _ | S754_nan => None
  end.

(** [0 <= x] and [x <= 1] on floats. *)
Definition float_nonneg (x : float32) : bool :=
  SFleb (S754_zero false) x.

Definition float_one : float32 := S754_finite false 8388608 (-23).

Definition float_le_one (x : float32) : bool := SFleb x float_one.

(** [m * 2^e] is at most the integer [n], for an exponent that is not
    positive. *)
Definition below (n m e : Z) : Prop :=
  0 ≤ m ∧ e ≤ 0 ∧ m ≤ n * 2 ^ (- e).

(** ** The epsilon-greedy pick

    [PickNextGenerationEpsGreedy], over any type of states with a
    fingerprint that [visited_candidates_] hashes and compares. *)

Section Pick.
Context {State K : Type} `{Countable K}.
Variable fingerprint : State → K.
Variables picked_bests random_init : list State.
Variable num : Z.
Variable eps_greedy : float32.

(** The local variables of the loop; [visited] is the member
    [visited_candidates_] as the loop sees it: the set holds states,
    which it hashes and compares by their IR, and no IR changes while
    the loop runs, so what the loop sees of the set is the
    fingerprints of the states in it. *)
Record pick_state : Type := PickState {
  result : list State;
  deduplicated_cnt : Z;
  best_idx : Z;
  rand_idx : Z;
  visited : gset K
}.

(** [int num_rands = num * eps_greedy;] *)
Definition num_rands : option Z :=
  float_to_int (fmul32 (int_to_float num) eps_greedy).

(** The three branches that choose [selected]; [None] is [break].  Every
    branch reads a vector at an index it has just compared with the
    size, so the element is there. *)
Definition pick_select (num_bests : Z) (st : pick_state)
  : option (State * Z * Z) :=
  if size_lt_int (length (result st)) num_bests
     && int_lt_size (best_idx st) (length picked_bests)
  then s ← picked_bests !! Z.to_nat (best_idx st);
       Some (s, best_idx st + 1, rand_idx st)
  else if int_lt_size (rand_idx st) (length random_init)
  then s ← random_init !! Z.to_nat (rand_idx st);
       Some (s, best_idx st, rand_idx st + 1)
  else if int_lt_size (best_idx st) (length picked_bests)
  then s ← picked_bests !! Z.to_nat (best_idx st);
       Some (s, best_idx st + 1, rand_idx st)
  else None.

(** One iteration of [while (result.size() < num)]. *)
Definition pick_step (num_bests : Z) (st : pick_state) : option pick_state :=
  if size_lt_int (length (result st)) num
  then '(selected, bi, ri) ← pick_select num_bests st;
       if decide (fingerprint selected ∈ visited st)
       then Some (PickState (result st) (deduplicated_cnt st + 1) bi ri
                    (visited st))
       else Some (PickState (result st ++ [selected]) (deduplicated_cnt st)
                    bi ri
                    ({[fingerprint selected]} ∪ visited st))
  else None.

Definition pick_init (visited0 : gset K) : pick_state :=
  PickState [] 0 0 0 visited0.

(** The loop state with the indices as naturals. *)
Definition st_of (r : list State) (d : Z) (i j : nat) (v : gset K)
  : pick_state :=
  PickState r d (Z.of_nat i) (Z.of_nat j) v.

(** What the body does to a candidate once it is selected. *)
Definition keep_or_skip (r : list State) (d : Z) (i j : nat) (v : gset K)
    (x : State) : pick_state :=
  if decide (fingerprint x ∈ v) then st_of r (d + 1) i j v
  else st_of (r ++ [x]) d i j ({[fingerprint x]} ∪ v).

(** Every iteration advances [best_idx] or [rand_idx], so the loop is
    left after at most [|picked_bests| + |random_init|] of them. *)
Definition pick_fuel : nat := length picked_bests + length random_init.

Definition pick_run (num_bests : Z) (fuel : nat) (st : pick_state)
  : outcome (list State * gset K) :=
  obind (while_loop (pick_step num_bests) fuel st)
    (λ st', Ok (result st', visited st')).

(** The call returns [result] and leaves the member updated. *)
Definition PickNextGenerationEpsGreedy (visited0 : gset K)
  : outcome (list State * gset K) :=
  match num_rands with
  | None => Undefined
  | Some num_rands =>
      let num_bests := num - num_rands in
      pick_run num_bests pick_fuel (pick_init visited0)
  end.

(** *** The pick in the words of the specification

    [dedup_take n v l] fills up to [n] slots from the supply [l], in
    order, skipping the candidates whose fingerprint is in the visited
    set and recording the ones it keeps; it gives the kept candidates,
    the visited set and what is left of the supply. *)
Fixpoint dedup_take (n : nat) (v : gset K) (l : list State)
  : list State * gset K * list State :=
  match n, l with
  | O, _ => ([], v, l)
  | _, [] => ([], v, [])
  | Datatypes.S n', x :: l' =>
      if decide (fingerprint x ∈ v) then dedup_take n v l'
      else let '(kept, v', rest) :=
             dedup_take n' ({[fingerprint x]} ∪ v) l' in
           (x :: kept, v', rest)
  end.

(** The first [n_best] slots come from [bests]; the remaining ones from
    [randoms]; when [randoms] runs out, what is left of [bests] fills
    the rest (when [bests] runs out early, [randoms] gets its slots). *)
Definition eps_greedy_slots (n n_best : nat) (v : gset K)
    (bests randoms : list State) : list State * gset K :=
  let '(k1, v1, bests') := dedup_take (n_best `min` n) v bests in
  let '(k2, v2, _) := dedup_take (n - length k1) v1 randoms in
  let '(k3, v3, _) := dedup_take (n - length k1 - length k2) v2 bests' in
  (k1 ++ k2 ++ k3, v3).
End Pick.

Arguments PickState {State K _ _} _ _ _ _ _.
Arguments result {State K _ _} _.
Arguments visited {State K _ _} _.
Arguments best_idx {State K _ _} _.
Arguments rand_idx {State K _ _} _.
Arguments deduplicated_cnt {State K _ _} _.

(** ** Collaborators of the search

    The random engine, the IR, the search space, the database and the
    schedule replay are defined outside [evolutionary_search.cc]. *)

(** Modelled from the spec: [utils::LinearRandomEngine] and the helpers
    of [cinn/utils/random_engine.h], which is not among the sources.  The
    spec gives the API [normalize(seed)], [sample_uniform_int(lo,
    hi_excl, &state)] and [fork(&state)]; the last two advance the state
    they are given, so they return it next to their result. *)
Class RandomEngine (StateType : Type) : Type := {
  NormalizeState : StateType → StateType;
  SampleUniformInt : Z → Z → StateType → Z * StateType;
  ForkRandomState : StateType → StateType * StateType
}.

(** Modelled from the spec: the sampled integer lies in [[lo, hi_excl)]. *)
Class RandomEngineRange {StateType} (RE : RandomEngine StateType) : Prop :=
  sample_range : ∀ lo hi s,
    lo < hi → lo ≤ (SampleUniformInt lo hi s).1 < hi.

(** An [ir::Expr] and a [SearchState] are reference-counted pointers:
    copying one copies the address, not the object. *)
Definition Expr := positive.
Definition SearchState := positive.

Record IRSchedule (StateType : Type) : Type := MkIRSchedule {
  module_expr : list Expr;
  sched_rand_seed : StateType
}.
Arguments MkIRSchedule {StateType} _ _.
Arguments module_expr {StateType} _.
Arguments sched_rand_seed {StateType} _.

(** The object a [SearchState] points to. *)
Record SearchStateObj (StateType : Type) : Type := MkSearchState {
  ir_schedule : IRSchedule StateType;
  predicted_cost : float32
}.
Arguments MkSearchState {StateType} _ _.
Arguments ir_schedule {StateType} _.
Arguments predicted_cost {StateType} _.

(** Modelled from the spec: [SearchState::NOT_INIT], the default cost of
    the constructor of [SearchState], declared in [search_state.h], which
    is not among the sources; the spec has NaN for the cost of a state
    that is not scored. *)
Definition NOT_INIT : float32 := S754_nan.

(** The heap: IR nodes by address (a node stands for the whole
    expression below it) and search states by address. *)
Record Memory (StateType IrNode : Type) : Type := MkMemory {
  ir_heap : gmap positive IrNode;
  state_heap : gmap positive (SearchStateObj StateType)
}.
Arguments MkMemory {StateType IrNode} _ _.
Arguments ir_heap {StateType IrNode} _.
Arguments state_heap {StateType IrNode} _.

Record TuningRecord (Proto : Type) : Type := MkTuningRecord {
  trace : Proto;
  record_predicted_cost : float32
}.
Arguments MkTuningRecord {Proto} _ _.
Arguments trace {Proto} _.
Arguments record_predicted_cost {Proto} _.

Record TuningOptions : Type := MkTuningOptions {
  num_samples_per_iteration : Z;
  evolution_pick_database_topk : Z;
  evolution_init_population_num : Z;
  evolution_cross_over_num : Z;
  evolution_eps_greedy : float32
}.

(** What the search calls and does not define.  The functions that work
    on the heap take it and give it back. *)
Class Collaborators (StateType : Type) : Type := {
  IrNode : Type;
  IrNode_eq_dec :: EqDecision IrNode;
  IrNode_countable :: Countable IrNode;
  TuneTask : Type;
  ExprCostModel : Type;
  Database : Type;
  SearchSpace : Type;
  Proto : Type;
  TaskKey : Type;
  (** [tune_task.serialized_key] *)
  serialized_key : TuneTask → TaskKey;
  (** [InitialTaskRegistry::Global()->Get(task_key)->module_expr] *)
  registry_module_expr : TaskKey → list Expr;
  (** [Database::GetTopK] *)
  GetTopK : Database → TaskKey → Z → list (TuningRecord Proto);
  (** [ir::ScheduleDesc::ReplayWithProto], which works on the schedule
      it is given and fails when the trace does not apply to it. *)
  ReplayWithProto :
    Proto → IRSchedule StateType → Memory StateType IrNode →
    outcome (IRSchedule StateType * Memory StateType IrNode);
  (** The constructor of [SearchSpace]. *)
  NewSearchSpace : TuneTask → StateType → SearchSpace;
  (** [SearchSpace::GenerateSketches] *)
  GenerateSketches :
    Z → string → SearchSpace → Memory StateType IrNode →
    list SearchState * SearchSpace * Memory StateType IrNode;
  (** [SearchSpace::GetScheduleMutate] *)
  GetScheduleMutate :
    SearchState → ExprCostModel → SearchSpace → Memory StateType IrNode →
    SearchState * SearchSpace * Memory StateType IrNode
}.

(** ** The search object and its methods *)

Section Search.
Context {StateType : Type} {RE : RandomEngine StateType}.
Context {C : Collaborators StateType}.

Abbreviation Mem := (Memory StateType IrNode).

(** Modelled from the spec: [SearchStateEqual] and [SearchStateHash],
    declared in [search_state.h], which is not among the sources.
    Equality and hashing are over a structural fingerprint of the
    scheduled IR: two states are the same candidate when their modules
    hold equal expressions, whatever their addresses.  The fingerprint
    of a state is the content of its expressions. *)
Definition Fingerprint : Type := list (option IrNode).

Definition fingerprint (m : Mem) (s : SearchState) : Fingerprint :=
  match state_heap m !! s with
  | Some o => (λ e, ir_heap m !! e) <$> module_expr (ir_schedule o)
  | None => []
  end.

(** The members of [EvolutionarySearch].  [visited_candidates_] is an
    [unordered_set] of [SearchState] with [SearchStateHash] and
    [SearchStateEqual]: it holds the references that were inserted, and
    a lookup compares the IR that the states have when it is made (the
    hash is a function of the same IR, and is taken to find what the
    equality finds). *)
Record EvolutionarySearch : Type := MkEvolutionarySearch {
  tune_task_ : TuneTask;
  cost_model_ : ExprCostModel;
  database_ : Database;
  rand_seed_ : StateType;
  search_space_ : SearchSpace;
  visited_candidates_ : list SearchState
}.

(** A method runs on the object and the heap. *)
Record World : Type := MkWorld {
  this : EvolutionarySearch;
  mem : Mem
}.

Definition M (A : Type) : Type := World → outcome (A * World).

Definition ret {A} (a : A) : M A := λ w, Ok (a, w).

Definition bind {A B} (c : M A) (k : A → M B) : M B :=
  λ w, obind (c w) (λ '(a, w'), k a w').

Notation "'let*' x := c 'in' k" := (bind c (λ x, k))
  (at level 10, x name, c at level 100, k at level 200).

Definition fail_check {A} : M A := λ _, CheckFailed.
Definition undefined {A} : M A := λ _, Undefined.

Definition set_rand_seed (s : StateType) (w : World) : World :=
  let t := this w in
  MkWorld (MkEvolutionarySearch (tune_task_ t) (cost_model_ t) (database_ t)
             s (search_space_ t) (visited_candidates_ t)) (mem w).

Definition set_search_space (sp : SearchSpace) (w : World) : World :=
  let t := this w in
  MkWorld (MkEvolutionarySearch (tune_task_ t) (cost_model_ t) (database_ t)
             (rand_seed_ t) sp (visited_candidates_ t)) (mem w).

Definition set_visited (v : list SearchState) (w : World) : World :=
  let t := this w in
  MkWorld (MkEvolutionarySearch (tune_task_ t) (cost_model_ t) (database_ t)
             (rand_seed_ t) (search_space_ t) v) (mem w).

Definition set_mem (m : Mem) (w : World) : World := MkWorld (this w) m.

(** [utils::SampleUniformInt(lo, hi, &rand_seed_)] *)
Definition sample_uniform_int (lo hi : Z) : M Z :=
  λ w, let '(v, s) := SampleUniformInt lo hi (rand_seed_ (this w)) in
       Ok (v, set_rand_seed s w).

(** [utils::ForkRandomState(&rand_seed_)] *)
Definition fork_random_state : M StateType :=
  λ w, let '(forked, s) := ForkRandomState (rand_seed_ (this w)) in
       Ok (forked, set_rand_seed s w).

(** [optim::IRCopy(e)]: a deep copy, that is a new node with the
    content of [e]. *)
Definition IRCopy (e : Expr) : M Expr :=
  λ w, match ir_heap (mem w) !! e with
       | Some n =>
           let e' := fresh (dom (ir_heap (mem w))) in
           Ok (e', set_mem (MkMemory (<[e' := n]> (ir_heap (mem w)))
                              (state_heap (mem w))) w)
       | None => Undefined
       end.

(** [optim::IRCopy] of a [ModuleExpr] copies its expressions. *)
Fixpoint IRCopy_module (es : list Expr) : M (list Expr) :=
  match es with
  | [] => ret []
  | e :: es' =>
      let* e' := IRCopy e in
      let* r := IRCopy_module es' in
      ret (e' :: r)
  end.

(** [SearchState(ir_sch, cost)] allocates the state. *)
Definition new_SearchState (sch : IRSchedule StateType) (cost : float32)
  : M SearchState :=
  λ w, let s := fresh (dom (state_heap (mem w))) in
       Ok (s, set_mem (MkMemory (ir_heap (mem w))
                         (<[s := MkSearchState sch cost]>
                            (state_heap (mem w)))) w).

(** [state->ir_schedule.GetModule().GetExprs()] *)
Definition GetExprs (s : SearchState) : M (list Expr) :=
  λ w, match state_heap (mem w) !! s with
       | Some o => Ok (module_expr (ir_schedule o), w)
       | None => Undefined
       end.

(** [CHECK_EQ(a, b)] *)
Definition CHECK_EQ (a b : nat) : M unit :=
  if decide (a = b) then ret () else fail_check.

(** The loop of [CrossOver] over the positions; [mother_exprs[i]]
    exists because the sizes have been checked to be equal. *)
Fixpoint cross_over_loop (father_exprs mother_exprs : list Expr)
  : M (list Expr) :=
  match father_exprs, mother_exprs with
  | f :: fs, m :: ms =>
      let* die := sample_uniform_int 0 2 in
      let* e := if die =? 0 then IRCopy f else IRCopy m in
      let* r := cross_over_loop fs ms in
      ret (e :: r)
  | _, _ => ret []
  end.

Definition CrossOver (state1 state2 : SearchState) : M SearchState :=
  let* father_exprs := GetExprs state1 in
  let* mother_exprs := GetExprs state2 in
  let* _ := CHECK_EQ (length father_exprs) (length mother_exprs) in
  let* cross_over_exprs := cross_over_loop father_exprs mother_exprs in
  let* seed := fork_random_state in
  new_SearchState (MkIRSchedule cross_over_exprs seed) NOT_INIT.

(** [while (first_rand_idx == second_rand_idx)] on the pair of
    [second_rand_idx] and [rand_seed_]. *)
Definition resample_step (generation_num first_rand_idx : Z)
    (st : Z * StateType) : option (Z * StateType) :=
  if first_rand_idx =? st.1
  then Some (SampleUniformInt 0 generation_num st.2)
  else None.

Definition resample (fuel : nat) (generation_num first_rand_idx
    second_rand_idx : Z) : M Z :=
  λ w, obind (while_loop (resample_step generation_num first_rand_idx) fuel
                (second_rand_idx, rand_seed_ (this w)))
         (λ '(second, s), Ok (second, set_rand_seed s w)).

(** [population[i]] *)
Definition at_index (population : list SearchState) (i : Z)
  : M SearchState :=
  if i <? 0 then undefined
  else match population !! Z.to_nat i with
       | Some s => ret s
       | None => undefined
       end.

(** The body of [for (int i = 0; i < cross_over_num; ++i)], run
    [n] times. *)
Fixpoint cross_over_iter (fuel : nat) (population : list SearchState)
    (generation_num : Z) (n : nat) (evolution : list SearchState)
  : M (list SearchState) :=
  match n with
  | O => ret evolution
  | Datatypes.S n' =>
      let* first_rand_idx := sample_uniform_int 0 generation_num in
      let* second_rand_idx := sample_uniform_int 0 generation_num in
      let* second_rand_idx :=
        resample fuel generation_num first_rand_idx second_rand_idx in
      let* state1 := at_index population first_rand_idx in
      let* state2 := at_index population second_rand_idx in
      let* child := CrossOver state1 state2 in
      cross_over_iter fuel population generation_num n'
        (evolution ++ [child])
  end.

(** [search_space_->GetScheduleMutate(s, cost_model_)] *)
Definition schedule_mutate (s : SearchState) : M SearchState :=
  λ w, let '(s', sp, m) :=
         GetScheduleMutate s (cost_model_ (this w))
           (search_space_ (this w)) (mem w) in
       Ok (s', set_mem m (set_search_space sp w)).

Definition cost_in (m : Mem) (s : SearchState) : float32 :=
  match state_heap m !! s with
  | Some o => predicted_cost o
  | None => S754_nan
  end.

(** Modelled from the spec: [utils::SizedMultiSet], whose header is not
    among the sources.  It keeps its elements in ascending order of
    cost, equal ones in the order they came, and when an insertion
    makes it larger than its capacity it drops the largest. *)
Fixpoint multiset_insert (m : Mem) (s : SearchState)
    (l : list SearchState) : list SearchState :=
  match l with
  | [] => [s]
  | x :: l' =>
      if SFltb (cost_in m s) (cost_in m x) then s :: l
      else x :: multiset_insert m s l'
  end.

(** Modelled from the spec: [SizedMultiSet::Push], which evicts the
    element with the largest key when the size exceeds the capacity. *)
Definition SizedMultiSet_Push (max_size : Z) (m : Mem) (s : SearchState)
    (l : list SearchState) : list SearchState :=
  let l' := multiset_insert m s l in
  if max_size <? Z.of_nat (length l') then removelast l' else l'.

(** The loop that mutates and pushes every element of [evolution]. *)
Fixpoint push_all (max_size : Z) (evolution : list SearchState)
    (evolution_with_cost : list SearchState) : M (list SearchState) :=
  match evolution with
  | [] => ret evolution_with_cost
  | s :: rest =>
      let* s' := schedule_mutate s in
      let* l := (λ w, Ok (SizedMultiSet_Push max_size (mem w) s'
                            evolution_with_cost, w)) in
      push_all max_size rest l
  end.

Definition Evolve (fuel : nat) (population : list SearchState)
    (cross_over_num ret_num : Z) : M (list SearchState) :=
  let generation_num := Z.of_nat (length population) in
  if generation_num =? 0 then ret []
  else
    let* evolution :=
      cross_over_iter fuel population generation_num
        (Z.to_nat cross_over_num) population in
    push_all (to_size_t ret_num) evolution [].

(** The body of the loop over the records of the database. *)
Definition replay_record (task_key : TaskKey) (record : TuningRecord Proto)
  : M SearchState :=
  let* exprs := IRCopy_module (registry_module_expr task_key) in
  let* seed := fork_random_state in
  let* ir_sch := (λ w,
    obind (ReplayWithProto (trace record) (MkIRSchedule exprs seed) (mem w))
      (λ '(sch, m), Ok (sch, set_mem m w))) in
  new_SearchState ir_sch (record_predicted_cost record).

Fixpoint replay_records (task_key : TaskKey)
    (records : list (TuningRecord Proto)) : M (list SearchState) :=
  match records with
  | [] => ret []
  | record :: rest =>
      let* s := replay_record task_key record in
      let* r := replay_records task_key rest in
      ret (s :: r)
  end.

Definition GetTopKCandidatesFromDatabase (topk : Z) : M (list SearchState) :=
  λ w, let task_key := serialized_key (tune_task_ (this w)) in
       let records := GetTopK (database_ (this w)) task_key topk in
       replay_records task_key records w.

Definition InitSketch (num : Z) (strategy : string) : M (list SearchState) :=
  λ w, let '(l, sp, m) :=
         GenerateSketches num strategy (search_space_ (this w)) (mem w) in
       Ok (l, set_mem m (set_search_space sp w)).

Definition SearchModuleExprBests (fuel : nat) (options : TuningOptions)
  : M (list SearchState) :=
  let* topk_from_database :=
    GetTopKCandidatesFromDatabase (evolution_pick_database_topk options) in
  let init_num :=
    evolution_init_population_num options
    - Z.of_nat (length topk_from_database) in
  let* init_sketch := InitSketch init_num "rule_prune" in
  let init_population := topk_from_database ++ init_sketch in
  Evolve fuel init_population (evolution_cross_over_num options)
    (num_samples_per_iteration options).

(** [SearchModuleExprBests(options)[0]] *)
Definition SearchModuleExpr (fuel : nat) (options : TuningOptions)
  : M SearchState :=
  let* bests := SearchModuleExprBests fuel options in
  match bests !! 0%nat with
  | Some s => ret s
  | None => undefined
  end.

(** [PickNextGenerationEpsGreedy] as a method.  The fingerprints are
    those that the states have on the heap at the call, also for the
    states that the member holds; the states that the loop inserts are
    the ones it returns. *)
Definition pick_next_generation (picked_bests random_init : list SearchState)
    (num : Z) (eps_greedy : float32) : M (list SearchState) :=
  λ w, obind (PickNextGenerationEpsGreedy (fingerprint (mem w))
                picked_bests random_init num eps_greedy
                (list_to_set
                   (fingerprint (mem w) <$> visited_candidates_ (this w))))
         (λ '(r, _), Ok (r, set_visited (visited_candidates_ (this w) ++ r)
                              w)).

Definition SearchModuleExprEpsGreedy (fuel : nat) (options : TuningOptions)
  : M (list SearchState) :=
  let* picked_bests := SearchModuleExprBests fuel options in
  let random_num :=
    evolution_init_population_num options
    - evolution_pick_database_topk options in
  let* random_init := InitSketch random_num "random_prune" in
  pick_next_generation picked_bests random_init
    (num_samples_per_iteration options) (evolution_eps_greedy options).

(** The constructor. *)
Definition new_EvolutionarySearch (tune_task : TuneTask)
    (cost_model : ExprCostModel) (database : Database)
    (rand_seed : StateType) : EvolutionarySearch :=
  let '(forked, seed) := ForkRandomState (NormalizeState rand_seed) in
  MkEvolutionarySearch tune_task cost_model database seed
    (NewSearchSpace tune_task forked) [].
End Search.

Notation "'let*' x := c 'in' k" := (bind c (λ x, k))
  (at level 10, x name, c at level 100, k at level 200).

(** ** Rounds of the search on one object, and what properties say
    about a method *)

Section Rounds.
Context {StateType : Type} {RE : RandomEngine StateType}.
Context {C : Collaborators StateType}.

(** A round of [SearchModuleExprEpsGreedy], giving next to the returned
    states their fingerprints at the time they are returned. *)
Definition eps_greedy_round (fuel : nat) (options : TuningOptions)
  : M (list SearchState * list Fingerprint) :=
  let* r := SearchModuleExprEpsGreedy fuel options in
  λ w, Ok ((r, fingerprint (mem w) <$> r), w).

(** Rounds in sequence, on the same object. *)
Fixpoint eps_greedy_rounds (fuel : nat) (rounds : list TuningOptions)
  : M (list (list SearchState * list Fingerprint)) :=
  match rounds with
  | [] => ret []
  | options :: rest =>
      let* r := eps_greedy_round fuel options in
      let* rs := eps_greedy_rounds fuel rest in
      ret (r :: rs)
  end.

(** The draws of [n] dice [SampleUniformInt(0, 2, &seed)] in a row. *)
Fixpoint dice (n : nat) (seed : StateType) : list Z * StateType :=
  match n with
  | O => ([], seed)
  | Datatypes.S n' =>
      let '(d, s1) := SampleUniformInt 0 2 seed in
      let '(ds, s2) := dice n' s1 in
      (d :: ds, s2)
  end.

(** The expressions of a state, none for a dangling reference. *)
Definition exprs_of (m : Memory StateType IrNode) (s : SearchState)
  : list Expr :=
  match state_heap m !! s with
  | Some o => module_expr (ir_schedule o)
  | None => []
  end.

(** A method that leaves [visited_candidates_] as it is. *)
Definition keeps_visited {A} (c : M A) : Prop :=
  ∀ w a w', c w = Ok (a, w') →
            visited_candidates_ (this w') = visited_candidates_ (this w).

(** What a method leaves of the object: every member but the seed. *)
Definition same_members (w w' : World) : Prop :=
  tune_task_ (this w') = tune_task_ (this w)
  ∧ cost_model_ (this w') = cost_model_ (this w)
  ∧ database_ (this w') = database_ (this w)
  ∧ search_space_ (this w') = search_space_ (this w)
  ∧ visited_candidates_ (this w') = visited_candidates_ (this w).

(** The expressions [es] are on the heap. *)
Definition on_heap (m : Memory StateType IrNode) (es : list Expr) : Prop :=
  Forall (λ e, e ∈ dom (ir_heap m)) es.

(** After a crossover from world [w], position [i] of the child holds
    a deep copy of position [i] of [parent]: a node that did not exist
    in [w], with the content the parent's node had. *)
Definition takes_from (w : World) (parent : SearchState) (i : nat)
    (o : outcome (SearchState * World)) : bool :=
  match o with
  | Ok (child, w') =>
      match exprs_of (mem w') child !! i, exprs_of (mem w) parent !! i with
      | Some ec, Some ep =>
          bool_decide ((ec ∉ dom (ir_heap (mem w)))
                       ∧ ir_heap (mem w') !! ec = ir_heap (mem w) !! ep)
      | _, _ => false
      end
  | _ => false
  end.

(** *** Warm starts in the words of the specification

    A record whose trace fails to replay is dropped, the others are
    kept. *)
Fixpoint replay_records_dropping (task_key : TaskKey)
    (records : list (TuningRecord Proto)) : M (list SearchState) :=
  match records with
  | [] => ret []
  | record :: rest =>
      λ w, match replay_record task_key record w with
           | Ok (s, w') =>
               (let* r := replay_records_dropping task_key rest in
                ret (s :: r)) w'
           | _ => replay_records_dropping task_key rest w
           end
  end.

(** The state of the engine after [n] calls of [ForkRandomState] on
    it. *)
Fixpoint forked (n : nat) (seed : StateType) : StateType :=
  match n with
  | O => seed
  | Datatypes.S n' => forked n' (ForkRandomState seed).2
  end.

(** A state that exists, with the nodes of its expressions. *)
Definition live (m : Memory StateType IrNode) (s : SearchState) : Prop :=
  ∃ o, state_heap m !! s = Some o ∧ on_heap m (module_expr (ir_schedule o)).

(** From the heap [m] to the heap [m'] no state is rewritten in place:
    a state that exists still does, with the IR it had. *)
Definition keeps_states (m m' : Memory StateType IrNode) : Prop :=
  ∀ s, live m s → live m' s ∧ fingerprint m' s = fingerprint m s.

(** A method that rewrites no state in place. *)
Definition frames {A} (c : M A) : Prop :=
  ∀ w a w', c w = Ok (a, w') → keeps_states (mem w) (mem w').

(** Collaborators that allocate what they make and rewrite no state
    that exists: the sketches are new or old states that exist, the
    mutation of a state that exists is one, and the replay gives a
    schedule whose expressions exist. *)
Definition collaborators_keep_states : Prop :=
  (∀ num strategy sp m l sp' m',
     GenerateSketches num strategy sp m = (l, sp', m') →
     keeps_states m m' ∧ Forall (live m') l)
  ∧ (∀ s cm sp m s' sp' m',
       GetScheduleMutate s cm sp m = (s', sp', m') →
       keeps_states m m' ∧ (live m s → live m' s'))
  ∧ (∀ p sch m sch' m',
       ReplayWithProto p sch m = Ok (sch', m') →
       keeps_states m m'
       ∧ (on_heap m (module_expr sch) → on_heap m' (module_expr sch'))).

(** [ReplayWithProto(record.trace, &ir_sch)] is given the schedule and
    nothing of the search: the states on the heap are out of its
    reach. *)
Definition replay_keeps_states : Prop :=
  ∀ p sch m sch' m',
    ReplayWithProto p sch m = Ok (sch', m') → state_heap m' = state_heap m.
End Rounds.

(** ** Uniform dice *)

(** Modelled from the spec: [sample_uniform_int(lo, hi_excl, &state)]
    is uniform over [[lo, hi_excl)], so the die has the outcomes
    [lo, ..., hi_excl - 1], all as likely. *)
Definition die_outcomes (lo hi : Z) : list Z := seqZ lo (hi - lo).

(** The outcomes of [n] dice in a row, all as likely. *)
Fixpoint die_tapes (n : nat) (lo hi : Z) : list (list Z) :=
  match n with
  | O => [[]]
  | Datatypes.S n' =>
      flat_map (λ d, cons d <$> die_tapes n' lo hi) (die_outcomes lo hi)
  end.

(** On how many of the outcomes of [n] dice the die of position [i]
    shows [d]. *)
Definition die_shows (n i : nat) (d : Z) : nat :=
  length (List.filter (λ t, bool_decide (t !! i = Some d)) (die_tapes n 0 2)).

(** A random engine that reads its draws from a tape, and so stands for
    any run of the dice. *)
#[export] Instance tape_engine : RandomEngine (list Z) := {|
  NormalizeState t := t;
  SampleUniformInt lo hi t :=
    match t with
    | d :: t' => (lo + (d - lo) mod (hi - lo), t')
    | [] => (lo, [])
    end;
  ForkRandomState t := (t, t)
|}.

Section Chances.
Context {C : Collaborators (list Z)}.

(** The outcomes of [CrossOver] on parents of [n] expressions, one
    for each tape of the [n] dice it throws. *)
Definition crossover_outcomes (w : World) (state1 state2 : SearchState)
    (n : nat) : list (outcome (SearchState * World)) :=
  (λ t, CrossOver state1 state2 (set_rand_seed t w)) <$> die_tapes n 0 2.

(** In how many of them position [i] comes from [parent]. *)
Definition chances_of (w : World) (state1 state2 parent : SearchState)
    (n i : nat) : nat :=
  length (List.filter (takes_from w parent i)
            (crossover_outcomes w state1 state2 n)).
End Chances.

(** ** A linear congruential engine and small collaborators *)

(** Modelled from the spec: a deterministic linear congruential engine;
    forking draws one value from the state to seed the new one. *)
Definition lcg_next (s : Z) : Z := (s * 48271) mod 2147483647.

#[export] Instance lcg_engine : RandomEngine Z := {|
  NormalizeState s :=
    let s' := s mod 2147483647 in if s' =? 0 then 1 else s';
  SampleUniformInt lo hi s :=
    let s' := lcg_next s in (lo + s' mod (hi - lo), s');
  ForkRandomState s := let s' := lcg_next s in (s', s')
|}.

(** Sketches of one expression each, numbered by the search space. *)
Fixpoint demo_sketches {StateType} (seed0 : StateType) (n : nat) (sp : Z)
    (m : Memory StateType Z) : list SearchState * Z * Memory StateType Z :=
  match n with
  | O => ([], sp, m)
  | Datatypes.S n' =>
      let e := fresh (dom (ir_heap m)) in
      let s := fresh (dom (state_heap m)) in
      let m' := MkMemory (<[e := sp]> (ir_heap m))
                  (<[s := MkSearchState (MkIRSchedule [e] seed0) NOT_INIT]>
                     (state_heap m)) in
      let '(l, sp', m'') := demo_sketches seed0 n' (sp + 1) m' in
      (s :: l, sp', m'')
  end.

(** Collaborators for examples: IR nodes are integers, the database is
    the list of its records, a trace says whether it replays, and the
    mutation leaves a state as it is. *)
Definition demo_collaborators {StateType} (seed0 : StateType)
  : Collaborators StateType := {|
  IrNode := Z;
  TuneTask := unit;
  ExprCostModel := unit;
  Database := list (TuningRecord bool);
  SearchSpace := Z;
  Proto := bool;
  TaskKey := unit;
  serialized_key _ := ();
  registry_module_expr _ := [1%positive];
  GetTopK db _ k := take (Z.to_nat k) db;
  ReplayWithProto p sch m := if p then Ok (sch, m) else CheckFailed;
  NewSearchSpace _ _ := 0;
  GenerateSketches num _ sp m := demo_sketches seed0 (Z.to_nat num) sp m;
  GetScheduleMutate s _ sp m := (s, sp, m)
|}.

(** A heap with the seed module of the task (one expression) and two
    states of one expression each. *)
Definition demo_mem {StateType} (seed0 : StateType) : Memory StateType Z :=
  MkMemory (list_to_map [(1%positive, 7); (2%positive, 10); (3%positive, 20)])
    (list_to_map
       [(1%positive, MkSearchState (MkIRSchedule [2%positive] seed0) NOT_INIT);
        (2%positive,
          MkSearchState (MkIRSchedule [3%positive] seed0) NOT_INIT)]).

Definition demo_world {StateType} {RE : RandomEngine StateType}
    (seed0 : StateType) (db : list (TuningRecord bool))
  : @World StateType (demo_collaborators seed0) :=
  MkWorld (new_EvolutionarySearch (C := demo_collaborators seed0) () () db seed0)
    (demo_mem seed0).

Definition float_half : float32 := S754_finite false 8388608 (-24).

Definition demo_options : TuningOptions :=
  MkTuningOptions 2 0 3 1 float_half.

(** The examples run on the heap [demo_mem]: state [1] holds the
    expression [2] (content [10]), state [2] the expression [3]
    (content [20]). *)
Abbreviation DC := (demo_collaborators 42).
Abbreviation TC := (demo_collaborators ([] : list Z)).

Definition lcg_world : @World Z DC := demo_world (RE := lcg_engine) 42 [].
Definition tape_world : @World (list Z) TC :=
  demo_world (RE := tape_engine) [] [].

Definition demo_father : SearchState := 1%positive.
Definition demo_mother : SearchState := 2%positive.

Definition bad_record : TuningRecord bool := MkTuningRecord false float_half.
Definition good_record : TuningRecord bool := MkTuningRecord true float_half.

(** The [float] nearest to [0.7], which is [11744051 / 2^24], a little
    less than [0.7]. *)
Definition float_0_7 : float32 := S754_finite false 11744051 (-24).

(** Collaborators that rewrite a state in place.  The search space
    counts the calls for random sketches.  The first call gives the
    state [demo_father] as it is.  A later call rewrites the expression
    of that state (node [2], whose content [10] becomes [11]) and gives
    a new state, whose one expression has the content [10]. *)
Definition rewriting_sketches (strategy : string) (sp : Z)
    (m : Memory Z Z) : list SearchState * Z * Memory Z Z :=
  if decide (strategy = "random_prune") then
    if sp =? 0 then ([1%positive], 1, m)
    else
      let m1 := MkMemory (<[2%positive := 11]> (ir_heap m)) (state_heap m) in
      let e := fresh (dom (ir_heap m1)) in
      let s := fresh (dom (state_heap m1)) in
      ([s], sp + 1,
       MkMemory (<[e := 10]> (ir_heap m1))
         (<[s := MkSearchState (MkIRSchedule [e] 42) NOT_INIT]>
            (state_heap m1)))
  else ([], sp, m).

Definition rewriting_collaborators : Collaborators Z := {|
  IrNode := Z;
  TuneTask := unit;
  ExprCostModel := unit;
  Database := list (TuningRecord bool);
  SearchSpace := Z;
  Proto := bool;
  TaskKey := unit;
  serialized_key _ := ();
  registry_module_expr _ := [1%positive];
  GetTopK db _ k := take (Z.to_nat k) db;
  ReplayWithProto p sch m := if p then Ok (sch, m) else CheckFailed;
  NewSearchSpace _ _ := 0;
  GenerateSketches _ strategy sp m := rewriting_sketches strategy sp m;
  GetScheduleMutate s _ sp m := (s, sp, m)
|}.

Definition rewriting_world : @World Z rewriting_collaborators :=
  MkWorld (new_EvolutionarySearch (RE := lcg_engine)
             (C := rewriting_collaborators) () () [] 42)
    (demo_mem 42).

(** The fraction [2.0], which is not in [[0, 1]]. *)
Definition float_two : float32 := S754_finite false 8388608 (-22).

(** ** Helpers of the reduce-split pass

    [DivideToClosetNum] and [NextPowerOf2], the two arithmetic helpers
    of [ReduceSplitPass]. *)

(** [uint32_t] arithmetic wraps around. *)
Definition to_uint32 (z : Z) : Z := z mod 2 ^ 32.

(** [n |= n >> k;] *)
Definition or_shift (k n : Z) : Z := Z.lor n (Z.shiftr n k).

(** [NextPowerOf2]: the last statement is [return n++;], which gives
    the value [n] has before it is incremented. *)
Definition NextPowerOf2 (n : Z) : Z :=
  let n := to_uint32 (n - 1) in
  let n := or_shift 1 n in
  let n := or_shift 2 n in
  let n := or_shift 4 n in
  let n := or_shift 8 n in
  let n := or_shift 16 n in
  n.

(** The loop [while (a * b != n)] of [DivideToClosetNum].  A product or
    an increment that an [int] does not hold, and a division by zero,
    have no defined behaviour; [/] on [int] truncates. *)
Fixpoint divide_loop (fuel : nat) (n a b : Z) : outcome (Z * Z) :=
  if negb (in_int_range (a * b)) then Undefined
  else if a * b =? n then Ok (a, b)
  else
    match fuel with
    | O => OutOfFuel
    | Datatypes.S fuel' =>
        let a' := if a * b <? n then a + 1 else a - 1 in
        if negb (in_int_range a') || (a' =? 0) then Undefined
        else divide_loop fuel' n a' (Z.quot n a')
    end.

(** [int a = sqrt(n);] converts [n] to [double], takes the correctly
    rounded square root and truncates it.  An [int] is exact in a
    [double], and the square root of an integer below [2^31] that is
    not itself an integer is further from the next integer than the
    rounding error of a [double], so [a] is the integer square root of
    [n]; of a negative [n] the root is NaN, which has no [int] value. *)
Definition DivideToClosetNum (fuel : nat) (n : Z) : outcome (Z * Z) :=
  if n <? 0 then Undefined
  else
    let a := Z.sqrt n in
    if a =? 0 then Undefined
    else divide_loop fuel n a (Z.quot n a).

(** * Properties *)

(** ** Single precision products

    The product [num * eps_greedy], for a budget that a float holds
    exactly and a fraction between zero and one. *)

Section Float32Facts.

Lemma digits2_pos_size p : digits2_pos p = Pos.size p.
Proof. induction p; simpl; congruence. Qed.

Lemma digits2_pos_bounds p :
  2 ^ (Z.pos (digits2_pos p) - 1) <= Z.pos p ∧ Z.pos p < 2 ^ Z.pos (digits2_pos p).
Proof.
  rewrite digits2_pos_size.
  pose proof (Pos.size_gt p) as Hgt. pose proof (Pos.size_le p) as Hle.
  apply Pos2Z.pos_lt_pos in Hgt. apply Pos2Z.pos_le_pos in Hle.
  rewrite Pos2Z.inj_pow in Hgt, Hle. rewrite Pos2Z.inj_xO in Hle.
  assert (E : 2 ^ Z.pos (Pos.size p) = 2 * 2 ^ (Z.pos (Pos.size p) - 1)).
  { rewrite <- Z.pow_succ_r by lia. f_equal. lia. }
  change ((2 * 1) ^ Z.pos (Pos.size p)) with (2 ^ Z.pos (Pos.size p)) in Hle.
  lia.
Qed.

Lemma shr_1_spec mrs :
  0 ≤ shr_m mrs →
  shr_m (shr_1 mrs) = shr_m mrs / 2
  ∧ (shr_r (shr_1 mrs) || shr_s (shr_1 mrs)
     = Z.odd (shr_m mrs) || (shr_r mrs || shr_s mrs)).
Proof.
  destruct mrs as [m r s]; simpl. intros Hm. rewrite <- Z.div2_div.
  destruct m as [|[p|p|]|p]; try lia; simpl; split; try reflexivity;
    destruct r, s; reflexivity.
Qed.

Lemma iter_pos_nat {A} (f : A → A) p :
  ∀ x, SpecFloat.iter_pos f p x = Nat.iter (Pos.to_nat p) f x.
Proof.
  induction p as [p IH|p IH|]; intros x.
  - change (SpecFloat.iter_pos f p~1 x)
      with (SpecFloat.iter_pos f p (SpecFloat.iter_pos f p (f x))).
    rewrite !IH, Pos2Nat.inj_xI.
    replace (S (2 * Pos.to_nat p)) with (Pos.to_nat p + S (Pos.to_nat p))%nat
      by lia.
    rewrite Nat.iter_add, Nat.iter_succ_r. reflexivity.
  - change (SpecFloat.iter_pos f p~0 x)
      with (SpecFloat.iter_pos f p (SpecFloat.iter_pos f p x)).
    rewrite !IH, Pos2Nat.inj_xO.
    replace (2 * Pos.to_nat p)%nat with (Pos.to_nat p + Pos.to_nat p)%nat
      by lia.
    rewrite Nat.iter_add. reflexivity.
  - reflexivity.
Qed.

(** Shifting a mantissa right by [n] bits divides it, and remembers
    whether bits were lost. *)
Lemma shr_iter_spec n m :
  0 ≤ m →
  let mrs := Nat.iter n shr_1 (Build_shr_record m false false) in
  shr_m mrs = m / 2 ^ Z.of_nat n
  ∧ (shr_r mrs || shr_s mrs = true → m mod 2 ^ Z.of_nat n ≠ 0).
Proof.
  intros Hm. induction n as [|n IH].
  - simpl. rewrite Z.div_1_r. split; [reflexivity | discriminate].
  - cbn zeta in *. rewrite Nat.iter_succ.
    destruct IH as [IHm IHl].
    set (mrs := Nat.iter n shr_1 _) in *.
    assert (Hpos : 0 ≤ shr_m mrs) by (rewrite IHm; apply Z.div_pos; lia).
    destruct (shr_1_spec mrs Hpos) as [E1 E2].
    rewrite E1, E2, IHm, Nat2Z.inj_succ, Z.pow_succ_r by lia.
    split.
    + rewrite Z.div_div by lia. rewrite (Z.mul_comm 2). reflexivity.
    + intros Hl Hz. apply orb_true_iff in Hl as [Hodd | Hl].
      * apply Z.mod_divide in Hz; [|lia]. destruct Hz as [q Hq].
        rewrite Hq in Hodd.
        replace (q * (2 * 2 ^ Z.of_nat n)) with ((2 * q) * 2 ^ Z.of_nat n) in Hodd by ring.
        rewrite Z.div_mul in Hodd by lia.
        rewrite Z.odd_mul in Hodd. discriminate.
      * apply IHl in Hl. apply Hl.
        apply Z.mod_divide in Hz; [|lia]. destruct Hz as [q Hq].
        apply Z.mod_divide; [lia|]. exists (2 * q). lia.
Qed.

Lemma shr_fexp_exact m e :
  0 ≤ m →
  ∃ mrs k,
    shr_fexp prec32 emax32 m e loc_Exact = (mrs, e + k)
    ∧ 0 ≤ k
    ∧ e + k = Z.max e (fexp prec32 emax32 (Zdigits2 m + e))
    ∧ shr_m mrs = m / 2 ^ k
    ∧ (shr_r mrs || shr_s mrs = true → m mod 2 ^ k ≠ 0).
Proof.
  intros Hm. unfold shr_fexp, shr. simpl shr_record_of_loc.
  destruct (fexp prec32 emax32 (Zdigits2 m + e) - e) as [|p|p] eqn:Ek.
  - exists (Build_shr_record m false false), 0. simpl.
    rewrite Z.add_0_r, Z.div_1_r.
    split_and!; try reflexivity; try lia; try discriminate.
  - exists (SpecFloat.iter_pos shr_1 p (Build_shr_record m false false)), (Z.pos p).
    rewrite iter_pos_nat.
    destruct (shr_iter_spec (Pos.to_nat p) m Hm) as [E1 E2].
    rewrite positive_nat_Z in E1, E2.
    split_and!; try reflexivity; try lia; assumption.
  - exists (Build_shr_record m false false), 0. simpl.
    rewrite Z.add_0_r, Z.div_1_r.
    split_and!; try reflexivity; try lia; try discriminate.
Qed.

Lemma round_nearest_even_bound mrs :
  let m := round_nearest_even (shr_m mrs) (loc_of_shr_record mrs) in
  shr_m mrs ≤ m ∧ m ≤ shr_m mrs + 1
  ∧ (shr_r mrs || shr_s mrs = false → m = shr_m mrs).
Proof.
  destruct mrs as [m r s]. destruct r, s; simpl;
    try destruct (Z.even m); split_and!; try lia; try discriminate; auto.
Qed.

(** A mantissa whose value [m * 2^e] is below [2^24] is rounded at an
    exponent that is not positive. *)
Lemma fexp_small m e n :
  0 ≤ m → e ≤ 0 → n < 2 ^ 24 → m ≤ n * 2 ^ (- e) →
  fexp prec32 emax32 (Zdigits2 m + e) ≤ 0.
Proof.
  intros Hm He Hn Hle. unfold fexp, emin, prec32, emax32.
  destruct m as [|p|p]; simpl Zdigits2; try lia.
  destruct (digits2_pos_bounds p) as [Hd _].
  assert (Hlt : 2 ^ (Z.pos (digits2_pos p) - 1) < 2 ^ (24 - e)).
  { eapply Z.le_lt_trans; [exact Hd|]. eapply Z.le_lt_trans; [exact Hle|].
    replace (24 - e) with (24 + - e) by lia.
    rewrite Z.pow_add_r by lia.
    pose proof (Z.pow_pos_nonneg 2 (- e) ltac:(lia) ltac:(lia)). nia. }
  apply Z.pow_lt_mono_r_iff in Hlt; lia.
Qed.

Lemma shr_fexp_below n m e :
  0 ≤ n → n < 2 ^ 24 → below n m e →
  ∃ mrs e',
    shr_fexp prec32 emax32 m e loc_Exact = (mrs, e')
    ∧ below n (shr_m mrs) e'
    ∧ below n (round_nearest_even (shr_m mrs) (loc_of_shr_record mrs)) e'.
Proof.
  intros Hn0 Hn (Hm & He & Hle).
  destruct (shr_fexp_exact m e Hm) as (mrs & k & E & Hk & Ee & Em & Ex).
  pose proof (fexp_small m e n Hm He Hn Hle) as Hf.
  exists mrs, (e + k). split; [exact E|].
  assert (He' : e + k ≤ 0) by lia.
  pose proof (Z.pow_pos_nonneg 2 k ltac:(lia) Hk) as Hpk.
  pose proof (Z.pow_pos_nonneg 2 (- (e + k)) ltac:(lia) ltac:(lia)) as Hpe.
  assert (Hpow : 2 ^ (- e) = 2 ^ (- (e + k)) * 2 ^ k).
  { rewrite <- Z.pow_add_r by lia. f_equal. lia. }
  rewrite Hpow in Hle.
  assert (Hdiv : m / 2 ^ k ≤ n * 2 ^ (- (e + k))).
  { apply Z.div_le_upper_bound; [lia|]. lia. }
  assert (H0 : 0 ≤ m / 2 ^ k) by (apply Z.div_pos; lia).
  destruct (round_nearest_even_bound mrs) as (R1 & R2 & R3).
  rewrite Em in *.
  split; [split_and!; assumption|].
  split_and!; try lia.
  destruct (shr_r mrs || shr_s mrs) eqn:Hin.
  - specialize (Ex eq_refl).
    assert (m / 2 ^ k < n * 2 ^ (- (e + k))); [|lia].
    apply Z.div_lt_upper_bound; [lia|].
    destruct (Z.eq_dec m (2 ^ k * (n * 2 ^ (- (e + k))))) as [Heq|]; [|lia].
    exfalso. apply Ex. rewrite Heq, Z.mul_comm. apply Z.mod_mul. lia.
  - rewrite (R3 eq_refl). exact Hdiv.
Qed.

Lemma in_int_range_small z : 0 ≤ z → z < 2 ^ 24 → in_int_range z = true.
Proof.
  intros H0 H1. unfold in_int_range. apply andb_true_iff.
  assert (2 ^ 24 < 2 ^ 31) by (apply Z.pow_lt_mono_r; lia).
  assert (0 < 2 ^ 31) by (apply Z.pow_pos_nonneg; lia).
  split; [apply Z.leb_le | apply Z.ltb_lt]; lia.
Qed.

(** The product of a float of value [n] by a float below one, rounded,
    converts to an integer between [0] and [n], which is also its
    floor. *)
Lemma binary_round_aux_below n m e :
  0 ≤ n → n < 2 ^ 24 → below n m e →
  ∃ r, float_to_int (binary_round_aux prec32 emax32 false m e loc_Exact)
         = Some r
       ∧ float_floor (binary_round_aux prec32 emax32 false m e loc_Exact)
         = Some r
       ∧ 0 ≤ r ∧ r ≤ n.
Proof.
  intros Hn0 Hn Hb. unfold binary_round_aux.
  destruct (shr_fexp_below n m e Hn0 Hn Hb) as (mrs & e' & -> & _ & Hb').
  destruct (shr_fexp_below n _ e' Hn0 Hn Hb') as (mrs' & e'' & -> & Hb'' & _).
  destruct Hb'' as (Hm & He & Hle).
  destruct (shr_m mrs') as [|p|p]; [| |lia].
  - exists 0. simpl. auto with zarith.
  - replace (e'' <=? emax32 - prec32) with true
      by (symmetry; apply Z.leb_le; unfold emax32, prec32; lia).
    unfold float_to_int, float_floor.
    pose proof (Z.pow_pos_nonneg 2 (- e'') ltac:(lia) ltac:(lia)) as Hp.
    destruct (0 <=? e'') eqn:E0.
    + apply Z.leb_le in E0. assert (e'' = 0) as -> by lia.
      exists (Z.pos p * 2 ^ 0). simpl in Hle |- *.
      rewrite in_int_range_small by lia. split_and!; auto; lia.
    + assert (H0 : 0 ≤ Z.pos p / 2 ^ (- e'')) by (apply Z.div_pos; lia).
      assert (H1 : Z.pos p / 2 ^ (- e'') ≤ n)
        by (apply Z.div_le_upper_bound; lia).
      exists (Z.pos p / 2 ^ (- e'')).
      rewrite in_int_range_small by lia. split_and!; auto.
Qed.

Lemma binary_round_aux_canonical s (m : positive) e :
  fexp prec32 emax32 (Z.pos (digits2_pos m) + e) ≤ e → e ≤ 104 →
  binary_round_aux prec32 emax32 s (Z.pos m) e loc_Exact = S754_finite s m e.
Proof.
  intros Hf He.
  assert (Hs : shr_fexp prec32 emax32 (Z.pos m) e loc_Exact
               = (Build_shr_record (Z.pos m) false false, e)).
  { unfold shr_fexp, shr. simpl Zdigits2.
    destruct (fexp prec32 emax32 (Z.pos (digits2_pos m) + e) - e) eqn:E;
      try reflexivity. lia. }
  unfold binary_round_aux. rewrite Hs. simpl. rewrite Hs. simpl.
  replace (e <=? emax32 - prec32) with true; [reflexivity|].
  symmetry. apply Z.leb_le. unfold emax32, prec32. lia.
Qed.

Lemma iter_xO_value p s : Z.pos (Pos.iter xO p s) = Z.pos p * 2 ^ Z.pos s.
Proof.
  induction s as [|s IH] using Pos.peano_ind.
  - simpl. lia.
  - rewrite Pos.iter_succ, Pos2Z.inj_xO, IH, Pos2Z.inj_succ.
    rewrite Z.pow_succ_r by lia. ring.
Qed.

Lemma iter_xO_digits p s :
  digits2_pos (Pos.iter xO p s) = (digits2_pos p + s)%positive.
Proof.
  induction s as [|s IH] using Pos.peano_ind.
  - simpl. lia.
  - rewrite Pos.iter_succ. simpl. rewrite IH. lia.
Qed.

(** An integer below [2^24] is a float. *)
Lemma int_to_float_exact n :
  0 < n → n < 2 ^ 24 →
  ∃ m e, int_to_float n = S754_finite false m e
         ∧ e ≤ 0 ∧ Z.pos m = n * 2 ^ (- e).
Proof.
  intros Hn0 Hn. destruct n as [|p|p]; try lia.
  unfold int_to_float, binary_normalize, binary_round.
  destruct (digits2_pos_bounds p) as [Hd _].
  assert (Hd24 : Z.pos (digits2_pos p) ≤ 24).
  { assert (2 ^ (Z.pos (digits2_pos p) - 1) < 2 ^ 24) as Hlt by lia.
    apply Z.pow_lt_mono_r_iff in Hlt; lia. }
  assert (Hf : fexp prec32 emax32 (Z.pos (digits2_pos p) + 0)
               = Z.pos (digits2_pos p) - 24).
  { unfold fexp, emin, prec32, emax32. lia. }
  rewrite Hf. unfold shl_align.
  destruct (Z.pos (digits2_pos p) - 24 - 0) as [|s|s] eqn:Es; try lia.
  - exists p, 0. rewrite binary_round_aux_canonical.
    + split_and!; [reflexivity | lia | simpl; lia].
    + unfold fexp, emin, prec32, emax32. lia.
    + lia.
  - exists (Pos.iter xO p s), (Z.pos (digits2_pos p) - 24).
    rewrite binary_round_aux_canonical.
    + split_and!; [reflexivity | lia |].
      rewrite iter_xO_value. do 2 f_equal. lia.
    + rewrite iter_xO_digits. unfold fexp, emin, prec32, emax32. lia.
    + lia.
Qed.

(** A valid float between zero and one is a zero or a mantissa at an
    exponent that makes it at most one. *)
Lemma float_unit_interval x :
  valid_binary prec32 emax32 x = true →
  float_nonneg x = true → float_le_one x = true →
  (∃ s, x = S754_zero s)
  ∨ (∃ m e, x = S754_finite false m e ∧ e ≤ 0 ∧ Z.pos m ≤ 2 ^ (- e)).
Proof.
  intros Hv Hn Hl. destruct x as [s|s| |s m e].
  - left. eauto.
  - destruct s; discriminate.
  - discriminate.
  - right. destruct s; [discriminate|]. exists m, e. split; [reflexivity|].
    unfold valid_binary, bounded, canonical_mantissa in Hv.
    apply andb_true_iff in Hv as [Hc _]. apply Z.eqb_eq in Hc.
    unfold fexp, emin, prec32, emax32 in Hc.
    destruct (digits2_pos_bounds m) as [_ Hd].
    assert (Hd24 : Z.pos (digits2_pos m) ≤ 24) by lia.
    assert (Hm : Z.pos m < 2 ^ 24).
    { eapply Z.lt_le_trans; [exact Hd|]. apply Z.pow_le_mono_r; lia. }
    unfold float_le_one, float_one, SFleb, SFcompare in Hl.
    destruct (e ?= -23) eqn:Ec.
    + apply Z.compare_eq in Ec. subst e. split; [lia|].
      destruct (Pos.compare_cont Eq m 8388608) eqn:Em; try discriminate.
      * apply Pos.compare_eq in Em. subst m. simpl. lia.
      * assert (Hlt : (m < 8388608)%positive) by exact Em.
        change (2 ^ (- (-23))) with 8388608. clear -Hlt. lia.
    + assert (Hlt : e < -23) by exact Ec. split; [lia|].
      apply Z.lt_le_incl. eapply Z.lt_le_trans; [exact Hm|].
      apply Z.pow_le_mono_r; lia.
    + discriminate.
Qed.

(** The number of random slots is the floor of the product, and is
    between zero and [num]. *)
Lemma num_rands_spec n eps :
  0 ≤ n → n < 2 ^ 24 →
  valid_binary prec32 emax32 eps = true →
  float_nonneg eps = true → float_le_one eps = true →
  ∃ r, num_rands n eps = Some r
       ∧ float_floor (fmul32 (int_to_float n) eps) = Some r
       ∧ 0 ≤ r ∧ r ≤ n.
Proof.
  intros Hn0 Hn Hv Hp Hl. unfold num_rands.
  destruct (float_unit_interval eps Hv Hp Hl)
    as [[s ->] | (my & ey & -> & Hey & Hmy)].
  - exists 0. destruct (Z.eq_dec n 0) as [-> | Hne].
    + simpl. auto with zarith.
    + destruct (int_to_float_exact n ltac:(lia) Hn) as (mx & ex & -> & _).
      simpl. auto with zarith.
  - destruct (Z.eq_dec n 0) as [-> | Hne].
    + exists 0. simpl. auto with zarith.
    + destruct (int_to_float_exact n ltac:(lia) Hn)
        as (mx & ex & -> & Hex & Hmx).
      unfold fmul32, SFmul. simpl xorb.
      apply binary_round_aux_below; try assumption.
      split_and!; try lia.
      rewrite Pos2Z.inj_mul, Hmx.
      replace (- (ex + ey)) with (- ex + - ey) by lia.
      rewrite Z.pow_add_r by lia.
      pose proof (Z.pow_pos_nonneg 2 (- ex) ltac:(lia) ltac:(lia)).
      nia.
Qed.

(** The product of a float of value [n] by a float below one, rounded
    and converted to an integer, is the floor of the product without
    rounding, or one more: the rounding may go up to the next
    integer. *)
Lemma binary_round_aux_floor n m e :
  0 ≤ n → n < 2 ^ 24 → below n m e →
  ∃ r, float_to_int (binary_round_aux prec32 emax32 false m e loc_Exact)
         = Some r
       ∧ m / 2 ^ (- e) ≤ r ≤ m / 2 ^ (- e) + 1.
Proof.
  intros Hn0 Hn Hb. pose proof Hb as (Hm & He & Hle).
  destruct (shr_fexp_exact m e Hm) as (mrs & k & E & Hk & _ & Em & _).
  destruct (shr_fexp_below n m e Hn0 Hn Hb) as (mrs0 & e0 & E0 & _ & Hb1).
  rewrite E in E0. injection E0 as <- <-.
  destruct (round_nearest_even_bound mrs) as (R1 & R2 & _).
  set (m1 := round_nearest_even (shr_m mrs) (loc_of_shr_record mrs)) in *.
  pose proof Hb1 as (Hm1 & He1 & Hle1).
  destruct (shr_fexp_exact m1 (e + k) Hm1) as (mrs2 & k2 & E2 & Hk2 & _ & Em2 & _).
  destruct (shr_fexp_below n m1 (e + k) Hn0 Hn Hb1) as (mrs3 & e3 & E3 & Hb2 & _).
  rewrite E2 in E3. injection E3 as <- <-.
  destruct Hb2 as (Hm2 & He2 & Hle2).
  set (D := 2 ^ (- (e + k))) in *.
  set (D2 := 2 ^ (- (e + k + k2))) in *.
  assert (HD : 0 < D) by (apply Z.pow_pos_nonneg; lia).
  assert (HD2 : 0 < D2) by (apply Z.pow_pos_nonneg; lia).
  assert (Hpk : 0 < 2 ^ k) by (apply Z.pow_pos_nonneg; lia).
  assert (Hpk2 : 0 < 2 ^ k2) by (apply Z.pow_pos_nonneg; lia).
  assert (HDk : 2 ^ (- e) = 2 ^ k * D).
  { unfold D. rewrite <- Z.pow_add_r by lia. f_equal. lia. }
  assert (HDk2 : D = 2 ^ k2 * D2).
  { unfold D, D2. rewrite <- Z.pow_add_r by lia. f_equal. lia. }
  assert (Hfloor : m / 2 ^ (- e) = shr_m mrs / D).
  { rewrite HDk, Em, Z.div_div by lia. reflexivity. }
  assert (Hr : shr_m mrs2 / D2 = m1 / D).
  { rewrite HDk2, Em2, Z.div_div by lia. reflexivity. }
  assert (Hlo : shr_m mrs / D ≤ m1 / D) by (apply Z.div_le_mono; lia).
  assert (Hhi : m1 / D ≤ shr_m mrs / D + 1).
  { rewrite <- (Z.div_add _ 1 D) by lia. apply Z.div_le_mono; lia. }
  assert (Hrn : shr_m mrs2 / D2 ≤ n) by (apply Z.div_le_upper_bound; lia).
  assert (Hr0 : 0 ≤ shr_m mrs2 / D2) by (apply Z.div_pos; lia).
  exists (shr_m mrs2 / D2). split; [|lia].
  unfold binary_round_aux. rewrite E. fold m1. rewrite E2.
  destruct (shr_m mrs2) as [|p|p] eqn:Ep; [| |lia].
  - rewrite Z.div_0_l by lia. reflexivity.
  - replace (e + k + k2 <=? emax32 - prec32) with true
      by (symmetry; apply Z.leb_le; unfold emax32, prec32; lia).
    unfold float_to_int.
    destruct (0 <=? e + k + k2) eqn:E0.
    + apply Z.leb_le in E0. assert (Hz : e + k + k2 = 0) by lia.
      unfold D2 in *. rewrite Hz in *. simpl in Hrn, Hr0 |- *.
      rewrite Z.div_1_r in *. rewrite Z.mul_1_r.
      rewrite in_int_range_small by lia. reflexivity.
    + fold D2. rewrite in_int_range_small by lia. reflexivity.
Qed.

(** The number of random slots against the product without rounding. *)
Lemma num_rands_floor n eps :
  0 ≤ n → n < 2 ^ 24 →
  valid_binary prec32 emax32 eps = true →
  float_nonneg eps = true → float_le_one eps = true →
  ∃ r fl, num_rands n eps = Some r ∧ exact_floor n eps = Some fl
          ∧ fl ≤ r ≤ fl + 1.
Proof.
  intros Hn0 Hn Hv Hp Hl. unfold num_rands.
  destruct (float_unit_interval eps Hv Hp Hl)
    as [[s ->] | (my & ey & -> & Hey & Hmy)].
  - exists 0, 0. destruct (Z.eq_dec n 0) as [-> | Hne].
    + simpl. auto with zarith.
    + destruct (int_to_float_exact n ltac:(lia) Hn) as (mx & ex & -> & _).
      simpl. auto with zarith.
  - assert (Hfl : exact_floor n (S754_finite false my ey)
                  = Some (n * Z.pos my / 2 ^ (- ey))).
    { unfold exact_floor. destruct (0 <=? ey) eqn:E0; [|reflexivity].
      apply Z.leb_le in E0. assert (ey = 0) as -> by lia.
      simpl. rewrite Z.div_1_r, Z.mul_1_r. reflexivity. }
    destruct (Z.eq_dec n 0) as [-> | Hne].
    + exists 0, 0. rewrite Hfl. simpl.
      pose proof (Z.pow_pos_nonneg 2 (- ey) ltac:(lia) ltac:(lia)).
      rewrite Z.div_0_l by lia. auto with zarith.
    + destruct (int_to_float_exact n ltac:(lia) Hn)
        as (mx & ex & -> & Hex & Hmx).
      unfold fmul32, SFmul. simpl xorb.
      pose proof (Z.pow_pos_nonneg 2 (- ex) ltac:(lia) ltac:(lia)) as Hpx.
      pose proof (Z.pow_pos_nonneg 2 (- ey) ltac:(lia) ltac:(lia)) as Hpy.
      destruct (binary_round_aux_floor n (Z.pos (mx * my)) (ex + ey) Hn0 Hn)
        as (r & Er & Hr).
      { split_and!; try lia.
        rewrite Pos2Z.inj_mul, Hmx.
        replace (- (ex + ey)) with (- ex + - ey) by lia.
        rewrite Z.pow_add_r by lia. nia. }
      exists r, (n * Z.pos my / 2 ^ (- ey)).
      split; [exact Er|]. split; [exact Hfl|].
      replace (Z.pos (mx * my) / 2 ^ (- (ex + ey)))
        with (n * Z.pos my / 2 ^ (- ey)) in Hr; [exact Hr|].
      rewrite Pos2Z.inj_mul, Hmx.
      replace (- (ex + ey)) with (- ex + - ey) by lia.
      rewrite Z.pow_add_r by lia.
      replace (n * 2 ^ (- ex) * Z.pos my) with (2 ^ (- ex) * (n * Z.pos my))
        by ring.
      rewrite Z.div_mul_cancel_l by lia. reflexivity.
Qed.
End Float32Facts.

(** ** Loops with fuel *)

Section WhileLoop.
Context {S : Type} (step : S → option S).

Lemma while_loop_exit fuel st :
  step st = None → while_loop step fuel st = Ok st.
Proof. intros E. destruct fuel; simpl; rewrite E; reflexivity. Qed.

Lemma while_loop_iterate fuel st st' :
  step st = Some st' →
  while_loop step (Datatypes.S fuel) st = while_loop step fuel st'.
Proof. intros E. simpl. rewrite E. reflexivity. Qed.

(** A loop whose state never leaves a set on which the body runs
    again uses up any fuel. *)
Lemma while_loop_stuck (P : S → Prop) :
  (∀ st, P st → ∃ st', step st = Some st' ∧ P st') →
  ∀ fuel st, P st → while_loop step fuel st = OutOfFuel.
Proof.
  intros Hstep fuel. induction fuel as [|fuel IH]; intros st HP;
    destruct (Hstep st HP) as (st' & E & HP'); simpl; rewrite E; auto.
Qed.

End WhileLoop.

(** ** The epsilon-greedy pick *)

Section PickFacts.
Context {State K : Type} `{Countable K}.
Variable fingerprint : State → K.
Variables picked_bests random_init : list State.
Variable num num_bests : Z.

Local Abbreviation N := (Z.to_nat (to_size_t num)).
Local Abbreviation NB := (Z.to_nat (to_size_t num_bests)).
Local Abbreviation step :=
  (pick_step fingerprint picked_bests random_init num num_bests).
Local Abbreviation run :=
  (pick_run fingerprint picked_bests random_init num num_bests).
Local Abbreviation take_from := (dedup_take fingerprint).

Lemma size_lt_int_spec (a : nat) (b : Z) :
  size_lt_int a b = true ↔ (a < Z.to_nat (to_size_t b))%nat.
Proof.
  unfold size_lt_int, to_size_t. rewrite Z.ltb_lt.
  pose proof (Z.mod_pos_bound b (2 ^ 64) ltac:(lia)). lia.
Qed.

Lemma size_lt_int_false (a : nat) (b : Z) :
  size_lt_int a b = false ↔ (Z.to_nat (to_size_t b) ≤ a)%nat.
Proof.
  unfold size_lt_int, to_size_t. rewrite Z.ltb_ge.
  pose proof (Z.mod_pos_bound b (2 ^ 64) ltac:(lia)). lia.
Qed.

Lemma int_lt_size_spec (i n : nat) :
  int_lt_size (Z.of_nat i) n = true ↔ (i < n)%nat.
Proof. unfold int_lt_size. rewrite Z.ltb_lt. lia. Qed.

Lemma int_lt_size_false (i n : nat) :
  int_lt_size (Z.of_nat i) n = false ↔ (n ≤ i)%nat.
Proof. unfold int_lt_size. rewrite Z.ltb_ge. lia. Qed.

Lemma pick_step_stop r d i j v :
  (N ≤ length r)%nat → step (st_of r d i j v) = None.
Proof.
  intros Hn. unfold pick_step; simpl.
  apply size_lt_int_false in Hn. rewrite Hn. reflexivity.
Qed.

Lemma pick_step_break r d i j v :
  (length picked_bests ≤ i)%nat → (length random_init ≤ j)%nat →
  step (st_of r d i j v) = None.
Proof.
  intros Hi Hj. unfold pick_step, pick_select; simpl.
  apply int_lt_size_false in Hi, Hj. rewrite Hi, Hj, andb_false_r.
  destruct (size_lt_int _ num); reflexivity.
Qed.

Lemma pick_step_best r d i j v x :
  (length r < N)%nat →
  (length r < NB)%nat ∨ (length random_init ≤ j)%nat →
  picked_bests !! i = Some x →
  step (st_of r d i j v) = Some (keep_or_skip fingerprint r d (Datatypes.S i) j v x).
Proof.
  intros Hn Hsel Hx. unfold pick_step, pick_select, keep_or_skip; simpl.
  apply size_lt_int_spec in Hn. rewrite Hn.
  assert (Hi : int_lt_size (Z.of_nat i) (length picked_bests) = true).
  { apply int_lt_size_spec. eapply lookup_lt_Some; eauto. }
  rewrite Hi, Nat2Z.id, Hx, andb_true_r; simpl.
  replace (Z.of_nat i + 1) with (Z.of_nat (Datatypes.S i)) by lia.
  destruct Hsel as [Hb | Hj].
  - apply size_lt_int_spec in Hb. rewrite Hb. simpl.
    unfold st_of. destruct (decide _); reflexivity.
  - apply int_lt_size_false in Hj. rewrite Hj.
    destruct (size_lt_int _ num_bests); simpl;
      unfold st_of; destruct (decide _); reflexivity.
Qed.

Lemma pick_step_rand r d i j v x :
  (length r < N)%nat →
  (NB ≤ length r)%nat ∨ (length picked_bests ≤ i)%nat →
  random_init !! j = Some x →
  step (st_of r d i j v) = Some (keep_or_skip fingerprint r d i (Datatypes.S j) v x).
Proof.
  intros Hn Hsel Hx. unfold pick_step, pick_select, keep_or_skip; simpl.
  apply size_lt_int_spec in Hn. rewrite Hn.
  assert (Hj : int_lt_size (Z.of_nat j) (length random_init) = true).
  { apply int_lt_size_spec. eapply lookup_lt_Some; eauto. }
  assert (Hc : size_lt_int (length r) num_bests
               && int_lt_size (Z.of_nat i) (length picked_bests) = false).
  { destruct Hsel as [Hb | Hi].
    - apply size_lt_int_false in Hb. rewrite Hb. reflexivity.
    - apply int_lt_size_false in Hi. rewrite Hi. apply andb_false_r. }
  rewrite Hc, Hj, Nat2Z.id, Hx; simpl.
  replace (Z.of_nat j + 1) with (Z.of_nat (Datatypes.S j)) by lia.
  unfold st_of. destruct (decide _); reflexivity.
Qed.

Lemma drop_cons_inv {A} (l : list A) i x l' :
  drop i l = x :: l' → l !! i = Some x ∧ drop (Datatypes.S i) l = l'.
Proof.
  intros E. assert (Hx : l !! i = Some x).
  { pose proof (lookup_drop l i 0) as L. rewrite E in L. simpl in L.
    rewrite Nat.add_0_r in L. congruence. }
  split; [exact Hx|]. rewrite (drop_S _ _ _ Hx) in E. congruence.
Qed.

Lemma drop_nil_length {A} (l : list A) i :
  drop i l = [] → (length l ≤ i)%nat.
Proof.
  intros E. pose proof (length_drop l i) as L. rewrite E in L.
  simpl in L. lia.
Qed.

Lemma run_exit fuel st :
  step st = None → run fuel st = Ok (result st, visited st).
Proof. intros E. unfold pick_run. rewrite while_loop_exit; auto. Qed.

Lemma run_iterate fuel st st' :
  step st = Some st' → run (Datatypes.S fuel) st = run fuel st'.
Proof.
  intros E. unfold pick_run. erewrite while_loop_iterate; eauto.
Qed.

Lemma take_from_zero v l : take_from 0 v l = ([], v, l).
Proof. destruct l; reflexivity. Qed.

(** Once [random_init] is used up, the loop fills the free slots from
    what is left of [picked_bests]. *)
Lemma run_bests_left j l :
  (length random_init ≤ j)%nat →
  ∀ i r d v fuel,
    drop i picked_bests = l → (length l ≤ fuel)%nat →
    run fuel (st_of r d i j v) =
    Ok (r ++ (take_from (N - length r) v l).1.1,
        (take_from (N - length r) v l).1.2).
Proof.
  intros Hj. induction l as [|x l IH]; intros i r d v fuel Hl Hfuel.
  - rewrite run_exit by (apply pick_step_break;
                         [eapply drop_nil_length; eauto | exact Hj]).
    simpl. destruct (N - length r)%nat; simpl; rewrite app_nil_r; reflexivity.
  - destruct (le_lt_dec N (length r)) as [Hn | Hn].
    + rewrite run_exit by (apply pick_step_stop; exact Hn).
      replace (N - length r)%nat with 0%nat by lia.
      simpl. rewrite app_nil_r. reflexivity.
    + apply drop_cons_inv in Hl as [Hx Hl].
      destruct fuel as [|fuel]; [simpl in Hfuel; lia|].
      rewrite (run_iterate _ _ _ (pick_step_best r d i j v x Hn (or_intror Hj) Hx)).
      destruct (N - length r)%nat as [|n'] eqn:En; [lia|].
      simpl. unfold keep_or_skip. destruct (decide _) as [Hin | Hin].
      * rewrite (IH _ _ _ _ _ Hl) by (simpl in Hfuel; lia).
        rewrite En. reflexivity.
      * rewrite (IH _ _ _ _ _ Hl) by (simpl in Hfuel; lia).
        rewrite length_app; simpl.
        replace (N - (length r + 1))%nat with n' by lia.
        destruct (take_from n' _ l) as [[k v'] rest]; simpl.
        rewrite <- app_assoc. reflexivity.
Qed.

Lemma take_from_nil n v : take_from n v [] = ([], v, []).
Proof. destruct n; reflexivity. Qed.

(** Once the slots of the bests are full, or [picked_bests] is used
    up, the loop fills the free slots from [random_init], and then
    from what is left of [picked_bests]. *)
Lemma run_randoms_left i l :
  ∀ j r d v fuel,
    (NB ≤ length r)%nat ∨ (length picked_bests ≤ i)%nat →
    drop j random_init = l →
    (length (drop i picked_bests) + length l ≤ fuel)%nat →
    run fuel (st_of r d i j v) =
    let t2 := take_from (N - length r) v l in
    let t3 := take_from (N - length r - length t2.1.1) t2.1.2
                (drop i picked_bests) in
    Ok (r ++ t2.1.1 ++ t3.1.1, t3.1.2).
Proof.
  induction l as [|x l IH]; intros j r d v fuel Hsel Hl Hfuel.
  - rewrite (run_bests_left j (drop i picked_bests))
      by (eauto using drop_nil_length; simpl in Hfuel; lia).
    rewrite take_from_nil; simpl. rewrite Nat.sub_0_r. reflexivity.
  - destruct (le_lt_dec N (length r)) as [Hn | Hn].
    + rewrite run_exit by (apply pick_step_stop; exact Hn).
      replace (N - length r)%nat with 0%nat by lia.
      simpl. rewrite take_from_zero. simpl. rewrite app_nil_r. reflexivity.
    + apply drop_cons_inv in Hl as [Hx Hl].
      destruct fuel as [|fuel]; [simpl in Hfuel; lia|].
      rewrite (run_iterate _ _ _ (pick_step_rand r d i j v x Hn Hsel Hx)).
      destruct (N - length r)%nat as [|n'] eqn:En; [lia|].
      simpl. unfold keep_or_skip. destruct (decide _) as [Hin | Hin].
      * rewrite (IH _ _ _ _ _ Hsel Hl) by (simpl in Hfuel; lia).
        rewrite En. reflexivity.
      * rewrite (IH _ _ _ _ _) ; [ | | exact Hl | simpl in Hfuel; lia].
        2:{ rewrite length_app; simpl. destruct Hsel; [left; lia | right; lia]. }
        rewrite length_app; simpl.
        replace (N - (length r + 1))%nat with n' by lia.
        destruct (take_from n' _ l) as [[k v'] rest]; simpl.
        replace (n' - length k)%nat
          with (Datatypes.S n' - Datatypes.S (length k))%nat by lia.
        rewrite <- app_assoc. reflexivity.
Qed.

(** From any state: first the slots of the bests, then the rest. *)
Lemma run_from l :
  ∀ i j r d v fuel,
    drop i picked_bests = l →
    (length l + length (drop j random_init) ≤ fuel)%nat →
    run fuel (st_of r d i j v) =
    let t1 := take_from (NB `min` N - length r) v l in
    let t2 := take_from (N - length r - length t1.1.1) t1.1.2
                (drop j random_init) in
    let t3 := take_from (N - length r - length t1.1.1 - length t2.1.1)
                t2.1.2 t1.2 in
    Ok (r ++ t1.1.1 ++ t2.1.1 ++ t3.1.1, t3.1.2).
Proof.
  induction l as [|x l IH]; intros i j r d v fuel Hl Hfuel.
  - rewrite (run_randoms_left i (drop j random_init))
      by (eauto using drop_nil_length; rewrite Hl; simpl in *; lia).
    rewrite take_from_nil; simpl. rewrite Nat.sub_0_r, Hl. reflexivity.
  - destruct (le_lt_dec (NB `min` N) (length r)) as [Hq | Hq].
    + replace (NB `min` N - length r)%nat with 0%nat by lia.
      rewrite take_from_zero; simpl. rewrite Nat.sub_0_r.
      destruct (le_lt_dec N (length r)) as [Hn | Hn].
      * rewrite run_exit by (apply pick_step_stop; exact Hn).
        replace (N - length r)%nat with 0%nat by lia.
        rewrite take_from_zero. simpl. rewrite app_nil_r. reflexivity.
      * rewrite (run_randoms_left i (drop j random_init))
          by (eauto; try (left; lia); rewrite Hl; lia).
        simpl. rewrite Hl. reflexivity.
    + apply drop_cons_inv in Hl as [Hx Hl].
      destruct fuel as [|fuel]; [simpl in Hfuel; lia|].
      assert (Hn : (length r < N)%nat) by lia.
      assert (Hb : (length r < NB)%nat) by lia.
      rewrite (run_iterate _ _ _
                 (pick_step_best r d i j v x Hn (or_introl Hb) Hx)).
      destruct (NB `min` N - length r)%nat as [|n'] eqn:En; [lia|].
      simpl. unfold keep_or_skip. destruct (decide _) as [Hin | Hin].
      * rewrite (IH _ _ _ _ _ _ Hl) by (simpl in Hfuel; lia).
        rewrite En. reflexivity.
      * rewrite (IH _ _ _ _ _ _ Hl) by (simpl in Hfuel; lia).
        rewrite length_app; simpl.
        replace (NB `min` N - (length r + 1))%nat with n' by lia.
        destruct (take_from n' _ l) as [[k v'] rest]; simpl.
        replace (N - (length r + 1) - length k)%nat
          with (N - length r - Datatypes.S (length k))%nat by lia.
        rewrite <- app_assoc. reflexivity.
Qed.

(** The loop of the pick fills the slots as [eps_greedy_slots] says. *)
Lemma run_slots v :
  run (pick_fuel picked_bests random_init) (pick_init v) =
  Ok (eps_greedy_slots fingerprint N NB v picked_bests random_init).
Proof.
  change (pick_init v) with (st_of (State := State) [] 0 0 0 v).
  rewrite (run_from picked_bests) by (simpl; unfold pick_fuel; auto).
  unfold eps_greedy_slots. simpl. rewrite !Nat.sub_0_r, drop_0.
  destruct (take_from (NB `min` N) v picked_bests) as [[k1 v1] rest1]; simpl.
  destruct (take_from (N - length k1) v1 random_init) as [[k2 v2] rest2].
  simpl.
  destruct (take_from (N - length k1 - length k2) v2 rest1)
    as [[k3 v3] rest3].
  reflexivity.
Qed.

Local Abbreviation fps l := (list_to_set (fingerprint <$> l) : gset K).

(** What [dedup_take] keeps is new, without repetition, recorded, and
    either fills the slots or uses up the supply. *)
Lemma take_from_spec l :
  ∀ n v k v' rest,
    take_from n v l = (k, v', rest) →
    (length k ≤ n)%nat ∧ NoDup (fingerprint <$> k)
    ∧ (∀ x, x ∈ k → fingerprint x ∉ v)
    ∧ v' = v ∪ fps k
    ∧ k ⊆ l
    ∧ (∃ used, l = used ++ rest ∧ fps used ⊆ v')
    ∧ (length k = n ∨ rest = []).
Proof.
  induction l as [|x l IH]; intros n v k v' rest E.
  - rewrite take_from_nil in E. injection E as <- <- <-.
    split_and!; simpl; [lia | constructor | set_solver | set_solver
                        | set_solver | | auto].
    exists []. set_solver.
  - destruct n as [|n]; simpl in E.
    { injection E as <- <- <-.
      split_and!; simpl; [lia | constructor | set_solver | set_solver
                          | set_solver | | auto].
      exists []. set_solver. }
    destruct (decide (fingerprint x ∈ v)) as [Hin | Hin].
    + destruct (IH _ _ _ _ _ E)
        as (Hlen & Hnd & Hnew & Hv & Hsub & Hused & Hfull).
      split_and!; auto.
      * set_solver.
      * destruct Hused as (used & -> & Hu). exists (x :: used).
        split; [reflexivity|]. simpl. set_solver.
    + destruct (take_from n _ l) as [[k0 v0] rest0] eqn:E0.
      injection E as <- <- <-.
      destruct (IH _ _ _ _ _ E0)
        as (Hlen & Hnd & Hnew & Hv & Hsub & Hused & Hfull).
      split_and!; simpl.
      * lia.
      * constructor; [|exact Hnd].
        intros Hx. apply list_elem_of_fmap in Hx as (y & Hy1 & Hy2).
        apply Hnew in Hy2. set_solver.
      * intros y Hy. apply elem_of_cons in Hy as [-> | Hy]; [exact Hin|].
        apply Hnew in Hy. set_solver.
      * set_solver.
      * set_solver.
      * destruct Hused as (used & -> & Hu). exists (x :: used).
        split; [reflexivity|]. simpl. set_solver.
      * destruct Hfull as [<- | ->]; auto.
Qed.

Lemma take_from_size n v l k v' rest :
  take_from n v l = (k, v', rest) → size v' = (size v + length k)%nat.
Proof.
  intros E. apply take_from_spec in E as (_ & Hnd & Hnew & -> & _).
  rewrite size_union.
  - rewrite size_list_to_set by exact Hnd. rewrite length_fmap. reflexivity.
  - intros y Hy Hy'. apply elem_of_list_to_set in Hy'.
    apply list_elem_of_fmap in Hy' as (x & -> & Hx). exact (Hnew _ Hx Hy).
Qed.

(** The same for the three supplies in a row. *)
Lemma slots_spec n nb v res v' :
  eps_greedy_slots fingerprint n nb v picked_bests random_init = (res, v') →
  (length res ≤ n)%nat ∧ NoDup (fingerprint <$> res)
  ∧ (∀ x, x ∈ res → fingerprint x ∉ v)
  ∧ v' = v ∪ fps res
  ∧ res ⊆ picked_bests ++ random_init
  ∧ size v' = (size v + length res)%nat
  ∧ ((length res < n)%nat → fps (picked_bests ++ random_init) ⊆ v').
Proof.
  unfold eps_greedy_slots.
  destruct (take_from (nb `min` n) v picked_bests) as [[k1 v1] rest1] eqn:E1.
  destruct (take_from (n - length k1) v1 random_init) as [[k2 v2] rest2] eqn:E2.
  destruct (take_from (n - length k1 - length k2) v2 rest1)
    as [[k3 v3] rest3] eqn:E3.
  intros [= <- <-].
  pose proof (take_from_size _ _ _ _ _ _ E1) as S1.
  pose proof (take_from_size _ _ _ _ _ _ E2) as S2.
  pose proof (take_from_size _ _ _ _ _ _ E3) as S3.
  apply take_from_spec in E1 as (L1 & N1 & W1 & V1 & B1 & (u1 & U1 & U1') & F1).
  apply take_from_spec in E2 as (L2 & N2 & W2 & V2 & B2 & (u2 & U2 & U2') & F2).
  apply take_from_spec in E3 as (L3 & N3 & W3 & V3 & B3 & (u3 & U3 & U3') & F3).
  rewrite !length_app.
  assert (Hnew : ∀ x, x ∈ k1 ++ k2 ++ k3 → fingerprint x ∉ v).
  { intros x Hx. rewrite !elem_of_app in Hx.
    destruct Hx as [Hx | [Hx | Hx]].
    - auto.
    - apply W2 in Hx. set_solver.
    - apply W3 in Hx. set_solver. }
  split_and!.
  - lia.
  - rewrite !fmap_app. apply NoDup_app. split; [exact N1|]. split.
    + intros y Hy Hy'. apply elem_of_app in Hy' as [Hy' | Hy'].
      * apply list_elem_of_fmap in Hy' as (x & -> & Hx).
        apply W2 in Hx. apply Hx. rewrite V1.
        apply elem_of_union_r, elem_of_list_to_set. exact Hy.
      * apply list_elem_of_fmap in Hy' as (x & -> & Hx).
        apply W3 in Hx. apply Hx. rewrite V2, V1.
        apply elem_of_union_l, elem_of_union_r, elem_of_list_to_set.
        exact Hy.
    + apply NoDup_app. split; [exact N2|]. split; [|exact N3].
      intros y Hy Hy'.
      apply list_elem_of_fmap in Hy' as (x & -> & Hx).
      apply W3 in Hx. apply Hx. rewrite V2.
      apply elem_of_union_r, elem_of_list_to_set. exact Hy.
  - exact Hnew.
  - rewrite V3, V2, V1, !fmap_app, !list_to_set_app_L. set_solver.
  - subst picked_bests. set_solver.
  - lia.
  - intros Hlt.
    assert (R2 : rest2 = []) by (destruct F2; [lia | assumption]).
    assert (R3 : rest3 = []) by (destruct F3; [lia | assumption]).
    subst rest2 rest3. rewrite app_nil_r in U2, U3. subst u2 u3.
    rewrite U1, !fmap_app, !list_to_set_app_L. set_solver.
Qed.
End PickFacts.

(** ** Claims on the epsilon-greedy pick *)

Lemma pick_returns_slots {State K : Type} `{Countable K}
    (fingerprint : State → K) (picked_bests random_init : list State)
    (num : Z) (eps_greedy : float32) (visited0 : gset K) (num_rand : Z) :
  num_rands num eps_greedy = Some num_rand →
  PickNextGenerationEpsGreedy fingerprint picked_bests random_init num
    eps_greedy visited0
  = Ok (eps_greedy_slots fingerprint (Z.to_nat (to_size_t num))
          (Z.to_nat (to_size_t (num - num_rand))) visited0
          picked_bests random_init).
Proof.
  intros E. unfold PickNextGenerationEpsGreedy. rewrite E. apply run_slots.
Qed.

Lemma size_list_to_set_length {K : Type} `{Countable K} (l : list K) :
  (size (list_to_set l : gset K) ≤ length l)%nat.
Proof.
  induction l as [|x l IH].
  - change (size (∅ : gset K) ≤ 0)%nat. rewrite size_empty. lia.
  - simpl. rewrite size_union_alt, size_singleton.
    pose proof (subseteq_size (list_to_set l ∖ {[x]}) (list_to_set l : gset K)
                  ltac:(set_solver)).
    lia.
Qed.

Lemma to_size_t_small z : 0 ≤ z → z < 2 ^ 64 → to_size_t z = z.
Proof. intros. unfold to_size_t. apply Z.mod_small. lia. Qed.

(** C2, as the code has it: for a budget [num] below [2^24] and a
    fraction [eps_greedy] between zero and one, the number of random
    slots is what is left of the single precision product
    [num * eps_greedy] when it is converted to [int]: that is the floor
    of the product without rounding, or one more, and it is between
    zero and [num].  The number of best slots is [num] minus it, and
    the pick fills its slots as [eps_greedy_slots] does: the best slots
    from [picked_bests] in order, the others from [random_init] in
    order, and when a supply runs out the free slots from the other
    one. *)
Theorem pick_fills_slots {State K : Type} `{Countable K}
    (fingerprint : State → K) (picked_bests random_init : list State)
    (num : Z) (eps_greedy : float32) (visited0 : gset K) :
  0 ≤ num → num < 2 ^ 24 →
  valid_binary prec32 emax32 eps_greedy = true →
  float_nonneg eps_greedy = true → float_le_one eps_greedy = true →
  ∃ num_rand fl,
    num_rands num eps_greedy = Some num_rand
    ∧ exact_floor num eps_greedy = Some fl
    ∧ fl ≤ num_rand ≤ fl + 1
    ∧ float_floor (fmul32 (int_to_float num) eps_greedy) = Some num_rand
    ∧ 0 ≤ num_rand ∧ num_rand ≤ num
    ∧ PickNextGenerationEpsGreedy fingerprint picked_bests random_init num
        eps_greedy visited0
      = Ok (eps_greedy_slots fingerprint (Z.to_nat num)
              (Z.to_nat (num - num_rand)) visited0 picked_bests random_init).
Proof.
  intros Hn0 Hn Hv Hp Hl.
  destruct (num_rands_spec num eps_greedy Hn0 Hn Hv Hp Hl)
    as (r & Er & Ef & Hr0 & Hr).
  destruct (num_rands_floor num eps_greedy Hn0 Hn Hv Hp Hl)
    as (r' & fl & Er' & Efl & Hfl).
  assert (r' = r) as -> by congruence.
  exists r, fl. split_and!; try assumption; try lia.
  rewrite (pick_returns_slots _ _ _ _ _ _ _ Er).
  assert (2 ^ 24 < 2 ^ 64) by (apply Z.pow_lt_mono_r; lia).
  rewrite !to_size_t_small by lia. reflexivity.
Qed.

Lemma pick_fills_slots_witness :
  ∃ num_rand fl,
    num_rands 10 float_0_7 = Some num_rand
    ∧ exact_floor 10 float_0_7 = Some fl
    ∧ fl ≤ num_rand ≤ fl + 1
    ∧ float_floor (fmul32 (int_to_float 10) float_0_7) = Some num_rand
    ∧ 0 ≤ num_rand ∧ num_rand ≤ 10
    ∧ PickNextGenerationEpsGreedy (λ x : nat, x) [1; 2; 3]%nat
        [4; 2; 5; 6]%nat 10 float_0_7 ∅
      = Ok (eps_greedy_slots (λ x : nat, x) (Z.to_nat 10)
              (Z.to_nat (10 - num_rand)) ∅ [1; 2; 3]%nat [4; 2; 5; 6]%nat).
Proof.
  apply (pick_fills_slots (λ x : nat, x) [1; 2; 3]%nat [4; 2; 5; 6]%nat 10
           float_0_7 ∅); reflexivity || lia.
Defined.

(** C2 as stated fails.  With a budget of [10] and the [float] nearest
    to [0.7] the product without rounding is a little less than [7] and
    its floor is [6], but the single precision product is rounded to
    [7.0]: the code keeps [7] random slots and [3] best slots, not [6]
    and [4].  And with a budget that a [float] does not hold, as
    [2^24 + 3], and the fraction [1.0], the number of random slots is
    more than the budget and the number of best slots is negative. *)
Lemma pick_slots_counterexample :
  float_nonneg float_0_7 = true ∧ float_le_one float_0_7 = true
  ∧ num_rands 10 float_0_7 = Some 7
  ∧ exact_floor 10 float_0_7 = Some 6
  ∧ num_rands 10 float_0_7 ≠ exact_floor 10 float_0_7
  ∧ num_rands (2 ^ 24 + 3) float_one = Some (2 ^ 24 + 4)
  ∧ 2 ^ 24 + 3 - (2 ^ 24 + 4) < 0.
Proof.
  split_and!; try reflexivity. discriminate.
Qed.

(** C4, as the code has it: the returned list has as many states as the
    budget allows and the supplies hold candidates that are distinct by
    fingerprint and not visited before; so at most
    [min(num, |bests| + |randoms|)], and exactly that many when the
    candidates of the two supplies are distinct and not visited. *)
Theorem pick_length {State K : Type} `{Countable K}
    (fingerprint : State → K) (picked_bests random_init : list State)
    (num : Z) (eps_greedy : float32) (visited0 : gset K) (num_rand : Z) :
  0 ≤ num → num < 2 ^ 31 →
  num_rands num eps_greedy = Some num_rand →
  ∃ res visited',
    PickNextGenerationEpsGreedy fingerprint picked_bests random_init num
      eps_greedy visited0 = Ok (res, visited')
    ∧ Z.of_nat (length res)
      = Z.min num
          (Z.of_nat (size ((list_to_set
                              (fingerprint <$> picked_bests ++ random_init)
                            : gset K) ∖ visited0)))
    ∧ Z.of_nat (length res)
      ≤ Z.min num (Z.of_nat (length picked_bests + length random_init))
    ∧ (NoDup (fingerprint <$> picked_bests ++ random_init) →
       (∀ x, x ∈ picked_bests ++ random_init → fingerprint x ∉ visited0) →
       Z.of_nat (length res)
       = Z.min num (Z.of_nat (length picked_bests + length random_init))).
Proof.
  intros Hn0 Hn E.
  assert (2 ^ 31 < 2 ^ 64) by (apply Z.pow_lt_mono_r; lia).
  rewrite (pick_returns_slots _ _ _ _ _ _ _ E), to_size_t_small by lia.
  destruct (eps_greedy_slots _ _ _ _ _ _) as [res v'] eqn:Es.
  exists res, v'. split; [reflexivity|].
  apply slots_spec in Es as (Hlen & Hnd & Hnew & Hv & Hsub & Hsize & Hall).
  set (F := (list_to_set (fingerprint <$> picked_bests ++ random_init)
             : gset K)) in *.
  assert (Hin : v' ⊆ visited0 ∪ F).
  { rewrite Hv. intros y Hy. apply elem_of_union in Hy as [Hy | Hy].
    - apply elem_of_union_l. exact Hy.
    - apply elem_of_union_r. apply elem_of_list_to_set in Hy.
      apply list_elem_of_fmap in Hy as (x & -> & Hx).
      apply elem_of_list_to_set, list_elem_of_fmap. exists x. split; auto. }
  assert (Hup : (size v' ≤ size visited0 + size (F ∖ visited0))%nat).
  { rewrite <- size_union_alt. apply subseteq_size. exact Hin. }
  assert (Hexact : Z.of_nat (length res)
                   = Z.min num (Z.of_nat (size (F ∖ visited0)))).
  { destruct (decide (length res < Z.to_nat num)%nat) as [Hlt | Hge].
    - assert (Heq : v' = visited0 ∪ F).
      { apply set_eq. intros y. split; [apply Hin|].
        intros Hy. apply elem_of_union in Hy as [Hy | Hy].
        - rewrite Hv. apply elem_of_union_l. exact Hy.
        - apply (Hall Hlt). exact Hy. }
      rewrite Heq, size_union_alt in Hsize. lia.
    - lia. }
  assert (HF : (size (F ∖ visited0) ≤ length picked_bests + length random_init)%nat).
  { etransitivity; [apply subseteq_size, subseteq_difference_l; reflexivity|].
    unfold F. etransitivity; [apply size_list_to_set_length|].
    rewrite length_fmap, length_app. reflexivity. }
  split_and!.
  - exact Hexact.
  - lia.
  - intros Hnodup Hfresh.
    assert (size (F ∖ visited0) = (length picked_bests + length random_init)%nat);
      [|lia].
    assert (F ∖ visited0 = F) as ->.
    { apply set_eq. intros y. rewrite elem_of_difference.
      split; [tauto|]. intros Hy. split; [exact Hy|].
      apply elem_of_list_to_set, list_elem_of_fmap in Hy as (x & -> & Hx).
      apply Hfresh. exact Hx. }
    unfold F. rewrite size_list_to_set by exact Hnodup.
    rewrite length_fmap, length_app. reflexivity.
Qed.

Lemma pick_length_witness :
  ∃ res visited',
    PickNextGenerationEpsGreedy (λ x : nat, x) [1; 2; 3]%nat
      [4; 2; 5; 6]%nat 4 float_half ∅ = Ok (res, visited')
    ∧ Z.of_nat (length res)
      = Z.min 4
          (Z.of_nat (size ((list_to_set
                              ((λ x : nat, x) <$>
                                 [1; 2; 3]%nat ++ [4; 2; 5; 6]%nat)
                            : gset nat) ∖ ∅)))
    ∧ Z.of_nat (length res)
      ≤ Z.min 4 (Z.of_nat (length [1; 2; 3]%nat + length [4; 2; 5; 6]%nat))
    ∧ (NoDup ((λ x : nat, x) <$> [1; 2; 3]%nat ++ [4; 2; 5; 6]%nat) →
       (∀ x, x ∈ [1; 2; 3]%nat ++ [4; 2; 5; 6]%nat →
             (λ x : nat, x) x ∉ (∅ : gset nat)) →
       Z.of_nat (length res)
       = Z.min 4 (Z.of_nat (length [1; 2; 3]%nat + length [4; 2; 5; 6]%nat))).
Proof.
  apply (pick_length (λ x : nat, x) [1; 2; 3]%nat [4; 2; 5; 6]%nat 4
           float_half ∅ 2); reflexivity || lia.
Defined.

(** C4 as stated fails: with one candidate offered by both supplies and
    a budget of two, one state is returned, not
    [min(2, 1 + 1) = 2]. *)
Lemma pick_length_counterexample :
  ∃ res visited',
    PickNextGenerationEpsGreedy (λ x : nat, x) [1%nat] [1%nat] 2
      (S754_zero false) ∅ = Ok (res, visited')
    ∧ Z.of_nat (length res)
      ≠ Z.min 2 (Z.of_nat (length [1%nat] + length [1%nat])).
Proof.
  exists [1%nat], {[1%nat]}. split; [|simpl; lia].
  rewrite (pick_returns_slots _ _ _ _ _ _ 0) by reflexivity.
  vm_compute eps_greedy_slots. f_equal.
Qed.

(** ** Methods on the heap *)

Section SearchFacts.
Context {StateType : Type} {RE : RandomEngine StateType}.
Context {C : Collaborators StateType}.

Lemma bind_inv {A B} (c : M A) (k : A → M B) w b w'' :
  bind c k w = Ok (b, w'') →
  ∃ a w', c w = Ok (a, w') ∧ k a w' = Ok (b, w'').
Proof.
  unfold bind. destruct (c w) as [[a w']| | |]; simpl; try discriminate.
  eauto.
Qed.

Lemma bind_Ok {A B} (c : M A) (k : A → M B) w a w' :
  c w = Ok (a, w') → bind c k w = k a w'.
Proof. intros E. unfold bind. rewrite E. reflexivity. Qed.

Lemma same_members_refl w : same_members w w.
Proof. repeat split. Qed.

Lemma same_members_trans w1 w2 w3 :
  same_members w1 w2 → same_members w2 w3 → same_members w1 w3.
Proof.
  intros (A1 & A2 & A3 & A4 & A5) (B1 & B2 & B3 & B4 & B5).
  repeat split; congruence.
Qed.

Lemma sample_uniform_int_inv lo hi w v w' :
  sample_uniform_int lo hi w = Ok (v, w') →
  v = (SampleUniformInt lo hi (rand_seed_ (this w))).1
  ∧ w' = set_rand_seed (SampleUniformInt lo hi (rand_seed_ (this w))).2 w.
Proof.
  unfold sample_uniform_int.
  destruct (SampleUniformInt lo hi (rand_seed_ (this w))) as [v0 s].
  intros [= <- <-]. auto.
Qed.

Lemma IRCopy_inv e w e' w' :
  IRCopy e w = Ok (e', w') →
  ∃ n, ir_heap (mem w) !! e = Some n
       ∧ (e' ∉ dom (ir_heap (mem w)))
       ∧ ir_heap (mem w') = <[e' := n]> (ir_heap (mem w))
       ∧ state_heap (mem w') = state_heap (mem w)
       ∧ this w' = this w.
Proof.
  unfold IRCopy. destruct (ir_heap (mem w) !! e) as [n|]; [|discriminate].
  intros [= <- <-]. exists n. split_and!; try reflexivity.
  apply is_fresh.
Qed.

Lemma IRCopy_returns e w n :
  ir_heap (mem w) !! e = Some n → ∃ e' w', IRCopy e w = Ok (e', w').
Proof. intros E. unfold IRCopy. rewrite E. eauto. Qed.

Lemma insert_fresh_subseteq {A} (m : gmap positive A) e n :
  e ∉ dom m → m ⊆ <[e := n]> m.
Proof. intros He. apply insert_subseteq, not_elem_of_dom. exact He. Qed.

(** The loop of [CrossOver] leaves the object but for the seed, the
    states and the nodes that exist; what it returns is new. *)
Lemma cross_over_loop_frame fs :
  ∀ ms w es w',
    length fs = length ms →
    cross_over_loop fs ms w = Ok (es, w') →
    same_members w w'
    ∧ rand_seed_ (this w') = (dice (length fs) (rand_seed_ (this w))).2
    ∧ state_heap (mem w') = state_heap (mem w)
    ∧ ir_heap (mem w) ⊆ ir_heap (mem w')
    ∧ length es = length fs
    ∧ (∀ ec, ec ∈ es → ec ∉ dom (ir_heap (mem w))).
Proof.
  induction fs as [|f fs IH]; intros ms w es w' Hlen Hrun.
  - destruct ms; [|discriminate]. injection Hrun as <- <-.
    split_and!; try reflexivity; try apply same_members_refl.
    intros ec Hi. inversion Hi.
  - destruct ms as [|m ms]; [discriminate|]. simpl in Hlen.
    simpl in Hrun.
    apply bind_inv in Hrun as (d & w1 & Hd & Hrun).
    apply bind_inv in Hrun as (e & w2 & He & Hrun).
    apply bind_inv in Hrun as (r & w3 & Hr & Hrun).
    injection Hrun as <- <-.
    apply sample_uniform_int_inv in Hd as [Ed ->].
    assert (Hcopy : IRCopy (if d =? 0 then f else m)
                      (set_rand_seed
                         (SampleUniformInt 0 2 (rand_seed_ (this w))).2 w)
                    = Ok (e, w2)) by (destruct (d =? 0); exact He).
    apply IRCopy_inv in Hcopy as (n & Hn & Hfresh & Hheap & Hst & Hthis).
    simpl in Hn, Hfresh, Hheap, Hst.
    destruct (IH ms w2 r w3 ltac:(lia) Hr)
      as (Hsame & Hseed & Hst' & Hsub & Hl & Hpos).
    simpl dice.
    destruct (SampleUniformInt 0 2 (rand_seed_ (this w))) as [d0 s1] eqn:Es.
    simpl in Ed. subst d0.
    rewrite Hthis in Hseed. simpl in Hseed.
    destruct (dice (length fs) s1) as [ds s2] eqn:Edice. simpl in *.
    assert (Hsub2 : ir_heap (mem w) ⊆ ir_heap (mem w2)).
    { rewrite Hheap. apply insert_fresh_subseteq. exact Hfresh. }
    split_and!.
    + destruct Hsame as (A1 & A2 & A3 & A4 & A5). rewrite Hthis in *.
      repeat split; assumption.
    + exact Hseed.
    + congruence.
    + etransitivity; eassumption.
    + lia.
    + intros ec Hi. apply elem_of_cons in Hi as [-> | Hi]; [exact Hfresh|].
      intros Hin. apply (Hpos ec Hi). rewrite Hheap, dom_insert.
      apply elem_of_union_r. exact Hin.
Qed.

(** On parents whose expressions exist, the loop returns, and position
    [i] of what it returns holds the content of position [i] of the
    father when the die of that position gave [0], of the mother
    otherwise. *)
Lemma cross_over_loop_spec fs :
  ∀ ms w,
    length fs = length ms →
    (∀ e, e ∈ fs ++ ms → e ∈ dom (ir_heap (mem w))) →
    ∃ es w',
      cross_over_loop fs ms w = Ok (es, w')
      ∧ (∀ i d f m,
           (dice (length fs) (rand_seed_ (this w))).1 !! i = Some d →
           fs !! i = Some f → ms !! i = Some m →
           ∃ ec, es !! i = Some ec
                 ∧ ir_heap (mem w') !! ec
                   = ir_heap (mem w) !! (if d =? 0 then f else m)).
Proof.
  induction fs as [|f fs IH]; intros ms w Hlen Hwf.
  - destruct ms; [|discriminate]. exists [], w. split; [reflexivity|].
    intros i d f m _ Hf. destruct i; discriminate.
  - destruct ms as [|m ms]; [discriminate|]. simpl in Hlen.
    simpl cross_over_loop. simpl dice.
    destruct (SampleUniformInt 0 2 (rand_seed_ (this w))) as [d s1] eqn:Es.
    assert (Hsample : sample_uniform_int 0 2 w = Ok (d, set_rand_seed s1 w)).
    { unfold sample_uniform_int. rewrite Es. reflexivity. }
    rewrite (bind_Ok _ _ _ _ _ Hsample).
    set (src := if d =? 0 then f else m).
    assert (Hsrc : src ∈ dom (ir_heap (mem w))).
    { apply Hwf. unfold src. destruct (d =? 0); set_solver. }
    apply elem_of_dom in Hsrc as [n Hn].
    destruct (IRCopy_returns src (set_rand_seed s1 w) n Hn) as (e & w2 & He).
    assert (He' : (if d =? 0 then IRCopy f else IRCopy m) (set_rand_seed s1 w)
                  = Ok (e, w2)) by (unfold src in He; destruct (d =? 0); exact He).
    rewrite (bind_Ok _ _ _ _ _ He').
    apply IRCopy_inv in He as (n' & Hn' & Hfresh & Hheap & Hst & Hthis).
    simpl in Hn', Hfresh, Hheap, Hst.
    assert (n' = n) as -> by congruence.
    assert (Hsub2 : ir_heap (mem w) ⊆ ir_heap (mem w2)).
    { rewrite Hheap. apply insert_fresh_subseteq. exact Hfresh. }
    destruct (IH ms w2 ltac:(lia)) as (r & w3 & Hr & Hpos).
    { intros x Hx. eapply subseteq_dom; [exact Hsub2|]. apply Hwf.
      set_solver. }
    rewrite (bind_Ok _ _ _ _ _ Hr). exists (e :: r), w3.
    split; [reflexivity|].
    destruct (cross_over_loop_frame fs ms w2 r w3 ltac:(lia) Hr)
      as (_ & _ & _ & Hsub3 & _ & _).
    rewrite Hthis in Hpos. simpl in Hpos.
    destruct (dice (length fs) s1) as [ds s2] eqn:Edice. simpl in *.
    intros i d' f' m' Hd Hf Hm. destruct i as [|i]; simpl in *.
    + injection Hd as <-. injection Hf as <-. injection Hm as <-.
      exists e. split; [reflexivity|]. fold src. rewrite Hn.
      eapply lookup_weaken; [|exact Hsub3]. rewrite Hheap.
      apply lookup_insert_eq.
    + destruct (Hpos i d' f' m' Hd Hf Hm) as (ec & Hec & Hc).
      exists ec. split; [exact Hec|]. rewrite Hc.
      assert (Hin : (if d' =? 0 then f' else m') ∈ dom (ir_heap (mem w))).
      { apply Hwf. apply list_elem_of_lookup_2 in Hf, Hm.
        destruct (d' =? 0); set_solver. }
      apply elem_of_dom in Hin as [n0 Hn0]. rewrite Hn0.
      eapply lookup_weaken; [exact Hn0 | exact Hsub2].
Qed.
Lemma GetExprs_inv s w es w' :
  GetExprs s w = Ok (es, w') →
  w' = w ∧ ∃ o, state_heap (mem w) !! s = Some o
                ∧ es = module_expr (ir_schedule o).
Proof.
  unfold GetExprs. destruct (state_heap (mem w) !! s) as [o|]; [|discriminate].
  intros [= <- <-]. eauto.
Qed.

Lemma fork_random_state_inv w forked w' :
  fork_random_state w = Ok (forked, w') →
  ForkRandomState (rand_seed_ (this w)) = (forked, rand_seed_ (this w'))
  ∧ same_members w w' ∧ mem w' = mem w.
Proof.
  unfold fork_random_state.
  destruct (ForkRandomState (rand_seed_ (this w))) as [f s].
  intros [= <- <-]. split_and!; try reflexivity. repeat split.
Qed.

Lemma new_SearchState_inv sch cost w s w' :
  new_SearchState sch cost w = Ok (s, w') →
  (s ∉ dom (state_heap (mem w)))
  ∧ state_heap (mem w') = <[s := MkSearchState sch cost]> (state_heap (mem w))
  ∧ ir_heap (mem w') = ir_heap (mem w)
  ∧ this w' = this w.
Proof.
  unfold new_SearchState. intros [= <- <-].
  split_and!; try reflexivity. apply is_fresh.
Qed.

Lemma CHECK_EQ_inv a b w u w' :
  CHECK_EQ a b w = Ok (u, w') → a = b ∧ w' = w.
Proof.
  unfold CHECK_EQ. destruct (decide (a = b)); [|discriminate].
  intros [= <-]. auto.
Qed.

(** What a crossover that returns has done. *)
Lemma CrossOver_inv state1 state2 w child w' :
  CrossOver state1 state2 w = Ok (child, w') →
  ∃ o1 o2 es forked,
    state_heap (mem w) !! state1 = Some o1
    ∧ state_heap (mem w) !! state2 = Some o2
    ∧ length (module_expr (ir_schedule o1))
      = length (module_expr (ir_schedule o2))
    ∧ (∃ w1, cross_over_loop (module_expr (ir_schedule o1))
               (module_expr (ir_schedule o2)) w = Ok (es, w1)
             ∧ ir_heap (mem w') = ir_heap (mem w1))
    ∧ ForkRandomState
        (dice (length (module_expr (ir_schedule o1))) (rand_seed_ (this w))).2
      = (forked, rand_seed_ (this w'))
    ∧ same_members w w'
    ∧ (child ∉ dom (state_heap (mem w)))
    ∧ state_heap (mem w')
      = <[child := MkSearchState (MkIRSchedule es forked) NOT_INIT]>
          (state_heap (mem w))
    ∧ ir_heap (mem w) ⊆ ir_heap (mem w')
    ∧ length es = length (module_expr (ir_schedule o1))
    ∧ (∀ ec, ec ∈ es → ec ∉ dom (ir_heap (mem w))).
Proof.
  unfold CrossOver. intros Hrun.
  apply bind_inv in Hrun as (fs & w1 & Hf & Hrun).
  apply GetExprs_inv in Hf as [-> (o1 & Ho1 & ->)].
  apply bind_inv in Hrun as (ms & w2 & Hm & Hrun).
  apply GetExprs_inv in Hm as [-> (o2 & Ho2 & ->)].
  apply bind_inv in Hrun as (u & w3 & Hc & Hrun).
  apply CHECK_EQ_inv in Hc as [Hlen ->].
  apply bind_inv in Hrun as (es & w4 & Hloop & Hrun).
  apply bind_inv in Hrun as (forked & w5 & Hfork & Hnew).
  pose proof (cross_over_loop_frame _ _ _ _ _ Hlen Hloop)
    as (Hsame & Hseed & Hst & Hsub & Hl & Hfresh).
  apply fork_random_state_inv in Hfork as (Hfork & Hsame' & Hmem).
  apply new_SearchState_inv in Hnew as (Hchild & Hst' & Hir & Hthis).
  exists o1, o2, es, forked.
  rewrite Hmem in Hchild, Hst', Hir. rewrite Hst in Hchild, Hst'.
  split_and!; try assumption.
  - exists w4. split; [exact Hloop | exact Hir].
  - rewrite Hthis, <- Hseed. exact Hfork.
  - eapply same_members_trans; [exact Hsame|].
    destruct Hsame' as (A1 & A2 & A3 & A4 & A5).
    unfold same_members. rewrite Hthis. repeat split; assumption.
  - rewrite Hir. exact Hsub.
Qed.

(** A crossover of parents that exist, with as many expressions each,
    all of them on the heap, returns. *)
Lemma CrossOver_returns state1 state2 w o1 o2 :
  state_heap (mem w) !! state1 = Some o1 →
  state_heap (mem w) !! state2 = Some o2 →
  length (module_expr (ir_schedule o1))
  = length (module_expr (ir_schedule o2)) →
  (∀ e, e ∈ module_expr (ir_schedule o1) ++ module_expr (ir_schedule o2) →
        e ∈ dom (ir_heap (mem w))) →
  ∃ child w', CrossOver state1 state2 w = Ok (child, w').
Proof.
  intros H1 H2 Hlen Hwf. unfold CrossOver.
  assert (G1 : GetExprs state1 w = Ok (module_expr (ir_schedule o1), w))
    by (unfold GetExprs; rewrite H1; reflexivity).
  assert (G2 : GetExprs state2 w = Ok (module_expr (ir_schedule o2), w))
    by (unfold GetExprs; rewrite H2; reflexivity).
  rewrite (bind_Ok _ _ _ _ _ G1), (bind_Ok _ _ _ _ _ G2).
  assert (G3 : CHECK_EQ (length (module_expr (ir_schedule o1)))
                 (length (module_expr (ir_schedule o2))) w = Ok ((), w))
    by (unfold CHECK_EQ; rewrite decide_True by exact Hlen; reflexivity).
  rewrite (bind_Ok _ _ _ _ _ G3).
  destruct (cross_over_loop_spec _ _ w Hlen Hwf) as (es & w1 & Hloop & _).
  rewrite (bind_Ok _ _ _ _ _ Hloop).
  unfold bind, fork_random_state.
  destruct (ForkRandomState (rand_seed_ (this w1))) as [f s]. simpl.
  unfold new_SearchState. eauto.
Qed.

(** A crossover of parents with different numbers of expressions fails
    the check. *)
Lemma CrossOver_mismatch state1 state2 w o1 o2 :
  state_heap (mem w) !! state1 = Some o1 →
  state_heap (mem w) !! state2 = Some o2 →
  length (module_expr (ir_schedule o1))
  ≠ length (module_expr (ir_schedule o2)) →
  CrossOver state1 state2 w = CheckFailed.
Proof.
  intros H1 H2 Hlen. unfold CrossOver.
  assert (G1 : GetExprs state1 w = Ok (module_expr (ir_schedule o1), w))
    by (unfold GetExprs; rewrite H1; reflexivity).
  assert (G2 : GetExprs state2 w = Ok (module_expr (ir_schedule o2), w))
    by (unfold GetExprs; rewrite H2; reflexivity).
  rewrite (bind_Ok _ _ _ _ _ G1), (bind_Ok _ _ _ _ _ G2).
  unfold bind, CHECK_EQ. rewrite decide_False by exact Hlen. reflexivity.
Qed.
Lemma exprs_of_lookup m s o :
  state_heap m !! s = Some o → exprs_of m s = module_expr (ir_schedule o).
Proof. intros E. unfold exprs_of. rewrite E. reflexivity. Qed.

(** C6: a crossover of two parents whose modules have different numbers
    of expressions dies on the check, without a child; with equal
    numbers the check passes and a child with as many expressions is
    returned. *)
Theorem CrossOver_checks_counts state1 state2 w o1 o2 :
  state_heap (mem w) !! state1 = Some o1 →
  state_heap (mem w) !! state2 = Some o2 →
  on_heap (mem w) (module_expr (ir_schedule o1)
                   ++ module_expr (ir_schedule o2)) →
  (length (module_expr (ir_schedule o1))
   ≠ length (module_expr (ir_schedule o2)) →
   CrossOver state1 state2 w = CheckFailed)
  ∧ (length (module_expr (ir_schedule o1))
     = length (module_expr (ir_schedule o2)) →
     ∃ child w',
       CrossOver state1 state2 w = Ok (child, w')
       ∧ length (exprs_of (mem w') child)
         = length (module_expr (ir_schedule o1))).
Proof.
  intros H1 H2 Hwf. split; intros Hlen.
  - exact (CrossOver_mismatch _ _ _ _ _ H1 H2 Hlen).
  - destruct (CrossOver_returns _ _ _ _ _ H1 H2 Hlen) as (child & w' & E).
    { apply Forall_forall. exact Hwf. }
    exists child, w'. split; [exact E|].
    apply CrossOver_inv in E
      as (p1 & p2 & es & forked & E1 & _ & _ & _ & _ & _ & _ & Hst & _ & Hl & _).
    assert (p1 = o1) as -> by congruence.
    rewrite (exprs_of_lookup _ child
               (MkSearchState (MkIRSchedule es forked) NOT_INIT)).
    + exact Hl.
    + rewrite Hst. apply lookup_insert_eq.
Qed.

(** C8: a crossover that returns leaves its parents as they were: the
    states that existed (their expressions, their random state, their
    cost) and the IR nodes that existed are unchanged; the child is a
    new state whose expressions are new nodes, and its random state is
    forked from the state of the search, after the dice. *)
Theorem CrossOver_leaves_parents A B w child w' :
  CrossOver A B w = Ok (child, w') →
  state_heap (mem w') !! A = state_heap (mem w) !! A
  ∧ state_heap (mem w') !! B = state_heap (mem w) !! B
  ∧ (∀ s, s ∈ dom (state_heap (mem w)) →
          state_heap (mem w') !! s = state_heap (mem w) !! s)
  ∧ (∀ e, e ∈ dom (ir_heap (mem w)) →
          ir_heap (mem w') !! e = ir_heap (mem w) !! e)
  ∧ (child ∉ dom (state_heap (mem w)))
  ∧ (∀ e, e ∈ exprs_of (mem w') child → e ∉ dom (ir_heap (mem w)))
  ∧ ∃ o, state_heap (mem w') !! child = Some o
         ∧ ForkRandomState
             (dice (length (exprs_of (mem w) A)) (rand_seed_ (this w))).2
           = (sched_rand_seed (ir_schedule o), rand_seed_ (this w')).
Proof.
  intros E.
  apply CrossOver_inv in E
    as (o1 & o2 & es & forked & E1 & E2 & Hlen & _ & Hfork & _ & Hchild
        & Hst & Hsub & Hl & Hfresh).
  assert (Hold : ∀ s, s ∈ dom (state_heap (mem w)) →
                      state_heap (mem w') !! s = state_heap (mem w) !! s).
  { intros s Hs. rewrite Hst. apply lookup_insert_ne. intros ->.
    exact (Hchild Hs). }
  split_and!.
  - apply Hold, elem_of_dom. eauto.
  - apply Hold, elem_of_dom. eauto.
  - exact Hold.
  - intros e He. apply elem_of_dom in He as [n Hn]. rewrite Hn.
    eapply lookup_weaken; eassumption.
  - exact Hchild.
  - intros e He. apply Hfresh.
    rewrite (exprs_of_lookup _ child
               (MkSearchState (MkIRSchedule es forked) NOT_INIT)) in He.
    + exact He.
    + rewrite Hst. apply lookup_insert_eq.
  - eexists. split; [rewrite Hst; apply lookup_insert_eq|].
    simpl. rewrite (exprs_of_lookup _ _ _ E1). exact Hfork.
Qed.
(** ** Evolution *)

Lemma bind_OutOfFuel {A B} (c : M A) (k : A → M B) w :
  c w = OutOfFuel → bind c k w = OutOfFuel.
Proof. intros E. unfold bind. rewrite E. reflexivity. Qed.

(** With one parent there is no second index to find: the loop that
    looks for one never ends. *)
Lemma resample_single_index fuel w :
  RandomEngineRange RE → resample fuel 1 0 0 w = OutOfFuel.
Proof.
  intros Hrange. unfold resample.
  rewrite (while_loop_stuck (resample_step 1 0) (λ st, st.1 = 0)).
  - reflexivity.
  - intros [second s] Hs. simpl in Hs. subst second.
    unfold resample_step. simpl. eexists. split; [reflexivity|].
    pose proof (Hrange 0 1 s ltac:(lia)). lia.
  - reflexivity.
Qed.

(** C5, on the code: with a population of one state and at least one
    crossover asked for, [Evolve] does not return, whatever the fuel:
    the two indices drawn from [[0, 1)] are both [0], and the loop that
    draws the second one again until it differs never ends. *)
Theorem Evolve_single_parent_never_returns fuel p cross_over_num ret_num w :
  RandomEngineRange RE → 1 ≤ cross_over_num →
  Evolve fuel [p] cross_over_num ret_num w = OutOfFuel.
Proof.
  intros Hrange Hnum. unfold Evolve. simpl length.
  change (Z.of_nat 1 =? 0) with false. cbv iota.
  apply bind_OutOfFuel.
  destruct (Z.to_nat cross_over_num) as [|n] eqn:En; [lia|].
  change (Z.of_nat 1) with 1. simpl cross_over_iter.
  pose proof (Hrange 0 1 (rand_seed_ (this w)) ltac:(lia)) as R1.
  destruct (SampleUniformInt 0 1 (rand_seed_ (this w))) as [v1 s1] eqn:E1.
  simpl in R1. assert (v1 = 0) as -> by lia.
  assert (S1 : sample_uniform_int 0 1 w = Ok (0, set_rand_seed s1 w))
    by (unfold sample_uniform_int; rewrite E1; reflexivity).
  rewrite (bind_Ok _ _ _ _ _ S1).
  pose proof (Hrange 0 1 s1 ltac:(lia)) as R2.
  destruct (SampleUniformInt 0 1 s1) as [v2 s2] eqn:E2.
  simpl in R2. assert (v2 = 0) as -> by lia.
  assert (S2 : sample_uniform_int 0 1 (set_rand_seed s1 w)
               = Ok (0, set_rand_seed s2 (set_rand_seed s1 w)))
    by (unfold sample_uniform_int; simpl; rewrite E2; reflexivity).
  rewrite (bind_Ok _ _ _ _ _ S2).
  apply bind_OutOfFuel. apply resample_single_index. exact Hrange.
Qed.

(** Without a population, [Evolve] returns the empty list at once. *)
Lemma Evolve_empty fuel cross_over_num ret_num w :
  Evolve fuel [] cross_over_num ret_num w = Ok ([], w).
Proof. reflexivity. Qed.

(** The indices that [Evolve] draws go into [population]: a sampler that
    gave its upper bound would index the vector out of its bounds. *)
Lemma Evolve_needs_exclusive_bound fuel population cross_over_num ret_num w :
  population ≠ [] → 1 ≤ cross_over_num →
  (SampleUniformInt 0 (Z.of_nat (length population))
     (rand_seed_ (this w))).1 = Z.of_nat (length population) →
  ¬ returns (Evolve fuel population cross_over_num ret_num w).
Proof.
  intros Hne Hnum Hdraw [[l w'] E]. unfold Evolve in E.
  destruct (Z.of_nat (length population) =? 0) eqn:E0.
  { apply Z.eqb_eq in E0. destruct population; [congruence | discriminate]. }
  apply bind_inv in E as (evolution & w1 & E & _).
  destruct (Z.to_nat cross_over_num) as [|n] eqn:En; [lia|].
  simpl in E.
  apply bind_inv in E as (first & w2 & Hfirst & E).
  apply sample_uniform_int_inv in Hfirst as [-> ->].
  apply bind_inv in E as (second & w3 & _ & E).
  apply bind_inv in E as (second' & w4 & _ & E).
  apply bind_inv in E as (state1 & w5 & Hat & _).
  rewrite Hdraw in Hat. unfold at_index in Hat.
  destruct (Z.of_nat (length population) <? 0); [discriminate|].
  rewrite Nat2Z.id, (lookup_ge_None_2 population (length population)) in Hat
    by lia.
  discriminate.
Qed.

Lemma push_all_returns max_size evolution :
  ∀ l w, returns (push_all max_size evolution l w).
Proof.
  induction evolution as [|s evolution IH]; intros l w; simpl.
  - eexists. reflexivity.
  - unfold bind at 1. unfold schedule_mutate.
    destruct (GetScheduleMutate _ _ _ _) as [[s' sp] m]. simpl.
    unfold bind at 1. simpl. apply IH.
Qed.

(** When no crossover is asked for there is nothing to wait for. *)
Lemma Evolve_without_crossover_returns fuel population cross_over_num
    ret_num w :
  cross_over_num ≤ 0 →
  returns (Evolve fuel population cross_over_num ret_num w).
Proof.
  intros Hnum. unfold Evolve.
  destruct (Z.of_nat (length population) =? 0); [eexists; reflexivity|].
  replace (Z.to_nat cross_over_num) with 0%nat by lia. simpl.
  unfold bind at 1. simpl. apply push_all_returns.
Qed.

Lemma multiset_insert_length m s l :
  length (multiset_insert m s l) = Datatypes.S (length l).
Proof.
  induction l as [|x l IH]; simpl; [reflexivity|].
  destruct (SFltb _ _); simpl; congruence.
Qed.

Lemma removelast_length {A} (l : list A) :
  length (removelast l) = pred (length l).
Proof.
  rewrite removelast_firstn_len, length_take. lia.
Qed.

(** A multiset with room for one element is not empty after a push. *)
Lemma SizedMultiSet_Push_nonempty max_size m s l :
  1 ≤ max_size → SizedMultiSet_Push max_size m s l ≠ [].
Proof.
  intros Hmax. unfold SizedMultiSet_Push.
  pose proof (multiset_insert_length m s l) as Hl.
  destruct (max_size <? Z.of_nat (length (multiset_insert m s l))) eqn:E.
  - apply Z.ltb_lt in E. intros Hnil.
    apply (f_equal length) in Hnil. rewrite removelast_length in Hnil.
    simpl in Hnil. lia.
  - intros Hnil. rewrite Hnil in Hl. discriminate.
Qed.

Lemma push_all_nonempty max_size evolution :
  1 ≤ max_size →
  ∀ l w r w',
    evolution ≠ [] ∨ l ≠ [] →
    push_all max_size evolution l w = Ok (r, w') → r ≠ [].
Proof.
  intros Hmax. induction evolution as [|s evolution IH];
    intros l w r w' Hne E; simpl in E.
  - injection E as <- <-. destruct Hne; congruence.
  - apply bind_inv in E as (s' & w1 & _ & E).
    apply bind_inv in E as (l1 & w2 & Hpush & E).
    injection Hpush as <- <-.
    apply (IH _ _ _ _ (or_intror (SizedMultiSet_Push_nonempty _ _ _ _ Hmax)) E).
Qed.

Lemma cross_over_iter_extends fuel population gn n :
  ∀ evolution w r w',
    cross_over_iter fuel population gn n evolution w = Ok (r, w') →
    ∃ children, r = evolution ++ children.
Proof.
  induction n as [|n IH]; intros evolution w r w' E; simpl in E.
  - injection E as <- <-. exists []. rewrite app_nil_r. reflexivity.
  - apply bind_inv in E as (first & w1 & _ & E).
    apply bind_inv in E as (second & w2 & _ & E).
    apply bind_inv in E as (second' & w3 & _ & E).
    apply bind_inv in E as (state1 & w4 & _ & E).
    apply bind_inv in E as (state2 & w5 & _ & E).
    apply bind_inv in E as (child & w6 & _ & E).
    apply IH in E as (children & ->). exists (child :: children).
    rewrite <- app_assoc. reflexivity.
Qed.

(** With a population and room for one state, what [Evolve] returns is
    not empty. *)
Lemma Evolve_nonempty fuel population cross_over_num ret_num w r w' :
  population ≠ [] → 1 ≤ ret_num → ret_num < 2 ^ 31 →
  Evolve fuel population cross_over_num ret_num w = Ok (r, w') → r ≠ [].
Proof.
  intros Hne Hret Hret' E. unfold Evolve in E.
  destruct (Z.of_nat (length population) =? 0) eqn:E0.
  { apply Z.eqb_eq in E0. destruct population; [congruence | discriminate]. }
  apply bind_inv in E as (evolution & w1 & Hiter & E).
  apply cross_over_iter_extends in Hiter as (children & ->).
  assert (2 ^ 31 < 2 ^ 64) by (apply Z.pow_lt_mono_r; lia).
  eapply (push_all_nonempty (to_size_t ret_num)); [| |exact E].
  - unfold to_size_t. rewrite Z.mod_small; lia.
  - left. destruct population; [congruence | discriminate].
Qed.

(** ** Warm starts *)

Lemma replay_records_length task_key records :
  ∀ w l w', replay_records task_key records w = Ok (l, w') →
            length l = length records.
Proof.
  induction records as [|r records IH]; intros w l w' E; simpl in E.
  - injection E as <- <-. reflexivity.
  - apply bind_inv in E as (s & w1 & _ & E).
    apply bind_inv in E as (l1 & w2 & E & Hret).
    injection Hret as <- <-. simpl. f_equal. eauto.
Qed.

(** When every replay succeeds there is nothing to drop. *)
Lemma replay_records_dropping_agrees task_key records :
  ∀ w l w', replay_records task_key records w = Ok (l, w') →
            replay_records_dropping task_key records w = Ok (l, w').
Proof.
  induction records as [|r records IH]; intros w l w' E; simpl in E |- *.
  - exact E.
  - apply bind_inv in E as (s & w1 & Hs & E).
    apply bind_inv in E as (l1 & w2 & E & Hret).
    injection Hret as <- <-. rewrite Hs.
    rewrite (bind_Ok _ _ _ _ _ (IH _ _ _ E)). reflexivity.
Qed.

(** A record is replayed by [ReplayWithProto]. *)
Lemma replay_record_inv task_key record w s w' :
  replay_record task_key record w = Ok (s, w') →
  ∃ sch m, returns (ReplayWithProto (trace record) sch m).
Proof.
  unfold replay_record. intros E.
  apply bind_inv in E as (exprs & w1 & _ & E).
  apply bind_inv in E as (seed & w2 & _ & E).
  apply bind_inv in E as (sch & w3 & Hr & _).
  exists (MkIRSchedule exprs seed), (mem w2).
  destruct (ReplayWithProto _ _ _) as [[sch' m']| | |]; try discriminate.
  eexists. reflexivity.
Qed.

Lemma replay_records_abort task_key record records :
  record ∈ records →
  (∀ sch m, ¬ returns (ReplayWithProto (trace record) sch m)) →
  ∀ w, ¬ returns (replay_records task_key records w).
Proof.
  intros Hin Hfail. induction records as [|r records IH]; intros w [[l w'] E].
  - inversion Hin.
  - simpl in E. apply bind_inv in E as (s & w1 & Hs & E).
    apply bind_inv in E as (l1 & w2 & E & _).
    apply elem_of_cons in Hin as [<- | Hin].
    + apply replay_record_inv in Hs as (sch & m & Hr). exact (Hfail _ _ Hr).
    + apply (IH Hin w1). eexists. exact E.
Qed.

(** C7, as the code has it: the warm starts hold one state for each
    record of the database, in order: when the call returns, no record
    has been dropped (and dropping the failing ones would have given
    the same list).  A record whose trace does not replay is not
    dropped: its failure is the failure of the call, which returns
    nothing. *)
Theorem warm_starts_all_or_nothing topk w :
  let task_key := serialized_key (tune_task_ (this w)) in
  let records := GetTopK (database_ (this w)) task_key topk in
  (∀ l w', GetTopKCandidatesFromDatabase topk w = Ok (l, w') →
           length l = length records
           ∧ replay_records_dropping task_key records w = Ok (l, w'))
  ∧ (∀ record,
       record ∈ records →
       (∀ sch m, ¬ returns (ReplayWithProto (trace record) sch m)) →
       ¬ returns (GetTopKCandidatesFromDatabase topk w)).
Proof.
  intros task_key records. unfold GetTopKCandidatesFromDatabase.
  fold task_key. fold records. split.
  - intros l w' E. split.
    + eapply replay_records_length. exact E.
    + apply replay_records_dropping_agrees. exact E.
  - intros record Hin Hfail. eapply replay_records_abort; eassumption.
Qed.

(** ** The best state *)

(** C10: [SearchModuleExpr] gives element [0] of the list of
    [SearchModuleExprBests] and is undefined when that list is empty;
    so it returns only when the list, and with it the initial
    population, is not empty; with an empty initial population
    [SearchModuleExprBests] returns the empty list and
    [SearchModuleExpr] indexes it out of its bounds.  With a population
    and a budget of one state or more the list is not empty and
    [SearchModuleExpr] returns its element [0]. *)
Theorem SearchModuleExpr_needs_population fuel options w :
  SearchModuleExpr fuel options w
  = obind (SearchModuleExprBests fuel options w)
      (λ '(bests, w'), match bests with
                       | s :: _ => Ok (s, w')
                       | [] => Undefined
                       end)
  ∧ (∀ s w',
       SearchModuleExpr fuel options w = Ok (s, w') →
       ∃ bests topk sketch w1 w2,
         SearchModuleExprBests fuel options w = Ok (bests, w')
         ∧ bests !! 0%nat = Some s
         ∧ GetTopKCandidatesFromDatabase
             (evolution_pick_database_topk options) w = Ok (topk, w1)
         ∧ InitSketch (evolution_init_population_num options
                       - Z.of_nat (length topk)) "rule_prune" w1
           = Ok (sketch, w2)
         ∧ topk ++ sketch ≠ [])
  ∧ (∀ w1 w2,
       GetTopKCandidatesFromDatabase
         (evolution_pick_database_topk options) w = Ok ([], w1) →
       InitSketch (evolution_init_population_num options - 0)
         "rule_prune" w1 = Ok ([], w2) →
       SearchModuleExprBests fuel options w = Ok ([], w2)
       ∧ SearchModuleExpr fuel options w = Undefined)
  ∧ (∀ topk sketch w1 w2 bests w',
       GetTopKCandidatesFromDatabase
         (evolution_pick_database_topk options) w = Ok (topk, w1) →
       InitSketch (evolution_init_population_num options
                   - Z.of_nat (length topk)) "rule_prune" w1
       = Ok (sketch, w2) →
       topk ++ sketch ≠ [] →
       1 ≤ num_samples_per_iteration options →
       num_samples_per_iteration options < 2 ^ 31 →
       SearchModuleExprBests fuel options w = Ok (bests, w') →
       ∃ s, bests !! 0%nat = Some s
            ∧ SearchModuleExpr fuel options w = Ok (s, w')).
Proof.
  assert (Hdef : SearchModuleExpr fuel options w
                 = obind (SearchModuleExprBests fuel options w)
                     (λ '(bests, w'), match bests with
                                      | s :: _ => Ok (s, w')
                                      | [] => Undefined
                                      end)).
  { unfold SearchModuleExpr, bind.
    destruct (SearchModuleExprBests fuel options w) as [[bests w']| | |];
      try reflexivity.
    simpl. destruct bests; reflexivity. }
  split_and!.
  - exact Hdef.
  - intros s w' E. rewrite Hdef in E.
    destruct (SearchModuleExprBests fuel options w) as [[bests w0]| | |] eqn:Eb;
      try discriminate.
    simpl in E. destruct bests as [|s0 bests]; [discriminate|].
    injection E as -> ->.
    unfold SearchModuleExprBests in Eb.
    apply bind_inv in Eb as (topk & w1 & Htopk & Eb).
    apply bind_inv in Eb as (sketch & w2 & Hsketch & Eb).
    exists (s :: bests), topk, sketch, w1, w2.
    split_and!; try reflexivity; try assumption.
    intros Hnil. rewrite Hnil, Evolve_empty in Eb. discriminate.
  - intros w1 w2 Htopk Hsketch.
    assert (Eb : SearchModuleExprBests fuel options w = Ok ([], w2)).
    { unfold SearchModuleExprBests.
      rewrite (bind_Ok _ _ _ _ _ Htopk). simpl length.
      rewrite (bind_Ok _ _ _ _ _ Hsketch). reflexivity. }
    split; [exact Eb|]. rewrite Hdef, Eb. reflexivity.
  - intros topk sketch w1 w2 bests w' Htopk Hsketch Hne Hnum Hnum' Eb.
    rewrite Hdef, Eb. simpl.
    unfold SearchModuleExprBests in Eb.
    rewrite (bind_Ok _ _ _ _ _ Htopk), (bind_Ok _ _ _ _ _ Hsketch) in Eb.
    apply Evolve_nonempty in Eb; try assumption.
    destruct bests as [|s bests]; [congruence|]. exists s. auto.
Qed.

(** ** The visited set *)

Lemma keeps_ret {A} (a : A) : keeps_visited (ret a).
Proof. intros w a' w' [= <- <-]. reflexivity. Qed.

Lemma keeps_bind {A B} (c : M A) (k : A → M B) :
  keeps_visited c → (∀ a, keeps_visited (k a)) → keeps_visited (bind c k).
Proof.
  intros Hc Hk w b w'' E. apply bind_inv in E as (a & w' & E1 & E2).
  rewrite (Hk _ _ _ _ E2). exact (Hc _ _ _ E1).
Qed.

Lemma keeps_fail_check {A} : keeps_visited (@fail_check _ _ A).
Proof. intros w a w' E. discriminate. Qed.

Lemma keeps_undefined {A} : keeps_visited (@undefined _ _ A).
Proof. intros w a w' E. discriminate. Qed.

Lemma keeps_pure {A} (f : World → A) : keeps_visited (λ w, Ok (f w, w)).
Proof. intros w a w' [= <- <-]. reflexivity. Qed.

Lemma keeps_sample lo hi : keeps_visited (sample_uniform_int lo hi).
Proof.
  intros w v w' E. apply sample_uniform_int_inv in E as [_ ->]. reflexivity.
Qed.

Lemma keeps_fork : keeps_visited fork_random_state.
Proof.
  intros w v w' E. apply fork_random_state_inv in E as (_ & E & _).
  apply E.
Qed.

Lemma keeps_IRCopy e : keeps_visited (IRCopy e).
Proof.
  intros w v w' E. apply IRCopy_inv in E as (n & _ & _ & _ & _ & ->).
  reflexivity.
Qed.

Lemma keeps_new_SearchState sch cost :
  keeps_visited (new_SearchState sch cost).
Proof.
  intros w v w' E. apply new_SearchState_inv in E as (_ & _ & _ & ->).
  reflexivity.
Qed.

Lemma keeps_GetExprs s : keeps_visited (GetExprs s).
Proof. intros w v w' E. apply GetExprs_inv in E as [-> _]. reflexivity. Qed.

Lemma keeps_CHECK_EQ a b : keeps_visited (CHECK_EQ a b).
Proof. intros w v w' E. apply CHECK_EQ_inv in E as [_ ->]. reflexivity. Qed.

Create HintDb keeps.

#[local] Hint Resolve keeps_ret keeps_fail_check keeps_undefined keeps_pure
  keeps_sample keeps_fork keeps_IRCopy keeps_new_SearchState keeps_GetExprs
  keeps_CHECK_EQ : keeps.

(** Goes through the binds of a method. *)
Ltac keeps :=
  repeat first
    [ solve [eauto with keeps]
    | apply keeps_bind; [|intros ?]
    | match goal with
      | |- keeps_visited (if ?b then _ else _) => destruct b
      | |- keeps_visited (match ?o with Some _ => _ | None => _ end) =>
          destruct o
      end ];
  eauto with keeps.

Lemma keeps_IRCopy_module es : keeps_visited (IRCopy_module es).
Proof. induction es; simpl; keeps. Qed.

Lemma keeps_cross_over_loop fs : ∀ ms, keeps_visited (cross_over_loop fs ms).
Proof. induction fs; intros [|m ms]; simpl; keeps. Qed.

#[local] Hint Resolve keeps_IRCopy_module keeps_cross_over_loop : keeps.

Lemma keeps_CrossOver s1 s2 : keeps_visited (CrossOver s1 s2).
Proof. unfold CrossOver. keeps. Qed.

Lemma keeps_resample fuel gn first second :
  keeps_visited (resample fuel gn first second).
Proof.
  intros w v w' E. unfold resample in E.
  destruct (while_loop _ _ _) as [[v0 s]| | |]; try discriminate.
  injection E as <- <-. reflexivity.
Qed.

Lemma keeps_at_index population i : keeps_visited (at_index population i).
Proof. unfold at_index. keeps. Qed.

#[local] Hint Resolve keeps_CrossOver keeps_resample keeps_at_index : keeps.

Lemma keeps_cross_over_iter fuel population gn n :
  ∀ evolution,
    keeps_visited (cross_over_iter fuel population gn n evolution).
Proof. induction n; intros evolution; simpl; keeps. Qed.

Lemma keeps_schedule_mutate s : keeps_visited (schedule_mutate s).
Proof.
  intros w v w' E. unfold schedule_mutate in E.
  destruct (GetScheduleMutate _ _ _ _) as [[s' sp] m].
  injection E as <- <-. reflexivity.
Qed.

#[local] Hint Resolve keeps_cross_over_iter keeps_schedule_mutate : keeps.

Lemma keeps_push_all max_size evolution :
  ∀ l, keeps_visited (push_all max_size evolution l).
Proof. induction evolution; intros l; simpl; keeps. Qed.

#[local] Hint Resolve keeps_push_all : keeps.

Lemma keeps_Evolve fuel population cross_over_num ret_num :
  keeps_visited (Evolve fuel population cross_over_num ret_num).
Proof. unfold Evolve. keeps. Qed.

Lemma keeps_replay_record task_key record :
  keeps_visited (replay_record task_key record).
Proof.
  unfold replay_record. keeps.
  intros w v w' E.
  destruct (ReplayWithProto _ _ _) as [[sch m]| | |]; try discriminate.
  injection E as <- <-. reflexivity.
Qed.

#[local] Hint Resolve keeps_Evolve keeps_replay_record : keeps.

Lemma keeps_replay_records task_key records :
  keeps_visited (replay_records task_key records).
Proof. induction records; simpl; keeps. Qed.

Lemma keeps_GetTopKCandidatesFromDatabase topk :
  keeps_visited (GetTopKCandidatesFromDatabase topk).
Proof.
  intros w v w' E. unfold GetTopKCandidatesFromDatabase in E.
  exact (keeps_replay_records _ _ _ _ _ E).
Qed.

Lemma keeps_InitSketch num strategy : keeps_visited (InitSketch num strategy).
Proof.
  intros w v w' E. unfold InitSketch in E.
  destruct (GenerateSketches _ _ _ _) as [[l sp] m].
  injection E as <- <-. reflexivity.
Qed.

#[local] Hint Resolve keeps_GetTopKCandidatesFromDatabase keeps_InitSketch
  : keeps.

Lemma keeps_SearchModuleExprBests fuel options :
  keeps_visited (SearchModuleExprBests fuel options).
Proof. unfold SearchModuleExprBests. keeps. Qed.

End SearchFacts.

(** ** The dice of a crossover *)

Lemma die_tapes_succ n :
  die_tapes (Datatypes.S n) 0 2
  = (cons 0 <$> die_tapes n 0 2) ++ (cons 1 <$> die_tapes n 0 2).
Proof.
  change (die_tapes (Datatypes.S n) 0 2)
    with (flat_map (λ d, cons d <$> die_tapes n 0 2) [0; 1]).
  simpl. rewrite app_nil_r. reflexivity.
Qed.

Lemma die_tapes_length n : length (die_tapes n 0 2) = (2 ^ n)%nat.
Proof.
  induction n as [|n IH]; [reflexivity|].
  rewrite die_tapes_succ, length_app, !length_fmap, IH. simpl. lia.
Qed.

Lemma die_tapes_elem n :
  ∀ t, t ∈ die_tapes n 0 2 →
       length t = n ∧ ∀ i d, t !! i = Some d → d = 0 ∨ d = 1.
Proof.
  induction n as [|n IH]; intros t Ht.
  - apply list_elem_of_singleton in Ht as ->. split; [reflexivity|].
    intros i d Hd. destruct i; discriminate.
  - rewrite die_tapes_succ in Ht. apply elem_of_app in Ht as [Ht | Ht];
      apply list_elem_of_fmap in Ht as (t' & -> & Ht');
      destruct (IH t' Ht') as [Hl Hd]; (split; [simpl; lia|]);
      intros [|i] d Hi; simpl in Hi; try (injection Hi as <-); eauto.
Qed.

(** The tape engine throws what the tape says. *)
Lemma dice_tape n :
  ∀ t, t ∈ die_tapes n 0 2 → dice (RE := tape_engine) n t = (t, []).
Proof.
  induction n as [|n IH]; intros t Ht.
  - apply list_elem_of_singleton in Ht as ->. reflexivity.
  - rewrite die_tapes_succ in Ht. apply elem_of_app in Ht as [Ht | Ht];
      apply list_elem_of_fmap in Ht as (t' & -> & Ht');
      simpl; rewrite (IH t' Ht'); reflexivity.
Qed.

Lemma filter_fmap_length {A B} (p : B → bool) (g : A → B) (l : list A) :
  length (List.filter p (g <$> l)) = length (List.filter (λ x, p (g x)) l).
Proof.
  induction l as [|x l IH]; [reflexivity|].
  change (g <$> x :: l) with (g x :: (g <$> l)). simpl.
  destruct (p (g x)); simpl; rewrite IH; reflexivity.
Qed.

Lemma filter_const_length {A} (b : bool) (l : list A) :
  length (List.filter (λ _, b) l) = if b then length l else 0%nat.
Proof.
  induction l as [|x l IH]; [destruct b; reflexivity|]. simpl.
  destruct b; simpl; rewrite IH; reflexivity.
Qed.

(** Among the tapes of [n] dice, position [i] shows [0] on one half and
    [1] on the other. *)
Lemma die_tapes_half n :
  ∀ i d, (i < n)%nat → d = 0 ∨ d = 1 →
    (2 * length (List.filter (λ t, bool_decide (t !! i = Some d))
                   (die_tapes n 0 2))
     = length (die_tapes n 0 2))%nat.
Proof.
  induction n as [|n IH]; intros i d Hi Hd; [lia|].
  rewrite die_tapes_succ, List.filter_app, !length_app, !filter_fmap_length,
    !length_fmap.
  destruct i as [|i]; simpl.
  - rewrite !filter_const_length.
    destruct Hd as [-> | ->]; simpl; lia.
  - pose proof (IH i d ltac:(lia) Hd). lia.
Qed.

Section ChancesFacts.
Context {C : Collaborators (list Z)}.

(** Which parent position [i] of the child comes from is what the die
    of that position says. *)
Lemma takes_from_die w state1 state2 o1 o2 n i f m t :
  state_heap (mem w) !! state1 = Some o1 →
  state_heap (mem w) !! state2 = Some o2 →
  length (module_expr (ir_schedule o1)) = n →
  length (module_expr (ir_schedule o2)) = n →
  on_heap (mem w) (module_expr (ir_schedule o1)
                   ++ module_expr (ir_schedule o2)) →
  module_expr (ir_schedule o1) !! i = Some f →
  module_expr (ir_schedule o2) !! i = Some m →
  ir_heap (mem w) !! f ≠ ir_heap (mem w) !! m →
  t ∈ die_tapes n 0 2 →
  takes_from w state1 i (CrossOver state1 state2 (set_rand_seed t w))
  = bool_decide (t !! i = Some 0)
  ∧ takes_from w state2 i (CrossOver state1 state2 (set_rand_seed t w))
    = bool_decide (t !! i = Some 1).
Proof.
  intros H1 H2 Hn1 Hn2 Hwf Hf Hm Hdiff Ht.
  set (wt := set_rand_seed t w).
  assert (Hwf' : ∀ e, e ∈ module_expr (ir_schedule o1)
                          ++ module_expr (ir_schedule o2) →
                      e ∈ dom (ir_heap (mem wt)))
    by (apply Forall_forall; exact Hwf).
  destruct (CrossOver_returns state1 state2 wt o1 o2 H1 H2 ltac:(lia) Hwf')
    as (child & w' & E).
  rewrite E.
  apply CrossOver_inv in E
    as (p1 & p2 & es & forked & E1 & E2 & Hlen & (w1 & Hloop & Hir) & _ & _
        & Hchild & Hst & _ & Hl & Hfresh).
  simpl in E1, E2.
  assert (p1 = o1) as -> by congruence.
  assert (p2 = o2) as -> by congruence.
  destruct (cross_over_loop_spec _ _ wt Hlen Hwf') as (es' & w1' & Hloop' & Hpos).
  rewrite Hloop in Hloop'. injection Hloop' as <- <-.
  simpl in Hpos. rewrite Hn1, (dice_tape n t Ht) in Hpos. simpl in Hpos.
  destruct (die_tapes_elem n t Ht) as [Htl Htd].
  assert (Hi : (i < n)%nat) by (rewrite <- Hn1; eapply lookup_lt_Some; eauto).
  destruct (lookup_lt_is_Some_2 t i ltac:(lia)) as [d Hd].
  destruct (Hpos i d f m Hd Hf Hm) as (ec & Hec & Hcontent).
  unfold takes_from.
  rewrite (exprs_of_lookup _ child
             (MkSearchState (MkIRSchedule es forked) NOT_INIT))
    by (rewrite Hst; apply lookup_insert_eq).
  rewrite (exprs_of_lookup _ _ _ H1), (exprs_of_lookup _ _ _ H2).
  simpl module_expr.
  rewrite Hec, Hf, Hm, Hir, Hcontent, Hd.
  assert (Hnew : ec ∉ dom (ir_heap (mem w))).
  { apply (Hfresh ec). eapply list_elem_of_lookup_2. exact Hec. }
  destruct (Htd i d Hd) as [-> | ->]; simpl.
  - split.
    + apply bool_decide_eq_true_2. auto.
    + apply bool_decide_eq_false_2. intros [_ Hc]. exact (Hdiff Hc).
  - split.
    + apply bool_decide_eq_false_2. intros [_ Hc]. apply Hdiff. congruence.
    + apply bool_decide_eq_true_2. auto.
Qed.

(** On every outcome of the dice the crossover returns, and position
    [i] of the child is a new node with the content of position [i] of
    the father when the die of that position shows [0], of the mother
    when it shows [1]. *)
Lemma CrossOver_on_tape w state1 state2 o1 o2 n i f m t :
  state_heap (mem w) !! state1 = Some o1 →
  state_heap (mem w) !! state2 = Some o2 →
  length (module_expr (ir_schedule o1)) = n →
  length (module_expr (ir_schedule o2)) = n →
  on_heap (mem w) (module_expr (ir_schedule o1)
                   ++ module_expr (ir_schedule o2)) →
  module_expr (ir_schedule o1) !! i = Some f →
  module_expr (ir_schedule o2) !! i = Some m →
  t ∈ die_tapes n 0 2 →
  ∃ d child w' ec,
    t !! i = Some d ∧ (d = 0 ∨ d = 1)
    ∧ CrossOver state1 state2 (set_rand_seed t w) = Ok (child, w')
    ∧ exprs_of (mem w') child !! i = Some ec
    ∧ (ec ∉ dom (ir_heap (mem w)))
    ∧ ir_heap (mem w') !! ec = ir_heap (mem w) !! (if d =? 0 then f else m).
Proof.
  intros H1 H2 Hn1 Hn2 Hwf Hf Hm Ht.
  set (wt := set_rand_seed t w).
  assert (Hwf' : ∀ e, e ∈ module_expr (ir_schedule o1)
                          ++ module_expr (ir_schedule o2) →
                      e ∈ dom (ir_heap (mem wt)))
    by (apply Forall_forall; exact Hwf).
  destruct (CrossOver_returns state1 state2 wt o1 o2 H1 H2 ltac:(lia) Hwf')
    as (child & w' & E).
  pose proof E as E'.
  apply CrossOver_inv in E'
    as (p1 & p2 & es & forked & E1 & E2 & Hlen & (w1 & Hloop & Hir) & _ & _
        & Hchild & Hst & _ & Hl & Hfresh).
  simpl in E1, E2.
  assert (p1 = o1) as -> by congruence.
  assert (p2 = o2) as -> by congruence.
  destruct (cross_over_loop_spec _ _ wt Hlen Hwf') as (es' & w1' & Hloop' & Hpos).
  rewrite Hloop in Hloop'. injection Hloop' as <- <-.
  simpl in Hpos. rewrite Hn1, (dice_tape n t Ht) in Hpos. simpl in Hpos.
  destruct (die_tapes_elem n t Ht) as [Htl Htd].
  assert (Hi : (i < n)%nat) by (rewrite <- Hn1; eapply lookup_lt_Some; eauto).
  destruct (lookup_lt_is_Some_2 t i ltac:(lia)) as [d Hd].
  destruct (Hpos i d f m Hd Hf Hm) as (ec & Hec & Hcontent).
  exists d, child, w', ec. split_and!.
  - exact Hd.
  - exact (Htd i d Hd).
  - exact E.
  - rewrite (exprs_of_lookup _ child
               (MkSearchState (MkIRSchedule es forked) NOT_INIT))
      by (rewrite Hst; apply lookup_insert_eq).
    exact Hec.
  - apply (Hfresh ec). eapply list_elem_of_lookup_2. exact Hec.
  - rewrite Hir. exact Hcontent.
Qed.

End ChancesFacts.

(** ** Examples *)

Lemma lcg_range : RandomEngineRange lcg_engine.
Proof.
  intros lo hi s Hlt. simpl.
  pose proof (Z.mod_pos_bound (lcg_next s) (hi - lo) ltac:(lia)). lia.
Qed.

Lemma tape_range : RandomEngineRange tape_engine.
Proof.
  intros lo hi [|d t] Hlt; simpl; [lia|].
  pose proof (Z.mod_pos_bound (d - lo) (hi - lo) ltac:(lia)). lia.
Qed.

Lemma outcome_returns {A} (o : outcome A) :
  (match o with Ok _ => true | _ => false end) = true → ∃ a, o = Ok a.
Proof. destruct o; try discriminate. eauto. Qed.



Lemma Evolve_single_parent_never_returns_witness :
  Evolve (C := DC) 5 [demo_father] 1 3 lcg_world = OutOfFuel.
Proof.
  apply (Evolve_single_parent_never_returns (C := DC) 5 demo_father 1 3
           lcg_world); [exact lcg_range | lia].
Defined.

Lemma CrossOver_checks_counts_witness :
  (1%nat ≠ 1%nat → CrossOver (C := DC) demo_father demo_mother lcg_world = CheckFailed)
  ∧ (1%nat = 1%nat →
     ∃ child w',
       CrossOver (C := DC) demo_father demo_mother lcg_world = Ok (child, w')
       ∧ length (exprs_of (mem w') child) = 1%nat).
Proof.
  apply (CrossOver_checks_counts (C := DC) demo_father demo_mother lcg_world
           (MkSearchState (MkIRSchedule [2%positive] 42) NOT_INIT)
           (MkSearchState (MkIRSchedule [3%positive] 42) NOT_INIT));
    try reflexivity.
  repeat constructor; apply elem_of_dom; eexists; reflexivity.
Defined.

Lemma CrossOver_leaves_parents_witness :
  ∃ child w',
    CrossOver (C := DC) demo_father demo_mother lcg_world = Ok (child, w')
    ∧ state_heap (mem w') !! demo_father
      = state_heap (mem lcg_world) !! demo_father
    ∧ state_heap (mem w') !! demo_mother
      = state_heap (mem lcg_world) !! demo_mother.
Proof.
  destruct (outcome_returns (CrossOver (C := DC) demo_father demo_mother lcg_world))
    as [[child w'] E].
  - vm_compute. reflexivity.
  - exists child, w'. split; [exact E|].
    destruct (CrossOver_leaves_parents (C := DC) demo_father demo_mother lcg_world child w' E)
      as (HA & HB & _).
    split; assumption.
Defined.

(** C7 as stated fails: with a record whose trace does not replay in
    front of one that does, the call dies on the failure, where
    dropping the record would have returned the other one. *)
Lemma warm_starts_counterexample :
  GetTopKCandidatesFromDatabase (C := DC) 2
    (demo_world (RE := lcg_engine) 42 [bad_record; good_record])
  = CheckFailed
  ∧ ∃ s w',
      replay_records_dropping (C := DC) () [bad_record; good_record]
        (demo_world (RE := lcg_engine) 42 [bad_record; good_record])
      = Ok ([s], w').
Proof.
  split; [vm_compute; reflexivity|].
  destruct (outcome_returns
              (replay_records_dropping (C := DC) () [bad_record; good_record]
                 (demo_world (RE := lcg_engine) 42 [bad_record; good_record])))
    as [[l w'] E]; [vm_compute; reflexivity|].
  assert (Hl : length l = 1%nat).
  { assert (Hc : (match replay_records_dropping (C := DC) ()
                          [bad_record; good_record]
                          (demo_world (RE := lcg_engine) 42
                             [bad_record; good_record]) with
                  | Ok (l0, _) => length l0
                  | _ => 0%nat
                  end) = 1%nat) by (vm_compute; reflexivity).
    rewrite E in Hc. exact Hc. }
  destruct l as [|s [|s' l]]; try discriminate. eauto.
Qed.

Lemma warm_starts_all_or_nothing_witness :
  (∀ l w',
     GetTopKCandidatesFromDatabase (C := DC) 2
       (demo_world (RE := lcg_engine) 42 [good_record; good_record])
     = Ok (l, w') → length l = 2%nat)
  ∧ ¬ returns (GetTopKCandidatesFromDatabase (C := DC) 2
                 (demo_world (RE := lcg_engine) 42 [bad_record; good_record])).
Proof.
  split.
  - intros l w' E.
    exact (proj1 (proj1 (warm_starts_all_or_nothing (C := DC) 2
                           (demo_world (RE := lcg_engine) 42
                              [good_record; good_record])) l w' E)).
  - apply (proj2 (warm_starts_all_or_nothing (C := DC) 2
                    (demo_world (RE := lcg_engine) 42
                       [bad_record; good_record])) bad_record).
    + vm_compute. apply list_elem_of_here.
    + intros sch m [a Ha]. vm_compute in Ha. discriminate.
Defined.

Lemma SearchModuleExpr_needs_population_witness :
  SearchModuleExpr (C := DC) 10 (MkTuningOptions 2 0 0 1 float_half) lcg_world
  = Undefined.
Proof.
  apply (proj1 (proj2 (proj2 (SearchModuleExpr_needs_population (C := DC) 10
                                (MkTuningOptions 2 0 0 1 float_half)
                                lcg_world)))
           lcg_world lcg_world); reflexivity.
Defined.

(** * Further properties *)

(** ** The pick at the ends of its parameters *)

Section PickEdges.
Context {State K : Type} `{Countable K}.
Variable fingerprint : State → K.

Local Abbreviation take_from := (dedup_take fingerprint).

(** Filling slots from two supplies in a row is filling them from the
    supplies put end to end. *)
Lemma dedup_take_app l1 :
  ∀ n v l2,
    (take_from n v (l1 ++ l2)).1
    = let t1 := take_from n v l1 in
      let t2 := take_from (n - length t1.1.1) t1.1.2 l2 in
      (t1.1.1 ++ t2.1.1, t2.1.2).
Proof.
  induction l1 as [|x l1 IH]; intros n v l2.
  - rewrite take_from_nil. simpl. rewrite Nat.sub_0_r.
    destruct (take_from n v l2) as [[k v'] rest]. reflexivity.
  - destruct n as [|n]; simpl.
    { rewrite take_from_zero. reflexivity. }
    destruct (decide (fingerprint x ∈ v)) as [Hin | Hin].
    + apply (IH (Datatypes.S n)).
    + specialize (IH n ({[fingerprint x]} ∪ v) l2).
      destruct (take_from n _ (l1 ++ l2)) as [[k v'] rest].
      destruct (take_from n _ l1) as [[k1 v1] rest1].
      simpl in *. injection IH as -> ->. reflexivity.
Qed.

(** When no slot is kept for the randoms, the three phases of the pick
    are one pass over the bests followed by the randoms. *)
Lemma slots_bests_first n nb v bests randoms :
  (n ≤ nb)%nat →
  eps_greedy_slots fingerprint n nb v bests randoms
  = (take_from n v (bests ++ randoms)).1.
Proof.
  intros Hle. unfold eps_greedy_slots. rewrite dedup_take_app.
  replace (nb `min` n)%nat with n by lia.
  destruct (take_from n v bests) as [[k1 v1] rest1] eqn:E1. simpl.
  apply take_from_spec in E1 as (L1 & _ & _ & _ & _ & _ & F1).
  destruct F1 as [F1 | ->].
  - replace (n - length k1)%nat with 0%nat by lia.
    rewrite take_from_zero. simpl. rewrite take_from_zero. reflexivity.
  - destruct (take_from (n - length k1) v1 randoms) as [[k2 v2] rest2].
    rewrite take_from_nil. simpl. rewrite app_nil_r. reflexivity.
Qed.

(** When every slot is kept for the randoms, they are one pass over
    the randoms followed by the bests. *)
Lemma slots_randoms_first n v bests randoms :
  eps_greedy_slots fingerprint n 0 v bests randoms
  = (take_from n v (randoms ++ bests)).1.
Proof.
  unfold eps_greedy_slots. rewrite dedup_take_app.
  rewrite Nat.min_0_l, take_from_zero. simpl. rewrite Nat.sub_0_r.
  destruct (take_from n v randoms) as [[k2 v2] rest2].
  simpl.
  destruct (take_from (n - length k2) v2 bests) as [[k3 v3] rest3].
  reflexivity.
Qed.

(** X1: when the number of random slots that the code computes is not
    positive, or is more than [num], every slot is a best slot: the
    pick returns the first [num] candidates of [picked_bests] followed
    by [random_init] that are new to the visited set.  A fraction of
    zero gives this, and so does a fraction that is not in [[0, 1]],
    which the code does not refuse: a negative [num_bests] is compared
    as a [size_t]. *)
Theorem pick_all_best_slots (picked_bests random_init : list State)
    (num : Z) (eps_greedy : float32) (visited0 : gset K) (num_rand : Z) :
  0 ≤ num → num < 2 ^ 31 →
  num_rands num eps_greedy = Some num_rand →
  in_int_range (num - num_rand) = true →
  num_rand ≤ 0 ∨ num < num_rand →
  PickNextGenerationEpsGreedy fingerprint picked_bests random_init num
    eps_greedy visited0
  = Ok (take_from (Z.to_nat num) visited0 (picked_bests ++ random_init)).1.
Proof.
  intros Hn0 Hn E Hr Hout.
  rewrite (pick_returns_slots _ _ _ _ _ _ _ E). f_equal.
  assert (H31 : 2 ^ 31 < 2 ^ 64) by (apply Z.pow_lt_mono_r; lia).
  rewrite (to_size_t_small num) by lia.
  apply slots_bests_first.
  unfold in_int_range in Hr. apply andb_true_iff in Hr as [Hlo Hhi].
  apply Z.leb_le in Hlo. apply Z.ltb_lt in Hhi.
  destruct Hout as [Hneg | Hbig].
  - rewrite to_size_t_small by lia. lia.
  - unfold to_size_t.
    replace ((num - num_rand) mod 2 ^ 64) with (num - num_rand + 2 ^ 64).
    + lia.
    + apply Z.mod_unique with (q := -1); lia.
Qed.

(** X2: when every slot is a random slot, as with a fraction of one,
    the pick returns the first [num] candidates of [random_init]
    followed by [picked_bests] that are new to the visited set. *)
Theorem pick_all_random_slots (picked_bests random_init : list State)
    (num : Z) (eps_greedy : float32) (visited0 : gset K) :
  0 ≤ num → num < 2 ^ 31 →
  num_rands num eps_greedy = Some num →
  PickNextGenerationEpsGreedy fingerprint picked_bests random_init num
    eps_greedy visited0
  = Ok (take_from (Z.to_nat num) visited0 (random_init ++ picked_bests)).1.
Proof.
  intros Hn0 Hn E.
  rewrite (pick_returns_slots _ _ _ _ _ _ _ E). f_equal.
  assert (H31 : 2 ^ 31 < 2 ^ 64) by (apply Z.pow_lt_mono_r; lia).
  rewrite (to_size_t_small num) by lia.
  rewrite Z.sub_diag. change (Z.to_nat (to_size_t 0)) with 0%nat.
  apply slots_randoms_first.
Qed.

(** X3: a negative budget does not ask for nothing.  Compared with
    [result.size()] it is a [size_t] near [2^64], so the loop is left
    only when both supplies are used up: every candidate that is new to
    the visited set is returned, once, and recorded. *)
Theorem pick_negative_budget (picked_bests random_init : list State)
    (num : Z) (eps_greedy : float32) (visited0 : gset K) (num_rand : Z) :
  - 2 ^ 31 ≤ num → num < 0 →
  num_rands num eps_greedy = Some num_rand →
  in_int_range (num - num_rand) = true →
  Z.of_nat (length picked_bests + length random_init) < 2 ^ 63 →
  ∃ res visited',
    PickNextGenerationEpsGreedy fingerprint picked_bests random_init num
      eps_greedy visited0 = Ok (res, visited')
    ∧ visited'
      = visited0 ∪ list_to_set (fingerprint <$> picked_bests ++ random_init)
    ∧ length res
      = size ((list_to_set (fingerprint <$> picked_bests ++ random_init)
               : gset K) ∖ visited0)
    ∧ NoDup (fingerprint <$> res).
Proof.
  intros Hlo Hneg E _ Hlen.
  rewrite (pick_returns_slots _ _ _ _ _ _ _ E).
  destruct (eps_greedy_slots _ _ _ _ _ _) as [res v'] eqn:Es.
  exists res, v'. split; [reflexivity|].
  apply slots_spec in Es as (_ & Hnd & Hnew & Hv & Hsub & Hsize & Hall).
  set (F := (list_to_set (fingerprint <$> picked_bests ++ random_init)
             : gset K)) in *.
  assert (Hin : v' ⊆ visited0 ∪ F).
  { rewrite Hv. intros y Hy. apply elem_of_union in Hy as [Hy | Hy].
    - apply elem_of_union_l. exact Hy.
    - apply elem_of_union_r. apply elem_of_list_to_set in Hy.
      apply list_elem_of_fmap in Hy as (x & -> & Hx).
      apply elem_of_list_to_set, list_elem_of_fmap. exists x. split; auto. }
  assert (Hup : (size v' ≤ size visited0 + size (F ∖ visited0))%nat).
  { rewrite <- size_union_alt. apply subseteq_size. exact Hin. }
  assert (HF : (size (F ∖ visited0)
                ≤ length picked_bests + length random_init)%nat).
  { etransitivity; [apply subseteq_size, subseteq_difference_l; reflexivity|].
    unfold F. etransitivity; [apply size_list_to_set_length|].
    rewrite length_fmap, length_app. reflexivity. }
  assert (Hbig : (length res < Z.to_nat (to_size_t num))%nat).
  { unfold to_size_t.
    replace (num mod 2 ^ 64) with (num + 2 ^ 64).
    - assert (2 ^ 63 + 2 ^ 31 < 2 ^ 64) by (vm_compute; reflexivity). lia.
    - assert (2 ^ 31 < 2 ^ 64) by (apply Z.pow_lt_mono_r; lia).
      apply Z.mod_unique with (q := -1); lia. }
  assert (Heq : v' = visited0 ∪ F).
  { apply set_eq. intros y. split; [apply Hin|].
    intros Hy. apply elem_of_union in Hy as [Hy | Hy].
    - rewrite Hv. apply elem_of_union_l. exact Hy.
    - apply (Hall Hbig). exact Hy. }
  split_and!; [exact Heq | | exact Hnd].
  rewrite Heq, size_union_alt in Hsize. lia.
Qed.

(** What a loop keeps at every iteration holds when it is left, and
    then the body does not run again. *)
Lemma while_loop_invariant {S : Type} (step : S → option S) (P : S → Prop) :
  (∀ st st', P st → step st = Some st' → P st') →
  ∀ fuel st r,
    P st → while_loop step fuel st = Ok r → P r ∧ step r = None.
Proof.
  intros Hstep fuel. induction fuel as [|fuel IH]; intros st r HP E;
    simpl in E; destruct (step st) as [st'|] eqn:Es; try discriminate.
  - injection E as <-. auto.
  - apply (IH st' r); [eapply Hstep; eauto | exact E].
  - injection E as <-. auto.
Qed.

(** X4: the counters of the loop.  When the loop of the pick is left,
    [best_idx] and [rand_idx] are within the supplies, every candidate
    that was taken from a supply has been either kept in [result] or
    counted in [deduplicated_cnt], and the loop has been left because
    the budget is reached or because both supplies are used up. *)
Theorem pick_loop_counts (picked_bests random_init : list State)
    (num num_bests : Z) (visited0 : gset K) (fuel : nat)
    (st : pick_state (State := State) (K := K)) :
  while_loop (pick_step fingerprint picked_bests random_init num num_bests)
    fuel (pick_init visited0) = Ok st →
  0 ≤ best_idx st ≤ Z.of_nat (length picked_bests)
  ∧ 0 ≤ rand_idx st ≤ Z.of_nat (length random_init)
  ∧ deduplicated_cnt st + Z.of_nat (length (result st))
    = best_idx st + rand_idx st
  ∧ (to_size_t num ≤ Z.of_nat (length (result st))
     ∨ (best_idx st = Z.of_nat (length picked_bests)
        ∧ rand_idx st = Z.of_nat (length random_init))).
Proof.
  intros E.
  set (P := λ st : pick_state (State := State) (K := K),
         0 ≤ best_idx st ≤ Z.of_nat (length picked_bests)
         ∧ 0 ≤ rand_idx st ≤ Z.of_nat (length random_init)
         ∧ deduplicated_cnt st + Z.of_nat (length (result st))
           = best_idx st + rand_idx st).
  assert (Hsel : ∀ s x bi ri,
            P s →
            pick_select picked_bests random_init num_bests s
            = Some (x, bi, ri) →
            0 ≤ bi ≤ Z.of_nat (length picked_bests)
            ∧ 0 ≤ ri ≤ Z.of_nat (length random_init)
            ∧ bi + ri = best_idx s + rand_idx s + 1).
  { intros s x bi ri (Hb & Hr & Hc) Hs. unfold pick_select, int_lt_size in Hs.
    destruct (size_lt_int _ _ && _) eqn:C1.
    - apply andb_true_iff in C1 as [_ C1]. apply Z.ltb_lt in C1.
      destruct (picked_bests !! _); [|discriminate].
      injection Hs as <- <- <-. lia.
    - destruct (rand_idx s <? _) eqn:C2.
      + apply Z.ltb_lt in C2. destruct (random_init !! _); [|discriminate].
        injection Hs as <- <- <-. lia.
      + destruct (best_idx s <? _) eqn:C3; [|discriminate].
        apply Z.ltb_lt in C3. destruct (picked_bests !! _); [|discriminate].
        injection Hs as <- <- <-. lia. }
  assert (Hkeep : ∀ s s',
            P s →
            pick_step fingerprint picked_bests random_init num num_bests s
            = Some s' → P s').
  { intros s s' HP Hs. unfold pick_step in Hs.
    destruct (size_lt_int _ num); [|discriminate].
    destruct (pick_select _ _ _ s) as [[[x bi] ri]|] eqn:Ex; [|discriminate].
    destruct (Hsel _ _ _ _ HP Ex) as (Hb & Hr & Hc).
    destruct HP as (_ & _ & Hcnt). simpl in Hs.
    destruct (decide _); injection Hs as <-; unfold P; simpl;
      rewrite ?length_app; simpl; lia. }
  destruct (while_loop_invariant _ P Hkeep fuel (pick_init visited0) st)
    as [HP Hexit]; [unfold P; simpl; lia | exact E |].
  destruct HP as (Hb & Hr & Hc).
  split; [exact Hb|]. split; [exact Hr|]. split; [exact Hc|].
  unfold pick_step in Hexit.
  destruct (size_lt_int _ num) eqn:Cn.
  - right. unfold pick_select, int_lt_size in Hexit.
    destruct (size_lt_int _ _ && _) eqn:C1.
    { apply andb_true_iff in C1 as [_ C1]. apply Z.ltb_lt in C1.
      destruct (lookup_lt_is_Some_2 picked_bests (Z.to_nat (best_idx st))
                  ltac:(lia)) as [x Hx].
      rewrite Hx in Hexit. simpl in Hexit. destruct (decide _); discriminate. }
    destruct (rand_idx st <? _) eqn:C2.
    { apply Z.ltb_lt in C2.
      destruct (lookup_lt_is_Some_2 random_init (Z.to_nat (rand_idx st))
                  ltac:(lia)) as [x Hx].
      rewrite Hx in Hexit. simpl in Hexit. destruct (decide _); discriminate. }
    destruct (best_idx st <? _) eqn:C3.
    { apply Z.ltb_lt in C3.
      destruct (lookup_lt_is_Some_2 picked_bests (Z.to_nat (best_idx st))
                  ltac:(lia)) as [x Hx].
      rewrite Hx in Hexit. simpl in Hexit. destruct (decide _); discriminate. }
    apply Z.ltb_ge in C2, C3. lia.
  - left. unfold size_lt_int in Cn. apply Z.ltb_ge in Cn. exact Cn.
Qed.

(** X5: a fraction that is NaN or infinite leaves the pick without
    defined behaviour, whatever the budget: the product
    [num * eps_greedy] is then NaN or infinite, and has no [int]
    value. *)
Theorem pick_undefined_fraction (picked_bests random_init : list State)
    (num : Z) (visited0 : gset K) :
  PickNextGenerationEpsGreedy fingerprint picked_bests random_init num
    S754_nan visited0 = Undefined
  ∧ ∀ s, PickNextGenerationEpsGreedy fingerprint picked_bests random_init
           num (S754_infinity s) visited0 = Undefined.
Proof.
  unfold PickNextGenerationEpsGreedy, num_rands, fmul32, SFmul.
  split; [|intros s]; destruct (int_to_float num); reflexivity.
Qed.
End PickEdges.

(** ** More on the methods *)

Section MethodFacts.
Context {StateType : Type} {RE : RandomEngine StateType}.
Context {C : Collaborators StateType}.

Lemma dice_length n : ∀ s : StateType, length (dice n s).1 = n.
Proof.
  induction n as [|n IH]; intros s; simpl; [reflexivity|].
  destruct (SampleUniformInt 0 2 s) as [d s1].
  specialize (IH s1). destruct (dice n s1) as [ds s2]. simpl in *. lia.
Qed.

(** The nodes that the loop of [CrossOver] allocates are the ones it
    returns, each of them once. *)
Lemma cross_over_loop_footprint fs :
  ∀ ms w es w',
    length fs = length ms →
    cross_over_loop fs ms w = Ok (es, w') →
    dom (ir_heap (mem w')) = list_to_set es ∪ dom (ir_heap (mem w))
    ∧ NoDup es.
Proof.
  induction fs as [|f fs IH]; intros ms w es w' Hlen Hrun.
  - destruct ms; [|discriminate]. injection Hrun as <- <-.
    split; [set_solver | constructor].
  - destruct ms as [|m ms]; [discriminate|]. simpl in Hlen, Hrun.
    apply bind_inv in Hrun as (d & w1 & Hd & Hrun).
    apply bind_inv in Hrun as (e & w2 & He & Hrun).
    apply bind_inv in Hrun as (r & w3 & Hr & Hrun).
    injection Hrun as <- <-.
    apply sample_uniform_int_inv in Hd as [_ ->].
    assert (Hcopy : IRCopy (if d =? 0 then f else m)
                      (set_rand_seed
                         (SampleUniformInt 0 2 (rand_seed_ (this w))).2 w)
                    = Ok (e, w2)) by (destruct (d =? 0); exact He).
    apply IRCopy_inv in Hcopy as (n & _ & Hfresh & Hheap & _ & _).
    simpl in Hfresh, Hheap.
    destruct (IH ms w2 r w3 ltac:(lia) Hr) as (Hdom & Hnd).
    destruct (cross_over_loop_frame fs ms w2 r w3 ltac:(lia) Hr)
      as (_ & _ & _ & _ & _ & Hnew).
    split.
    + rewrite Hdom, Hheap, dom_insert_L. set_solver.
    + constructor; [|exact Hnd]. intros Hin. apply (Hnew e Hin).
      rewrite Hheap, dom_insert_L. set_solver.
Qed.

(** X6: the heap after a crossover is the heap before it with the child
    and the expressions of the child added: one new state, and one new
    node for each position, no two positions sharing a node.  Nothing
    else is allocated, and nothing is freed. *)
Theorem CrossOver_footprint A B w child w' :
  CrossOver A B w = Ok (child, w') →
  dom (state_heap (mem w')) = {[child]} ∪ dom (state_heap (mem w))
  ∧ dom (ir_heap (mem w'))
    = list_to_set (exprs_of (mem w') child) ∪ dom (ir_heap (mem w))
  ∧ NoDup (exprs_of (mem w') child)
  ∧ length (exprs_of (mem w') child) = length (exprs_of (mem w) A)
  ∧ (child ∉ dom (state_heap (mem w)))
  ∧ (∀ e, e ∈ exprs_of (mem w') child → e ∉ dom (ir_heap (mem w))).
Proof.
  intros E.
  apply CrossOver_inv in E
    as (o1 & o2 & es & forked & E1 & E2 & Hlen & (w1 & Hloop & Hir) & _ & _
        & Hchild & Hst & _ & Hl & Hfresh).
  destruct (cross_over_loop_footprint _ _ _ _ _ Hlen Hloop) as (Hdom & Hnd).
  rewrite (exprs_of_lookup _ child
             (MkSearchState (MkIRSchedule es forked) NOT_INIT))
    by (rewrite Hst; apply lookup_insert_eq).
  rewrite (exprs_of_lookup _ _ _ E1). simpl.
  split_and!; try assumption.
  - rewrite Hst, dom_insert_L. reflexivity.
  - rewrite Hir. exact Hdom.
Qed.

(** X7: parents that are the same candidate have a child that is this
    candidate again, whatever the dice: when the fingerprints of the
    two parents are equal, the fingerprint of the child is equal to
    them.  So is the child of a state crossed with itself. *)
Theorem CrossOver_equal_fingerprints A B w child w' :
  on_heap (mem w) (exprs_of (mem w) A ++ exprs_of (mem w) B) →
  fingerprint (mem w) A = fingerprint (mem w) B →
  CrossOver A B w = Ok (child, w') →
  fingerprint (mem w') child = fingerprint (mem w) A.
Proof.
  intros Hwf Hfp E.
  apply CrossOver_inv in E
    as (o1 & o2 & es & forked & E1 & E2 & Hlen & (w1 & Hloop & Hir) & _ & _
        & Hchild & Hst & _ & Hl & Hfresh).
  rewrite (exprs_of_lookup _ _ _ E1), (exprs_of_lookup _ _ _ E2) in Hwf.
  assert (Hwf' : ∀ e, e ∈ module_expr (ir_schedule o1)
                          ++ module_expr (ir_schedule o2) →
                      e ∈ dom (ir_heap (mem w)))
    by (apply Forall_forall; exact Hwf).
  destruct (cross_over_loop_spec _ _ w Hlen Hwf') as (es' & w1' & Hloop' & Hpos).
  rewrite Hloop in Hloop'. injection Hloop' as <- <-.
  unfold fingerprint in *. rewrite E1, E2 in Hfp. rewrite E1.
  rewrite Hst, lookup_insert_eq. simpl.
  apply list_eq. intros i. rewrite !list_lookup_fmap.
  destruct (module_expr (ir_schedule o1) !! i) as [f|] eqn:Hf.
  - destruct (lookup_lt_is_Some_2 (module_expr (ir_schedule o2)) i) as [m Hm].
    { rewrite <- Hlen. eapply lookup_lt_Some. exact Hf. }
    destruct (lookup_lt_is_Some_2
                (dice (length (module_expr (ir_schedule o1)))
                   (rand_seed_ (this w))).1 i) as [d Hd].
    { rewrite dice_length. eapply lookup_lt_Some. exact Hf. }
    destruct (Hpos i d f m Hd Hf Hm) as (ec & Hec & Hcontent).
    rewrite Hec. simpl. rewrite Hir, Hcontent. f_equal.
    destruct (d =? 0); [reflexivity|].
    apply (f_equal (λ l : list (option IrNode), l !! i)) in Hfp.
    rewrite !list_lookup_fmap, Hf, Hm in Hfp. simpl in Hfp.
    congruence.
  - apply lookup_ge_None in Hf. rewrite <- Hl in Hf.
    rewrite (lookup_ge_None_2 es i Hf). reflexivity.
Qed.

(** X8: the second parent of a crossover.  When the loop that draws it
    again is left, the second index is not the first one; it is a
    valid index of the population when the first draw of it was; and
    when the first draw already differed, nothing more is drawn. *)
Theorem Evolve_second_index fuel generation_num first_rand_idx
    second_rand_idx w r w' :
  resample fuel generation_num first_rand_idx second_rand_idx w
  = Ok (r, w') →
  r ≠ first_rand_idx
  ∧ (RandomEngineRange RE → 0 ≤ second_rand_idx < generation_num →
     0 ≤ r < generation_num)
  ∧ (second_rand_idx ≠ first_rand_idx →
     r = second_rand_idx ∧ rand_seed_ (this w') = rand_seed_ (this w)).
Proof.
  unfold resample. intros E.
  destruct (while_loop _ fuel _) as [[second s]| | |] eqn:Ew; try discriminate.
  injection E as <- <-.
  split_and!.
  - destruct (while_loop_invariant _ (λ _, True) (λ _ _ _ _, I) _ _ _ I Ew)
      as [_ Hexit].
    unfold resample_step in Hexit. simpl in Hexit.
    destruct (first_rand_idx =? second) eqn:Eq; [discriminate|].
    apply Z.eqb_neq in Eq. congruence.
  - intros Hrange Hin.
    assert (Hkeep : ∀ st st' : Z * StateType,
              0 ≤ st.1 < generation_num →
              resample_step generation_num first_rand_idx st = Some st' →
              0 ≤ st'.1 < generation_num).
    { intros st st' Hst Hs. unfold resample_step in Hs.
      destruct (first_rand_idx =? st.1); [|discriminate].
      injection Hs as <-. apply Hrange. lia. }
    destruct (while_loop_invariant _ _ Hkeep fuel
                (second_rand_idx, rand_seed_ (this w)) (second, s) Hin Ew)
      as [HP _].
    exact HP.
  - intros Hne.
    assert (Hexit : resample_step generation_num first_rand_idx
                      (second_rand_idx, rand_seed_ (this w)) = None).
    { unfold resample_step. simpl.
      destruct (first_rand_idx =? second_rand_idx) eqn:Eq; [|reflexivity].
      apply Z.eqb_eq in Eq. congruence. }
    rewrite (while_loop_exit _ _ _ Hexit) in Ew. injection Ew as <- <-.
    auto.
Qed.

Lemma push_all_seed max_size evolution :
  ∀ l w r w',
    push_all max_size evolution l w = Ok (r, w') →
    rand_seed_ (this w') = rand_seed_ (this w).
Proof.
  induction evolution as [|s evolution IH]; intros l w r w' E; simpl in E.
  - injection E as <- <-. reflexivity.
  - apply bind_inv in E as (s' & w1 & Hs & E).
    apply bind_inv in E as (l1 & w2 & Hpush & E).
    injection Hpush as <- <-. rewrite (IH _ _ _ _ E).
    unfold schedule_mutate in Hs.
    destruct (GetScheduleMutate _ _ _ _) as [[s0 sp] m].
    injection Hs as <- <-. reflexivity.
Qed.

(** X9: when no crossover is asked for, [Evolve] returns without a loop
    to wait for and without a draw: the random state of the search and
    the visited set are as before. *)
Theorem Evolve_without_crossover fuel population cross_over_num ret_num w :
  cross_over_num ≤ 0 →
  ∃ r w',
    Evolve fuel population cross_over_num ret_num w = Ok (r, w')
    ∧ rand_seed_ (this w') = rand_seed_ (this w)
    ∧ visited_candidates_ (this w') = visited_candidates_ (this w).
Proof.
  intros Hnum.
  destruct (Evolve_without_crossover_returns fuel population cross_over_num
              ret_num w Hnum) as [[r w'] E].
  exists r, w'. split; [exact E|]. split.
  - unfold Evolve in E.
    destruct (Z.of_nat (length population) =? 0).
    { injection E as <- <-. reflexivity. }
    replace (Z.to_nat cross_over_num) with 0%nat in E by lia. simpl in E.
    apply bind_inv in E as (ev & w1 & Hret & E). injection Hret as <- <-.
    exact (push_all_seed _ _ _ _ _ _ E).
  - exact (keeps_Evolve _ _ _ _ _ _ _ E).
Qed.

(** *** Warm starts *)

Lemma IRCopy_module_inv es :
  ∀ w r w',
    IRCopy_module es w = Ok (r, w') →
    this w' = this w ∧ state_heap (mem w') = state_heap (mem w).
Proof.
  induction es as [|e es IH]; intros w r w' E; simpl in E.
  - injection E as <- <-. auto.
  - apply bind_inv in E as (e' & w1 & He & E).
    apply bind_inv in E as (r1 & w2 & Hr & E). injection E as <- <-.
    apply IRCopy_inv in He as (n & _ & _ & _ & Hst & Hthis).
    destruct (IH _ _ _ Hr) as [Hthis' Hst']. split; congruence.
Qed.

(** Replaying a record forks the random state of the search once and
    allocates the state of the record. *)
Lemma replay_record_spec task_key record w s w' :
  replay_record task_key record w = Ok (s, w') →
  rand_seed_ (this w') = (ForkRandomState (rand_seed_ (this w))).2
  ∧ same_members w w'
  ∧ (replay_keeps_states →
     (s ∉ dom (state_heap (mem w)))
     ∧ ∃ sch, state_heap (mem w')
              = <[s := MkSearchState sch (record_predicted_cost record)]>
                  (state_heap (mem w))).
Proof.
  unfold replay_record. intros E.
  apply bind_inv in E as (exprs & w1 & Hcopy & E).
  apply bind_inv in E as (seed & w2 & Hfork & E).
  apply bind_inv in E as (sch & w3 & Hreplay & E).
  apply IRCopy_module_inv in Hcopy as [Hthis1 Hst1].
  apply fork_random_state_inv in Hfork as (Hfork & Hsame2 & Hmem2).
  destruct (ReplayWithProto (trace record) (MkIRSchedule exprs seed) (mem w2))
    as [[sch' m']| | |] eqn:Er; try discriminate.
  simpl in Hreplay. injection Hreplay as <- <-.
  apply new_SearchState_inv in E as (Hnew & Hst & _ & Hthis). simpl in *.
  rewrite Hthis1 in Hfork.
  split_and!.
  - rewrite Hthis, Hfork. reflexivity.
  - destruct Hsame2 as (A1 & A2 & A3 & A4 & A5).
    unfold same_members. rewrite Hthis, A1, A2, A3, A4, A5, Hthis1.
    repeat split.
  - intros Hkeep. apply Hkeep in Er.
    rewrite Er, Hmem2, Hst1 in Hnew, Hst. split; [exact Hnew|].
    exists sch'. exact Hst.
Qed.

(** X10: the warm starts cost the search one fork of its random state
    for each record, and nothing else of the object: the task, the cost
    model, the database, the search space and the visited set are as
    before. *)
Theorem warm_starts_fork_per_record topk w l w' :
  GetTopKCandidatesFromDatabase topk w = Ok (l, w') →
  rand_seed_ (this w') = forked (length l) (rand_seed_ (this w))
  ∧ same_members w w'.
Proof.
  unfold GetTopKCandidatesFromDatabase.
  generalize (GetTopK (database_ (this w)) (serialized_key (tune_task_ (this w)))
                topk) as records.
  generalize (serialized_key (tune_task_ (this w))) as task_key.
  intros task_key records. revert w l.
  induction records as [|record records IH]; intros w l E; simpl in E.
  - injection E as <- <-. split; [reflexivity | apply same_members_refl].
  - apply bind_inv in E as (s & w1 & Hs & E).
    apply bind_inv in E as (r & w2 & Hr & E). injection E as <- <-.
    apply replay_record_spec in Hs as (Hseed & Hsame & _).
    destruct (IH _ _ Hr) as [Hseed' Hsame']. split.
    + simpl. rewrite Hseed', Hseed. reflexivity.
    + eapply same_members_trans; eassumption.
Qed.

(** X11: when the replay leaves the states on the heap alone, the warm
    starts are new states, one for each record and in the order of the
    records, no state twice; each holds the predicted cost of its
    record; and the states that existed are as they were. *)
Theorem warm_starts_costs topk w l w' :
  replay_keeps_states →
  GetTopKCandidatesFromDatabase topk w = Ok (l, w') →
  NoDup l
  ∧ (∀ s, s ∈ l → s ∉ dom (state_heap (mem w)))
  ∧ Forall2 (λ s record,
       ∃ o, state_heap (mem w') !! s = Some o
            ∧ predicted_cost o = record_predicted_cost record)
      l (GetTopK (database_ (this w)) (serialized_key (tune_task_ (this w)))
           topk)
  ∧ (∀ s, s ∈ dom (state_heap (mem w)) →
          state_heap (mem w') !! s = state_heap (mem w) !! s).
Proof.
  intros Hkeep. unfold GetTopKCandidatesFromDatabase.
  generalize (GetTopK (database_ (this w)) (serialized_key (tune_task_ (this w)))
                topk) as records.
  generalize (serialized_key (tune_task_ (this w))) as task_key.
  intros task_key records. revert w l.
  induction records as [|record records IH]; intros w l E; simpl in E.
  - injection E as <- <-. split_and!; auto; try constructor.
    intros s Hs. inversion Hs.
  - apply bind_inv in E as (s & w1 & Hs & E).
    apply bind_inv in E as (r & w2 & Hr & E). injection E as <- <-.
    apply replay_record_spec in Hs as (_ & _ & Hs).
    destruct (Hs Hkeep) as (Hnew & sch & Hst).
    destruct (IH _ _ Hr) as (Hnd & Hfresh & Hcost & Hframe).
    assert (Hin : s ∈ dom (state_heap (mem w1))).
    { rewrite Hst, dom_insert_L. set_solver. }
    split_and!.
    + constructor; [|exact Hnd]. intros Hs'. exact (Hfresh _ Hs' Hin).
    + intros x Hx. apply elem_of_cons in Hx as [-> | Hx]; [exact Hnew|].
      intros Hd. apply (Hfresh _ Hx). rewrite Hst, dom_insert_L. set_solver.
    + constructor; [|exact Hcost]. cbv beta.
      eexists. split.
      * etransitivity; [exact (Hframe _ Hin)|].
        rewrite Hst. apply lookup_insert_eq.
      * reflexivity.
    + intros x Hx. etransitivity.
      * apply Hframe. rewrite Hst, dom_insert_L. set_solver.
      * rewrite Hst. apply lookup_insert_ne. intros ->. exact (Hnew Hx).
Qed.

(** X12: [SearchModuleExpr] and [SearchModuleExprBests] do not touch
    the visited set: what they return is not recorded, and only the
    epsilon-greedy pick adds to [visited_candidates_]. *)
Theorem SearchModuleExpr_keeps_visited fuel options w :
  (∀ s w', SearchModuleExpr fuel options w = Ok (s, w') →
           visited_candidates_ (this w') = visited_candidates_ (this w))
  ∧ (∀ l w', SearchModuleExprBests fuel options w = Ok (l, w') →
             visited_candidates_ (this w') = visited_candidates_ (this w)).
Proof.
  split.
  - intros s w' E. unfold SearchModuleExpr in E.
    apply bind_inv in E as (bests & w1 & Hb & E).
    destruct (bests !! 0%nat); [|discriminate]. injection E as <- <-.
    exact (keeps_SearchModuleExprBests _ _ _ _ _ Hb).
  - intros l w' E. exact (keeps_SearchModuleExprBests _ _ _ _ _ E).
Qed.
End MethodFacts.

(** ** Helpers of the reduce-split pass *)

Lemma or_shift_testbit k n i :
  0 ≤ k → 0 ≤ i →
  Z.testbit (or_shift k n) i = Z.testbit n i || Z.testbit n (i + k).
Proof.
  intros Hk Hi. unfold or_shift.
  rewrite Z.lor_spec, Z.shiftr_spec by lia. reflexivity.
Qed.

(** After [n |= n >> w] a bit is set when one of the [2 * w] bits of
    [m] from it upwards is, if before it was set when one of the [w]
    bits from it upwards was. *)
Lemma or_shift_spreads w m s :
  0 < w →
  (∀ i, 0 ≤ i →
        Z.testbit s i = true ↔ ∃ j, i ≤ j < i + w ∧ Z.testbit m j = true) →
  ∀ i, 0 ≤ i →
       Z.testbit (or_shift w s) i = true
       ↔ ∃ j, i ≤ j < i + 2 * w ∧ Z.testbit m j = true.
Proof.
  intros Hw Hs i Hi. rewrite or_shift_testbit by lia.
  rewrite orb_true_iff, !Hs by lia. split.
  - intros [(j & Hj & Hb) | (j & Hj & Hb)]; exists j; split; auto; lia.
  - intros (j & Hj & Hb). destruct (Z_lt_le_dec j (i + w)).
    + left. exists j. split; [lia | exact Hb].
    + right. exists j. split; [lia | exact Hb].
Qed.

(** The five steps set every bit below the highest bit set. *)
Lemma NextPowerOf2_bits n i :
  0 ≤ i →
  Z.testbit (NextPowerOf2 n) i = true
  ↔ ∃ j, i ≤ j < i + 32 ∧ Z.testbit (to_uint32 (n - 1)) j = true.
Proof.
  unfold NextPowerOf2. revert i.
  apply (or_shift_spreads 16); [lia|].
  apply (or_shift_spreads 8); [lia|].
  apply (or_shift_spreads 4); [lia|].
  apply (or_shift_spreads 2); [lia|].
  apply (or_shift_spreads 1); [lia|].
  intros i Hi. split.
  - intros Hb. exists i. split; [lia | exact Hb].
  - intros (j & Hj & Hb). replace i with j by lia. exact Hb.
Qed.

(** X13: [NextPowerOf2] does not return a power of two.  For [n]
    from [1] up it returns one less than the least power of two that
    is not below [n]: the increment of [return n++] is lost. *)
Theorem NextPowerOf2_one_less n :
  1 ≤ n → n < 2 ^ 32 →
  NextPowerOf2 n = 2 ^ Z.log2_up n - 1
  ∧ n ≤ NextPowerOf2 n + 1
  ∧ (1 < n → NextPowerOf2 n + 1 < 2 * n).
Proof.
  intros Hn1 Hn.
  assert (E : NextPowerOf2 n = 2 ^ Z.log2_up n - 1).
  { destruct (Z.eq_dec n 1) as [-> | Hne]; [reflexivity|].
    rewrite Z.log2_up_eqn by lia.
    set (m := Z.pred n). assert (Hm : 0 < m < 2 ^ 32) by (unfold m; lia).
    assert (Hk : 0 ≤ Z.log2 m < 32).
    { split; [apply Z.log2_nonneg|]. apply Z.log2_lt_pow2; lia. }
    rewrite Z.sub_1_r, <- Z.ones_equiv.
    apply Z.bits_inj'. intros i Hi.
    assert (Hu : to_uint32 (n - 1) = m).
    { unfold to_uint32, m. rewrite Z.mod_small; lia. }
    destruct (Z_lt_le_dec i (Z.succ (Z.log2 m))) as [Hlow | Hhigh].
    - rewrite Z.ones_spec_low by lia.
      apply NextPowerOf2_bits; [lia|]. exists (Z.log2 m).
      split; [lia|]. rewrite Hu. apply Z.bit_log2. lia.
    - rewrite Z.ones_spec_high by lia.
      apply not_true_is_false. intros Hb.
      apply NextPowerOf2_bits in Hb as (j & Hj & Hb); [|lia].
      rewrite Hu, Z.bits_above_log2 in Hb by lia. discriminate. }
  rewrite E. split; [reflexivity|].
  destruct (Z.eq_dec n 1) as [-> | Hne]; [split; [reflexivity | lia]|].
  pose proof (Z.log2_up_spec n ltac:(lia)) as [Hlo Hhi].
  split; [lia|]. intros _.
  replace (2 ^ Z.log2_up n) with (2 * 2 ^ Z.pred (Z.log2_up n)); [lia|].
  rewrite <- Z.pow_succ_r.
  - f_equal. lia.
  - pose proof (Z.log2_up_pos n ltac:(lia)). lia.
Qed.

(** As long as [a] is positive, [a * (n / a)] is not above [n], and is
    [n] when [a] divides [n]. *)
Lemma quot_divides n a :
  0 ≤ n → 0 < a →
  a * Z.quot n a ≤ n ∧ (a * Z.quot n a = n ↔ (a | n)).
Proof.
  intros Hn Ha. rewrite Z.quot_div_nonneg by lia. split.
  - apply Z.mul_div_le. lia.
  - rewrite <- Z.mod_divide by lia. rewrite <- Z.div_exact by lia.
    split; intros E; symmetry; exact E.
Qed.

(** From a divisor candidate [a], the loop goes up to the first divisor
    of [n]. *)
Lemma divide_loop_spec n :
  1 ≤ n → n < 2 ^ 31 →
  ∀ fuel a,
    0 < a ≤ n → n - a ≤ Z.of_nat fuel →
    ∃ a' b',
      divide_loop fuel n a (Z.quot n a) = Ok (a', b')
      ∧ a' * b' = n ∧ a ≤ a' ≤ n
      ∧ ∀ d, a ≤ d < a' → ¬ (d | n).
Proof.
  intros Hn1 Hn fuel.
  assert (H31 : 2 ^ 31 = 2147483648) by reflexivity.
  induction fuel as [|fuel IH]; intros a Ha Hfuel;
    destruct (quot_divides n a ltac:(lia) ltac:(lia)) as [Hle Hdiv];
    assert (Hpos : 0 ≤ a * Z.quot n a)
      by (apply Z.mul_nonneg_nonneg; [lia|]; apply Z.quot_pos; lia);
    assert (Hrange : in_int_range (a * Z.quot n a) = true)
      by (unfold in_int_range; apply andb_true_iff; split;
          [apply Z.leb_le | apply Z.ltb_lt]; lia).
  - assert (a = n) as -> by lia.
    assert (E : n * Z.quot n n = n) by (apply Hdiv; exists 1; lia).
    exists n, (Z.quot n n). simpl. rewrite Hrange, E, Z.eqb_refl. simpl.
    split_and!; try lia. reflexivity.
  - simpl. rewrite Hrange. simpl.
    destruct (a * Z.quot n a =? n) eqn:Eq.
    + apply Z.eqb_eq in Eq. exists a, (Z.quot n a).
      split_and!; try lia. reflexivity.
    + apply Z.eqb_neq in Eq.
      assert (Hlt : a * Z.quot n a < n) by lia.
      apply Z.ltb_lt in Hlt as Hlt'. rewrite Hlt'.
      assert (Hna : a ≠ n).
      { intros ->. apply Eq, Hdiv. exists 1. lia. }
      assert (Hr : in_int_range (a + 1) = true)
        by (unfold in_int_range; apply andb_true_iff; split;
            [apply Z.leb_le | apply Z.ltb_lt]; lia).
      rewrite Hr. replace (a + 1 =? 0) with false
        by (symmetry; apply Z.eqb_neq; lia).
      simpl.
      destruct (IH (a + 1) ltac:(lia) ltac:(lia)) as (a' & b' & E & Hab & Hb & Hd).
      exists a', b'. split_and!; try assumption; try lia.
      intros d Hdr. destruct (Z.eq_dec d a) as [-> | Hda].
      * intros Hd'. apply Eq, Hdiv. exact Hd'.
      * apply Hd. lia.
Qed.

(** X14: what [DivideToClosetNum] returns.  For a positive [n] the
    loop ends within [n] iterations, and gives a pair whose product is
    [n], the first factor being the least divisor of [n] that is not
    below the integer square root of [n].  For [n] that is not
    positive there is no defined behaviour: the root of a negative
    number has no [int] value, and [0] is divided by [0]. *)
Theorem DivideToClosetNum_spec n :
  (1 ≤ n → n < 2 ^ 31 →
   ∃ a b,
     DivideToClosetNum (Z.to_nat n) n = Ok (a, b)
     ∧ a * b = n ∧ Z.sqrt n ≤ a ≤ n
     ∧ ∀ d, Z.sqrt n ≤ d < a → ¬ (d | n))
  ∧ (n ≤ 0 → ∀ fuel, DivideToClosetNum fuel n = Undefined).
Proof.
  split.
  - intros Hn1 Hn. unfold DivideToClosetNum.
    replace (n <? 0) with false by (symmetry; apply Z.ltb_ge; lia).
    assert (Hs : 0 < Z.sqrt n) by (apply Z.sqrt_pos; lia).
    assert (Hs' : Z.sqrt n ≤ n) by (apply Z.sqrt_le_lin; lia).
    replace (Z.sqrt n =? 0) with false by (symmetry; apply Z.eqb_neq; lia).
    apply divide_loop_spec; lia.
  - intros Hn fuel. unfold DivideToClosetNum.
    destruct (n <? 0) eqn:E; [reflexivity|].
    apply Z.ltb_ge in E. assert (n = 0) as -> by lia. reflexivity.
Qed.

(** ** Examples of the further properties *)

Lemma pick_all_best_slots_witness :
  PickNextGenerationEpsGreedy (λ x : nat, x) [1; 2; 3]%nat [4; 2; 5; 6]%nat
    2 float_two ∅
  = Ok (dedup_take (λ x : nat, x) (Z.to_nat 2) ∅
          ([1; 2; 3]%nat ++ [4; 2; 5; 6]%nat)).1.
Proof.
  apply (pick_all_best_slots (λ x : nat, x) [1; 2; 3]%nat [4; 2; 5; 6]%nat
           2 float_two ∅ 4); try reflexivity; lia.
Defined.

Lemma pick_all_random_slots_witness :
  PickNextGenerationEpsGreedy (λ x : nat, x) [1; 2; 3]%nat [4; 2; 5; 6]%nat
    3 float_one ∅
  = Ok (dedup_take (λ x : nat, x) (Z.to_nat 3) ∅
          ([4; 2; 5; 6]%nat ++ [1; 2; 3]%nat)).1.
Proof.
  apply (pick_all_random_slots (λ x : nat, x) [1; 2; 3]%nat
           [4; 2; 5; 6]%nat 3 float_one ∅); try reflexivity; lia.
Defined.

Lemma pick_negative_budget_witness :
  ∃ res visited',
    PickNextGenerationEpsGreedy (λ x : nat, x) [1; 2; 3]%nat
      [4; 2; 5; 6]%nat (-1) float_half ∅ = Ok (res, visited')
    ∧ visited'
      = ∅ ∪ list_to_set ((λ x : nat, x) <$> [1; 2; 3]%nat ++ [4; 2; 5; 6]%nat)
    ∧ length res
      = size ((list_to_set
                 ((λ x : nat, x) <$> [1; 2; 3]%nat ++ [4; 2; 5; 6]%nat)
               : gset nat) ∖ ∅)
    ∧ NoDup ((λ x : nat, x) <$> res).
Proof.
  apply (pick_negative_budget (λ x : nat, x) [1; 2; 3]%nat [4; 2; 5; 6]%nat
           (-1) float_half ∅ 0); try reflexivity; lia.
Defined.

Lemma pick_loop_counts_witness :
  ∃ st,
    while_loop (pick_step (λ x : nat, x) [1; 2; 3]%nat [4; 2; 5; 6]%nat 4 2)
      7 (pick_init ∅) = Ok st
    ∧ deduplicated_cnt st + Z.of_nat (length (result st))
      = best_idx st + rand_idx st.
Proof.
  destruct (outcome_returns
              (while_loop
                 (pick_step (λ x : nat, x) [1; 2; 3]%nat [4; 2; 5; 6]%nat 4 2)
                 7 (pick_init ∅))) as [st E]; [vm_compute; reflexivity|].
  exists st. split; [exact E|].
  exact (proj1 (proj2 (proj2 (pick_loop_counts (λ x : nat, x) [1; 2; 3]%nat
                                [4; 2; 5; 6]%nat 4 2 ∅ 7 st E)))).
Defined.

Lemma CrossOver_footprint_witness :
  ∃ child w',
    CrossOver (C := DC) demo_father demo_mother lcg_world = Ok (child, w')
    ∧ dom (state_heap (mem w'))
      = {[child]} ∪ dom (state_heap (mem lcg_world))
    ∧ dom (ir_heap (mem w'))
      = list_to_set (exprs_of (mem w') child) ∪ dom (ir_heap (mem lcg_world)).
Proof.
  destruct (outcome_returns (CrossOver (C := DC) demo_father demo_mother
                               lcg_world)) as [[child w'] E].
  - vm_compute. reflexivity.
  - exists child, w'. split; [exact E|].
    destruct (CrossOver_footprint (C := DC) demo_father demo_mother lcg_world
                child w' E) as (Hs & Hi & _).
    split; assumption.
Defined.

Lemma CrossOver_equal_fingerprints_witness :
  ∃ child w',
    CrossOver (C := DC) demo_father demo_father lcg_world = Ok (child, w')
    ∧ fingerprint (mem w') child = fingerprint (mem lcg_world) demo_father.
Proof.
  destruct (outcome_returns (CrossOver (C := DC) demo_father demo_father
                               lcg_world)) as [[child w'] E].
  - vm_compute. reflexivity.
  - exists child, w'. split; [exact E|].
    apply (CrossOver_equal_fingerprints (C := DC) demo_father demo_father
             lcg_world child w'); [| reflexivity | exact E].
    assert (Hx : exprs_of (mem lcg_world) demo_father = [2%positive])
      by (vm_compute; reflexivity).
    rewrite Hx.
    repeat constructor; apply elem_of_dom; eexists; reflexivity.
Defined.

Lemma Evolve_second_index_witness :
  ∃ r w',
    resample (C := DC) 5 2 0 1 lcg_world = Ok (r, w') ∧ r ≠ 0.
Proof.
  destruct (outcome_returns (resample (C := DC) 5 2 0 1 lcg_world))
    as [[r w'] E].
  - vm_compute. reflexivity.
  - exists r, w'. split; [exact E|].
    exact (proj1 (Evolve_second_index (C := DC) 5 2 0 1 lcg_world r w' E)).
Defined.

Lemma Evolve_without_crossover_witness :
  ∃ r w',
    Evolve (C := DC) 0 [demo_father; demo_mother] 0 3 lcg_world = Ok (r, w')
    ∧ rand_seed_ (this w') = rand_seed_ (this lcg_world)
    ∧ visited_candidates_ (this w') = visited_candidates_ (this lcg_world).
Proof.
  apply (Evolve_without_crossover (C := DC) 0 [demo_father; demo_mother] 0 3
           lcg_world). lia.
Defined.

Lemma warm_starts_fork_per_record_witness :
  ∃ l w',
    GetTopKCandidatesFromDatabase (C := DC) 2
      (demo_world (RE := lcg_engine) 42 [good_record; good_record])
    = Ok (l, w')
    ∧ rand_seed_ (this w')
      = forked (length l)
          (rand_seed_
             (this (demo_world (RE := lcg_engine) 42
                      [good_record; good_record]))).
Proof.
  destruct (outcome_returns
              (GetTopKCandidatesFromDatabase (C := DC) 2
                 (demo_world (RE := lcg_engine) 42 [good_record; good_record])))
    as [[l w'] E].
  - vm_compute. reflexivity.
  - exists l, w'. split; [exact E|].
    exact (proj1 (warm_starts_fork_per_record (C := DC) 2 _ l w' E)).
Defined.

Lemma warm_starts_costs_witness :
  ∃ l w',
    GetTopKCandidatesFromDatabase (C := DC) 2
      (demo_world (RE := lcg_engine) 42 [good_record; good_record])
    = Ok (l, w')
    ∧ NoDup l.
Proof.
  destruct (outcome_returns
              (GetTopKCandidatesFromDatabase (C := DC) 2
                 (demo_world (RE := lcg_engine) 42 [good_record; good_record])))
    as [[l w'] E].
  - vm_compute. reflexivity.
  - exists l, w'. split; [exact E|].
    refine (proj1 (warm_starts_costs (C := DC) 2 _ l w' _ E)).
    intros p sch m sch' m' Er. simpl in Er.
    destruct p; [injection Er as <- <-; reflexivity | discriminate].
Defined.

Lemma SearchModuleExpr_keeps_visited_witness :
  ∃ s w',
    SearchModuleExpr (C := DC) 10 demo_options lcg_world = Ok (s, w')
    ∧ visited_candidates_ (this w') = visited_candidates_ (this lcg_world).
Proof.
  destruct (outcome_returns (SearchModuleExpr (C := DC) 10 demo_options
                               lcg_world)) as [[s w'] E].
  - vm_compute. reflexivity.
  - exists s, w'. split; [exact E|].
    exact (proj1 (SearchModuleExpr_keeps_visited (C := DC) 10 demo_options
                    lcg_world) s w' E).
Defined.

Lemma NextPowerOf2_one_less_witness :
  NextPowerOf2 5 = 2 ^ Z.log2_up 5 - 1
  ∧ 5 ≤ NextPowerOf2 5 + 1
  ∧ (1 < 5 → NextPowerOf2 5 + 1 < 2 * 5).
Proof. apply (NextPowerOf2_one_less 5); [lia | reflexivity]. Defined.

Lemma DivideToClosetNum_spec_witness :
  ∃ a b,
    DivideToClosetNum (Z.to_nat 12) 12 = Ok (a, b)
    ∧ a * b = 12 ∧ Z.sqrt 12 ≤ a ≤ 12
    ∧ ∀ d, Z.sqrt 12 ≤ d < a → ¬ (d | 12).
Proof.
  apply (proj1 (DivideToClosetNum_spec 12)); [lia | reflexivity].
Defined.

(** * The visited set across rounds *)

Section VisitedFacts.
Context {StateType : Type} {RE : RandomEngine StateType}.
Context {C : Collaborators StateType}.

Lemma on_heap_mono (m m' : Memory StateType IrNode) es :
  ir_heap m ⊆ ir_heap m' → on_heap m es → on_heap m' es.
Proof.
  intros Hsub Hes. unfold on_heap in *.
  eapply Forall_impl; [exact Hes|]. intros e He. simpl in He.
  eapply subseteq_dom; eassumption.
Qed.

(** A heap that only grows rewrites no state. *)
Lemma extends_keeps_states (m m' : Memory StateType IrNode) :
  state_heap m ⊆ state_heap m' → ir_heap m ⊆ ir_heap m' →
  keeps_states m m'.
Proof.
  intros Hst Hir s (o & Ho & Hes).
  assert (Ho' : state_heap m' !! s = Some o)
    by (eapply lookup_weaken; eassumption).
  split.
  - exists o. split; [exact Ho'|]. eapply on_heap_mono; eassumption.
  - unfold fingerprint. rewrite Ho, Ho'.
    apply Forall_fmap_ext_1.
    eapply Forall_impl; [exact Hes|]. intros e He. simpl in He.
    apply elem_of_dom in He as [n Hn]. rewrite Hn.
    eapply lookup_weaken; eassumption.
Qed.

Lemma keeps_states_refl (m : Memory StateType IrNode) : keeps_states m m.
Proof. intros s Hs. auto. Qed.

Lemma keeps_states_trans (m1 m2 m3 : Memory StateType IrNode) :
  keeps_states m1 m2 → keeps_states m2 m3 → keeps_states m1 m3.
Proof.
  intros H12 H23 s Hs. destruct (H12 s Hs) as [Hl2 Hf2].
  destruct (H23 s Hl2) as [Hl3 Hf3]. split; [exact Hl3 | congruence].
Qed.

Lemma keeps_states_Forall (m m' : Memory StateType IrNode) l :
  keeps_states m m' → Forall (live m) l → Forall (live m') l.
Proof.
  intros Hk Hl. eapply Forall_impl; [exact Hl|]. intros s Hs.
  exact (proj1 (Hk s Hs)).
Qed.

Lemma keeps_states_fingerprints (m m' : Memory StateType IrNode) l :
  keeps_states m m' → Forall (live m) l →
  fingerprint m' <$> l = fingerprint m <$> l.
Proof.
  intros Hk Hl. apply Forall_fmap_ext_1.
  eapply Forall_impl; [exact Hl|]. intros s Hs. exact (proj2 (Hk s Hs)).
Qed.

Lemma frames_same_mem {A} (c : M A) :
  (∀ w a w', c w = Ok (a, w') → mem w' = mem w) → frames c.
Proof. intros Hc w a w' E. rewrite (Hc _ _ _ E). apply keeps_states_refl. Qed.

Lemma frames_bind {A B} (c : M A) (k : A → M B) :
  frames c → (∀ a, frames (k a)) → frames (bind c k).
Proof.
  intros Hc Hk w b w'' E. apply bind_inv in E as (a & w' & E1 & E2).
  eapply keeps_states_trans; [exact (Hc _ _ _ E1) | exact (Hk _ _ _ _ E2)].
Qed.

Lemma frames_ret {A} (a : A) : frames (ret a).
Proof. apply frames_same_mem. intros w a' w' [= <- <-]. reflexivity. Qed.

Lemma frames_fail_check {A} : frames (@fail_check _ _ A).
Proof. intros w a w' E. discriminate. Qed.

Lemma frames_undefined {A} : frames (@undefined _ _ A).
Proof. intros w a w' E. discriminate. Qed.

Lemma frames_sample lo hi : frames (sample_uniform_int lo hi).
Proof.
  apply frames_same_mem. intros w v w' E.
  apply sample_uniform_int_inv in E as [_ ->]. reflexivity.
Qed.

Lemma frames_fork : frames fork_random_state.
Proof.
  apply frames_same_mem. intros w v w' E.
  apply fork_random_state_inv in E as (_ & _ & E). exact E.
Qed.

Lemma frames_IRCopy e : frames (IRCopy e).
Proof.
  intros w v w' E. apply IRCopy_inv in E as (n & _ & Hfresh & Hir & Hst & _).
  apply extends_keeps_states.
  - rewrite Hst. reflexivity.
  - rewrite Hir. apply insert_fresh_subseteq. exact Hfresh.
Qed.

Lemma frames_new_SearchState sch cost : frames (new_SearchState sch cost).
Proof.
  intros w v w' E. apply new_SearchState_inv in E as (Hfresh & Hst & Hir & _).
  apply extends_keeps_states.
  - rewrite Hst. apply insert_fresh_subseteq. exact Hfresh.
  - rewrite Hir. reflexivity.
Qed.

Lemma frames_GetExprs s : frames (GetExprs s).
Proof.
  apply frames_same_mem. intros w v w' E.
  apply GetExprs_inv in E as [-> _]. reflexivity.
Qed.

Lemma frames_CHECK_EQ a b : frames (CHECK_EQ a b).
Proof.
  apply frames_same_mem. intros w v w' E.
  apply CHECK_EQ_inv in E as [_ ->]. reflexivity.
Qed.

Create HintDb frames.

#[local] Hint Resolve frames_ret frames_fail_check frames_undefined
  frames_sample frames_fork frames_IRCopy frames_new_SearchState
  frames_GetExprs frames_CHECK_EQ : frames.

(** Goes through the binds of a method. *)
Ltac frames :=
  repeat first
    [ solve [eauto with frames]
    | apply frames_bind; [|intros ?]
    | match goal with
      | |- frames (if ?b then _ else _) => destruct b
      | |- frames (match ?o with Some _ => _ | None => _ end) =>
          destruct o
      end ];
  eauto with frames.

Lemma frames_IRCopy_module es : frames (IRCopy_module es).
Proof. induction es; simpl; frames. Qed.

Lemma frames_cross_over_loop fs : ∀ ms, frames (cross_over_loop fs ms).
Proof. induction fs; intros [|m ms]; simpl; frames. Qed.

#[local] Hint Resolve frames_IRCopy_module frames_cross_over_loop : frames.

Lemma frames_CrossOver s1 s2 : frames (CrossOver s1 s2).
Proof. unfold CrossOver. frames. Qed.

Lemma frames_resample fuel gn first second :
  frames (resample fuel gn first second).
Proof.
  apply frames_same_mem. intros w v w' E. unfold resample in E.
  destruct (while_loop _ _ _) as [[v0 s]| | |]; try discriminate.
  injection E as <- <-. reflexivity.
Qed.

Lemma frames_at_index population i : frames (at_index population i).
Proof. unfold at_index. frames. Qed.

#[local] Hint Resolve frames_CrossOver frames_resample frames_at_index
  : frames.

Lemma frames_cross_over_iter fuel population gn n :
  ∀ evolution, frames (cross_over_iter fuel population gn n evolution).
Proof. induction n; intros evolution; simpl; frames. Qed.

Lemma frames_pick picked_bests random_init num eps_greedy :
  frames (pick_next_generation picked_bests random_init num eps_greedy).
Proof.
  apply frames_same_mem. intros w r w' E. unfold pick_next_generation in E.
  destruct (PickNextGenerationEpsGreedy _ _ _ _ _ _) as [[r0 v]| | |];
    try discriminate.
  injection E as <- <-. reflexivity.
Qed.

#[local] Hint Resolve frames_cross_over_iter frames_pick : frames.

(** *** With collaborators that rewrite no state *)

Hypothesis Hcol : collaborators_keep_states.

Lemma frames_schedule_mutate s : frames (schedule_mutate s).
Proof.
  intros w v w' E. unfold schedule_mutate in E.
  destruct (GetScheduleMutate _ _ _ _) as [[s' sp] m] eqn:Eg.
  injection E as <- <-. simpl.
  exact (proj1 (proj1 (proj2 Hcol) _ _ _ _ _ _ _ Eg)).
Qed.

Lemma frames_InitSketch num strategy : frames (InitSketch num strategy).
Proof.
  intros w v w' E. unfold InitSketch in E.
  destruct (GenerateSketches _ _ _ _) as [[l sp] m] eqn:Eg.
  injection E as <- <-. simpl.
  exact (proj1 (proj1 Hcol _ _ _ _ _ _ _ Eg)).
Qed.

#[local] Hint Resolve frames_schedule_mutate frames_InitSketch : frames.

Lemma frames_push_all max_size evolution :
  ∀ l, frames (push_all max_size evolution l).
Proof.
  induction evolution; intros l; simpl; frames.
  apply frames_same_mem. intros w a' w' [= <- <-]. reflexivity.
Qed.

#[local] Hint Resolve frames_push_all : frames.

Lemma frames_Evolve fuel population cross_over_num ret_num :
  frames (Evolve fuel population cross_over_num ret_num).
Proof. unfold Evolve. frames. Qed.

Lemma frames_replay_record task_key record :
  frames (replay_record task_key record).
Proof.
  unfold replay_record. frames.
  intros w v w' E.
  destruct (ReplayWithProto _ _ _) as [[sch m]| | |] eqn:Er; try discriminate.
  injection E as <- <-. simpl.
  exact (proj1 (proj2 (proj2 Hcol) _ _ _ _ _ Er)).
Qed.

#[local] Hint Resolve frames_Evolve frames_replay_record : frames.

Lemma frames_replay_records task_key records :
  frames (replay_records task_key records).
Proof. induction records; simpl; frames. Qed.

Lemma frames_GetTopKCandidatesFromDatabase topk :
  frames (GetTopKCandidatesFromDatabase topk).
Proof.
  intros w v w' E. unfold GetTopKCandidatesFromDatabase in E.
  exact (frames_replay_records _ _ _ _ _ E).
Qed.

#[local] Hint Resolve frames_GetTopKCandidatesFromDatabase : frames.

Lemma frames_SearchModuleExprBests fuel options :
  frames (SearchModuleExprBests fuel options).
Proof. unfold SearchModuleExprBests. frames. Qed.

#[local] Hint Resolve frames_SearchModuleExprBests : frames.

Lemma frames_SearchModuleExprEpsGreedy fuel options :
  frames (SearchModuleExprEpsGreedy fuel options).
Proof. unfold SearchModuleExprEpsGreedy. frames. Qed.

(** *** What the methods return exists *)

Lemma IRCopy_module_on_heap es :
  ∀ w r w',
    IRCopy_module es w = Ok (r, w') →
    ir_heap (mem w) ⊆ ir_heap (mem w') ∧ on_heap (mem w') r.
Proof.
  induction es as [|e es IH]; intros w r w' E; simpl in E.
  - injection E as <- <-. split; [reflexivity | constructor].
  - apply bind_inv in E as (e' & w1 & He & E).
    apply bind_inv in E as (r1 & w2 & Hr & E). injection E as <- <-.
    apply IRCopy_inv in He as (n & _ & Hfresh & Hir & _ & _).
    destruct (IH _ _ _ Hr) as [Hsub Hon].
    assert (Hsub1 : ir_heap (mem w) ⊆ ir_heap (mem w1))
      by (rewrite Hir; apply insert_fresh_subseteq; exact Hfresh).
    split; [etransitivity; eassumption|].
    constructor; [|exact Hon].
    eapply subseteq_dom; [exact Hsub|]. rewrite Hir, dom_insert_L. set_solver.
Qed.

Lemma new_SearchState_live sch cost w s w' :
  new_SearchState sch cost w = Ok (s, w') →
  on_heap (mem w) (module_expr sch) → live (mem w') s.
Proof.
  intros E Hon. apply new_SearchState_inv in E as (_ & Hst & Hir & _).
  exists (MkSearchState sch cost). split.
  - rewrite Hst. apply lookup_insert_eq.
  - simpl. unfold on_heap. rewrite Hir. exact Hon.
Qed.

Lemma replay_record_live task_key record w s w' :
  replay_record task_key record w = Ok (s, w') → live (mem w') s.
Proof.
  unfold replay_record. intros E.
  apply bind_inv in E as (exprs & w1 & Hcopy & E).
  apply bind_inv in E as (seed & w2 & Hfork & E).
  apply bind_inv in E as (sch & w3 & Hreplay & E).
  apply IRCopy_module_on_heap in Hcopy as [_ Hon].
  apply fork_random_state_inv in Hfork as (_ & _ & Hmem).
  destruct (ReplayWithProto (trace record) (MkIRSchedule exprs seed) (mem w2))
    as [[sch' m']| | |] eqn:Er; try discriminate.
  simpl in Hreplay. injection Hreplay as <- <-.
  apply (new_SearchState_live _ _ _ _ _ E). simpl.
  apply (proj2 (proj2 (proj2 Hcol) _ _ _ _ _ Er)). simpl.
  rewrite Hmem. exact Hon.
Qed.

Lemma replay_records_live task_key records :
  ∀ w l w',
    replay_records task_key records w = Ok (l, w') →
    Forall (live (mem w')) l.
Proof.
  induction records as [|record records IH]; intros w l w' E; simpl in E.
  - injection E as <- <-. constructor.
  - apply bind_inv in E as (s & w1 & Hs & E).
    apply bind_inv in E as (r & w2 & Hr & E). injection E as <- <-.
    constructor; [|exact (IH _ _ _ Hr)].
    apply (frames_replay_records _ _ _ _ _ Hr).
    exact (replay_record_live _ _ _ _ _ Hs).
Qed.

Lemma CrossOver_live A B w child w' :
  CrossOver A B w = Ok (child, w') → live (mem w') child.
Proof.
  intros E.
  apply CrossOver_inv in E
    as (o1 & o2 & es & forked & _ & _ & Hlen & (w1 & Hloop & Hir) & _ & _
        & _ & Hst & _ & _ & _).
  destruct (cross_over_loop_footprint _ _ _ _ _ Hlen Hloop) as [Hdom _].
  exists (MkSearchState (MkIRSchedule es forked) NOT_INIT). split.
  - rewrite Hst. apply lookup_insert_eq.
  - simpl. apply Forall_forall. intros e He. rewrite Hir, Hdom.
    apply elem_of_union_l, elem_of_list_to_set. exact He.
Qed.

Lemma cross_over_iter_live fuel population gn n :
  ∀ evolution w r w',
    cross_over_iter fuel population gn n evolution w = Ok (r, w') →
    Forall (live (mem w)) evolution → Forall (live (mem w')) r.
Proof.
  induction n as [|n IH]; intros evolution w r w' E Hl; simpl in E.
  - injection E as <- <-. exact Hl.
  - apply bind_inv in E as (first & w1 & E1 & E).
    apply bind_inv in E as (second & w2 & E2 & E).
    apply bind_inv in E as (second' & w3 & E3 & E).
    apply bind_inv in E as (state1 & w4 & E4 & E).
    apply bind_inv in E as (state2 & w5 & E5 & E).
    apply bind_inv in E as (child & w6 & E6 & E).
    apply (IH _ _ _ _ E). apply Forall_app. split.
    + apply frames_sample in E1. apply frames_sample in E2.
      apply frames_resample in E3. apply frames_at_index in E4.
      apply frames_at_index in E5. apply frames_CrossOver in E6.
      eapply keeps_states_Forall; [|exact Hl].
      repeat (eapply keeps_states_trans; [eassumption|]).
      apply keeps_states_refl.
    + constructor; [|constructor]. exact (CrossOver_live _ _ _ _ _ E6).
Qed.

Lemma multiset_insert_elem (m : Memory StateType IrNode) s l x :
  x ∈ multiset_insert m s l → x ∈ s :: l.
Proof.
  induction l as [|y l IH]; simpl; [auto|].
  destruct (SFltb _ _); [auto|].
  intros Hx. apply elem_of_cons in Hx as [-> | Hx]; [set_solver|].
  apply IH in Hx. set_solver.
Qed.

Lemma SizedMultiSet_Push_elem max_size (m : Memory StateType IrNode) s l x :
  x ∈ SizedMultiSet_Push max_size m s l → x ∈ s :: l.
Proof.
  unfold SizedMultiSet_Push. intros Hx.
  apply (multiset_insert_elem m).
  destruct (max_size <? _); [|exact Hx].
  rewrite removelast_firstn_len in Hx.
  eapply subseteq_take. exact Hx.
Qed.

Lemma push_all_live max_size evolution :
  ∀ l w r w',
    push_all max_size evolution l w = Ok (r, w') →
    Forall (live (mem w)) evolution → Forall (live (mem w)) l →
    Forall (live (mem w')) r.
Proof.
  induction evolution as [|s evolution IH]; intros l w r w' E Hev Hl;
    simpl in E.
  - injection E as <- <-. exact Hl.
  - apply bind_inv in E as (s' & w1 & Hs & E).
    apply bind_inv in E as (l1 & w2 & Hpush & E).
    injection Hpush as <- <-.
    pose proof (frames_schedule_mutate _ _ _ _ Hs) as Hk.
    apply Forall_cons in Hev as [Hs0 Hev].
    assert (Hs' : live (mem w1) s').
    { unfold schedule_mutate in Hs.
      destruct (GetScheduleMutate _ _ _ _) as [[s0 sp] m] eqn:Eg.
      injection Hs as <- <-. simpl.
      exact (proj2 (proj1 (proj2 Hcol) _ _ _ _ _ _ _ Eg) Hs0). }
    apply (IH _ _ _ _ E).
    + eapply keeps_states_Forall; eassumption.
    + apply Forall_forall. intros x Hx.
      apply SizedMultiSet_Push_elem in Hx.
      apply elem_of_cons in Hx as [-> | Hx]; [exact Hs'|].
      apply (proj1 (Hk x (proj1 (Forall_forall _ _) Hl x Hx))).
Qed.

Lemma Evolve_live fuel population cross_over_num ret_num w r w' :
  Evolve fuel population cross_over_num ret_num w = Ok (r, w') →
  Forall (live (mem w)) population → Forall (live (mem w')) r.
Proof.
  unfold Evolve. intros E Hl.
  destruct (Z.of_nat (length population) =? 0).
  { injection E as <- <-. constructor. }
  apply bind_inv in E as (evolution & w1 & Hiter & E).
  apply (push_all_live _ _ _ _ _ _ E); [|constructor].
  exact (cross_over_iter_live _ _ _ _ _ _ _ _ Hiter Hl).
Qed.

Lemma InitSketch_live num strategy w l w' :
  InitSketch num strategy w = Ok (l, w') → Forall (live (mem w')) l.
Proof.
  intros E. unfold InitSketch in E.
  destruct (GenerateSketches _ _ _ _) as [[l0 sp] m] eqn:Eg.
  injection E as <- <-. simpl.
  exact (proj2 (proj1 Hcol _ _ _ _ _ _ _ Eg)).
Qed.

Lemma SearchModuleExprBests_live fuel options w l w' :
  SearchModuleExprBests fuel options w = Ok (l, w') →
  Forall (live (mem w')) l.
Proof.
  unfold SearchModuleExprBests. intros E.
  apply bind_inv in E as (topk & w1 & Htopk & E).
  apply bind_inv in E as (sketch & w2 & Hsketch & E).
  apply (Evolve_live _ _ _ _ _ _ _ E). apply Forall_app. split.
  - eapply keeps_states_Forall; [exact (frames_InitSketch _ _ _ _ _ Hsketch)|].
    unfold GetTopKCandidatesFromDatabase in Htopk.
    exact (replay_records_live _ _ _ _ _ Htopk).
  - exact (InitSketch_live _ _ _ _ _ Hsketch).
Qed.

(** *** The rounds *)

(** The pick as a method: the heap is left alone; the returned states
    are candidates, distinct by fingerprint and equal to no state of
    the visited set; and they are what is added to the set. *)
Lemma pick_next_generation_inv picked_bests random_init num eps_greedy
    w r w' :
  pick_next_generation picked_bests random_init num eps_greedy w
  = Ok (r, w') →
  mem w' = mem w
  ∧ NoDup (fingerprint (mem w) <$> r)
  ∧ (∀ s, s ∈ r →
          fingerprint (mem w) s
          ∉ fingerprint (mem w) <$> visited_candidates_ (this w))
  ∧ visited_candidates_ (this w') = visited_candidates_ (this w) ++ r
  ∧ r ⊆ picked_bests ++ random_init.
Proof.
  unfold pick_next_generation. intros E.
  destruct (PickNextGenerationEpsGreedy _ _ _ _ _ _) as [[r0 v]| | |] eqn:Ep;
    try discriminate.
  injection E as <- <-. simpl.
  destruct (num_rands num eps_greedy) as [nr|] eqn:En.
  2:{ unfold PickNextGenerationEpsGreedy in Ep. rewrite En in Ep.
      discriminate. }
  rewrite (pick_returns_slots _ _ _ _ _ _ _ En) in Ep. injection Ep as Ep.
  apply slots_spec in Ep as (_ & Hnd & Hnew & _ & Hsub & _).
  split_and!; auto.
  intros s Hs Hin. apply (Hnew s Hs). apply elem_of_list_to_set. exact Hin.
Qed.

(** One round: the fingerprints it returns are distinct and none is
    that of a state of the visited set; the states are added to the
    set; no state is rewritten. *)
Lemma eps_greedy_round_inv fuel options w r fps w' :
  Forall (live (mem w)) (visited_candidates_ (this w)) →
  eps_greedy_round fuel options w = Ok ((r, fps), w') →
  fps = fingerprint (mem w') <$> r
  ∧ NoDup fps
  ∧ (∀ fp, fp ∈ fps →
           fp ∉ fingerprint (mem w) <$> visited_candidates_ (this w))
  ∧ visited_candidates_ (this w') = visited_candidates_ (this w) ++ r
  ∧ keeps_states (mem w) (mem w')
  ∧ Forall (live (mem w')) r.
Proof.
  unfold eps_greedy_round. intros Hlive E.
  apply bind_inv in E as (r0 & w0 & E & Hret).
  injection Hret as <- <- <-.
  pose proof (frames_SearchModuleExprEpsGreedy _ _ _ _ _ E) as Hk.
  unfold SearchModuleExprEpsGreedy in E.
  apply bind_inv in E as (pb & w1 & E1 & E).
  apply bind_inv in E as (ri & w2 & E2 & E).
  pose proof (frames_SearchModuleExprBests _ _ _ _ _ E1) as Hk1.
  pose proof (frames_InitSketch _ _ _ _ _ E2) as Hk2.
  pose proof (SearchModuleExprBests_live _ _ _ _ _ E1) as Hpb.
  pose proof (InitSketch_live _ _ _ _ _ E2) as Hri.
  apply keeps_SearchModuleExprBests in E1.
  apply keeps_InitSketch in E2.
  apply pick_next_generation_inv in E as (Hmem & Hnd & Hnew & Hv & Hsub).
  rewrite Hmem. rewrite E2, E1 in Hnew, Hv.
  assert (Hfp : fingerprint (mem w2) <$> visited_candidates_ (this w)
                = fingerprint (mem w) <$> visited_candidates_ (this w)).
  { apply keeps_states_fingerprints; [|exact Hlive].
    eapply keeps_states_trans; eassumption. }
  rewrite Hfp in Hnew.
  split_and!; auto.
  - intros fp Hfp'. apply list_elem_of_fmap in Hfp' as (s & -> & Hs). auto.
  - rewrite <- Hmem. exact Hk.
  - apply Forall_forall. intros s Hs. apply Hsub in Hs.
    apply elem_of_app in Hs as [Hs | Hs].
    + apply (proj1 (Hk2 s (proj1 (Forall_forall _ _) Hpb s Hs))).
    + exact (proj1 (Forall_forall _ _) Hri s Hs).
Qed.

End VisitedFacts.

(** The collaborators of the examples allocate their sketches and
    rewrite nothing. *)
Lemma demo_sketches_keeps_states {StateType} (seed0 : StateType) n :
  ∀ sp m l sp' m',
    demo_sketches seed0 n sp m = (l, sp', m') →
    keeps_states (C := demo_collaborators seed0) m m'
    ∧ Forall (live (C := demo_collaborators seed0) m') l.
Proof.
  induction n as [|n IH]; intros sp m l sp' m' E; simpl in E.
  - injection E as <- <- <-. split; [apply keeps_states_refl | constructor].
  - set (e := fresh (dom (ir_heap m))) in *.
    set (s := fresh (dom (state_heap m))) in *.
    set (m1 := MkMemory (<[e := sp]> (ir_heap m))
                 (<[s := MkSearchState (MkIRSchedule [e] seed0) NOT_INIT]>
                    (state_heap m))) in *.
    destruct (demo_sketches seed0 n (sp + 1) m1) as [[l0 sp0] m0] eqn:E0.
    injection E as <- <- <-.
    destruct (IH _ _ _ _ _ E0) as [Hk Hl].
    assert (Hk1 : keeps_states (C := demo_collaborators seed0) m m1).
    { apply extends_keeps_states; simpl.
      - apply insert_fresh_subseteq, is_fresh.
      - apply insert_fresh_subseteq, is_fresh. }
    split; [eapply keeps_states_trans; eassumption|].
    constructor; [|exact Hl].
    assert (Hs : live (C := demo_collaborators seed0) m1 s).
    { exists (MkSearchState (MkIRSchedule [e] seed0) NOT_INIT). split.
      - simpl. apply lookup_insert_eq.
      - unfold on_heap. simpl. repeat constructor.
        rewrite dom_insert_L. set_solver. }
    exact (proj1 (Hk s Hs)).
Qed.

Lemma demo_collaborators_keep_states {StateType} (seed0 : StateType) :
  collaborators_keep_states (C := demo_collaborators seed0).
Proof.
  split_and!.
  - intros num strategy sp m l sp' m' E.
    exact (demo_sketches_keeps_states seed0 _ _ _ _ _ _ E).
  - intros s cm sp m s' sp' m' E. simpl in E. injection E as <- <- <-.
    split; [apply keeps_states_refl | auto].
  - intros p sch m sch' m' E. simpl in E.
    destruct p; [|discriminate]. injection E as <- <-.
    split; [apply keeps_states_refl | auto].
Qed.


